(** * Ziria / Sora extension library: fixed-point vector kernels

    A shallow embedding of [csrc/sora_ext_lib.cpp].  Machine integers are
    mathematical integers with their wrap-around written out, buffers are
    lists indexed from zero, a 128-bit register is four 32-bit words, and
    every kernel is a function from the buffers it receives to the buffer
    it leaves behind together with its return value.

    The first part holds the embedding, in the order of the source file,
    the second the reference definitions the kernels are compared with,
    the third the properties. *)

From Stdlib Require Import ZArith List Lia Bool.
Import ListNotations.
Local Open Scope Z_scope.

(** ** Machine integers *)

Module MachInt.

(** Modelled from the spec: the integer types of [types.h], which is not
    among the sources.  [int8], [int16], [int32] (also [num8], [num16],
    [num32]) are the signed and [unum8], [unum16], [unum32], [unum64] the
    unsigned types of the width in their name; [int] has 32 bits.

    Conversion of a mathematical integer to the signed types (two's
    complement truncation). *)
Definition int8_of (v : Z) : Z := (v + 128) mod 256 - 128.
Definition int16_of (v : Z) : Z := (v + 32768) mod 65536 - 32768.
Definition int32_of (v : Z) : Z := (v + 2147483648) mod 4294967296 - 2147483648.

(** Conversion to the unsigned types. *)
Definition unum8_of (v : Z) : Z := v mod 256.
Definition unum16_of (v : Z) : Z := v mod 65536.
Definition unum32_of (v : Z) : Z := v mod 4294967296.

Definition is_int16 (v : Z) : Prop := -32768 <= v < 32768.
Definition is_int32 (v : Z) : Prop := -2147483648 <= v < 2147483648.
Definition is_unum8 (v : Z) : Prop := 0 <= v < 256.

(** Arithmetic of the C type [int]: operands of narrower types are promoted
    to it before an operator is applied, and the result keeps 32 bits. *)
Definition add_int (a b : Z) : Z := int32_of (a + b).
Definition sub_int (a b : Z) : Z := int32_of (a - b).
Definition mul_int (a b : Z) : Z := int32_of (a * b).

(** [a >> k] on a signed [int] is the arithmetic shift, on an [unsigned]
    the logical one; [a << k] keeps the low 32 bits.  The C operators are
    defined for [0 <= k < 32] only. *)
Definition shr_int (a k : Z) : Z := Z.shiftr a k.
Definition shl_int (a k : Z) : Z := int32_of (Z.shiftl a k).
Definition shr_unsigned (a k : Z) : Z := Z.shiftr (unum32_of a) k.
Definition shl_unsigned (a k : Z) : Z := unum32_of (Z.shiftl a k).

(** C division and remainder truncate toward zero. *)
Definition div_int (a b : Z) : Z := Z.quot a b.
Definition rem_int (a b : Z) : Z := Z.rem a b.

End MachInt.
Import MachInt.

(** ** Buffers and loops *)

(** The structs [complex8], [complex16] and [complex32] all have the two
    fields [re] and [im]; they differ in the width of the components. *)
Record complex : Type := Cplx { re : Z; im : Z }.

Abbreviation complex8 := complex (only parsing).
Abbreviation complex16 := complex (only parsing).
Abbreviation complex32 := complex (only parsing).

Definition wf_complex16 (c : complex) : Prop := is_int16 (re c) /\ is_int16 (im c).

Definition czero : complex := Cplx 0 0.

Section Buffers.
Context {A : Type}.

(** [p[i]] as an rvalue. *)
Definition rd (d : A) (p : list A) (i : Z) : A :=
  if i <? 0 then d else nth (Z.to_nat i) p d.

(** [p[i] = v].  Outside the buffer the C code has no defined behaviour;
    the model leaves the buffer as it is. *)
Fixpoint upd (p : list A) (n : nat) (v : A) : list A :=
  match p, n with
  | [], _ => []
  | _ :: t, O => v :: t
  | h :: t, S n' => h :: upd t n' v
  end.

Definition wr (p : list A) (i : Z) (v : A) : list A :=
  if i <? 0 then p else upd p (Z.to_nat i) v.
End Buffers.

Section Loops.
Context {St : Type}.

(** [for (i = lo; i < hi; i++) body] with the state threaded through. *)
Fixpoint for_iter (n : nat) (i : Z) (body : Z -> St -> St) (s : St) : St :=
  match n with
  | O => s
  | S n' => for_iter n' (i + 1) body (body i s)
  end.

Definition for_loop (lo hi : Z) (body : Z -> St -> St) (s : St) : St :=
  for_iter (Z.to_nat (hi - lo)) lo body s.

(** [while (cond) body], unrolled at most [fuel] times. *)
Fixpoint while_loop (fuel : nat) (cond : St -> bool) (body : St -> St) (s : St) : St :=
  match fuel with
  | O => s
  | S fuel' => if cond s then while_loop fuel' cond body (body s) else s
  end.
End Loops.

Definition rdZ : list Z -> Z -> Z := rd 0.
Definition rdC : list complex -> Z -> complex := rd czero.

(** A [complex16*] or [complex32*] cast to a pointer to its components:
    component [2*j] is [p[j].re], component [2*j+1] is [p[j].im]. *)
Definition rd_comp (p : list complex) (i : Z) : Z :=
  let c := rdC p (Z.quot i 2) in if Z.even i then re c else im c.

Definition wr_comp (p : list complex) (i : Z) (v : Z) : list complex :=
  let c := rdC p (Z.quot i 2) in
  wr p (Z.quot i 2) (if Z.even i then Cplx v (im c) else Cplx (re c) v).

(** ** 128-bit registers *)

Module SSE.

(** An [__m128i]: four 32-bit words, least significant first, each kept in
    [0, 2^32).  A 16-bit lane is the low or the high half of a word. *)
Record m128i : Type := M128 { w0 : Z; w1 : Z; w2 : Z; w3 : Z }.

Definition lo16 (w : Z) : Z := w mod 65536.
Definition hi16 (w : Z) : Z := (w / 65536) mod 65536.
Definition mk32 (lo hi : Z) : Z := unum16_of lo + 65536 * unum16_of hi.

(** The signed value of the low and of the high 16-bit lane of a word. *)
Definition slo16 (w : Z) : Z := int16_of (lo16 w).
Definition shi16 (w : Z) : Z := int16_of (hi16 w).

Definition lanes (f : Z -> Z) (a : m128i) : m128i :=
  M128 (f (w0 a)) (f (w1 a)) (f (w2 a)) (f (w3 a)).

Definition lanes2 (f : Z -> Z -> Z) (a b : m128i) : m128i :=
  M128 (f (w0 a) (w0 b)) (f (w1 a) (w1 b)) (f (w2 a) (w2 b)) (f (w3 a) (w3 b)).

Definition _mm_set1_epi32 (c : Z) : m128i :=
  M128 (unum32_of c) (unum32_of c) (unum32_of c) (unum32_of c).

Definition _mm_add_epi16 : m128i -> m128i -> m128i :=
  lanes2 (fun x y => mk32 (lo16 x + lo16 y) (hi16 x + hi16 y)).
Definition _mm_sub_epi16 : m128i -> m128i -> m128i :=
  lanes2 (fun x y => mk32 (lo16 x - lo16 y) (hi16 x - hi16 y)).
Definition _mm_add_epi32 : m128i -> m128i -> m128i :=
  lanes2 (fun x y => unum32_of (x + y)).
Definition _mm_sub_epi32 : m128i -> m128i -> m128i :=
  lanes2 (fun x y => unum32_of (x - y)).

Definition _mm_and_si128 : m128i -> m128i -> m128i := lanes2 Z.land.
Definition _mm_or_si128 : m128i -> m128i -> m128i := lanes2 Z.lor.
Definition _mm_xor_si128 : m128i -> m128i -> m128i := lanes2 Z.lxor.
(** [(~a) & b] *)
Definition _mm_andnot_si128 : m128i -> m128i -> m128i :=
  lanes2 (fun x y => Z.land (Z.lxor x 4294967295) y).

(** The shift count of the register shifts: a count above the lane width
    minus one (a negative [int] is such a count once read as unsigned)
    fills an arithmetic right shift with the sign and clears a left shift. *)
Definition in_count (c top : Z) : bool := (0 <=? c) && (c <=? top).

Definition _mm_srai_epi16 (a : m128i) (c : Z) : m128i :=
  let k := if in_count c 15 then c else 15 in
  lanes (fun w => mk32 (Z.shiftr (slo16 w) k) (Z.shiftr (shi16 w) k)) a.
Definition _mm_srai_epi32 (a : m128i) (c : Z) : m128i :=
  let k := if in_count c 31 then c else 31 in
  lanes (fun w => unum32_of (Z.shiftr (int32_of w) k)) a.
Definition _mm_slli_epi16 (a : m128i) (c : Z) : m128i :=
  if in_count c 15
  then lanes (fun w => mk32 (Z.shiftl (lo16 w) c) (Z.shiftl (hi16 w) c)) a
  else M128 0 0 0 0.
Definition _mm_slli_epi32 (a : m128i) (c : Z) : m128i :=
  if in_count c 31
  then lanes (fun w => unum32_of (Z.shiftl w c)) a
  else M128 0 0 0 0.

(** Multiply the signed 16-bit lanes pairwise and add the two products of
    each word into a 32-bit lane. *)
Definition _mm_madd_epi16 : m128i -> m128i -> m128i :=
  lanes2 (fun x y => unum32_of (slo16 x * slo16 y + shi16 x * shi16 y)).

Definition _MM_SHUFFLE (z y x w : Z) : Z := z * 64 + y * 16 + x * 4 + w.

(** Lane [j] of the result is lane [(imm >> 2j) & 3] of the same 64-bit
    half of the source; the other half is copied. *)
Definition shuffle_half (u v imm : Z) : Z * Z :=
  let src := [lo16 u; hi16 u; lo16 v; hi16 v] in
  let sel j := nth (Z.to_nat ((imm / 4 ^ j) mod 4)) src 0 in
  (mk32 (sel 0) (sel 1), mk32 (sel 2) (sel 3)).

Definition _mm_shufflelo_epi16 (a : m128i) (imm : Z) : m128i :=
  let '(u, v) := shuffle_half (w0 a) (w1 a) imm in M128 u v (w2 a) (w3 a).
Definition _mm_shufflehi_epi16 (a : m128i) (imm : Z) : m128i :=
  let '(u, v) := shuffle_half (w2 a) (w3 a) imm in M128 (w0 a) (w1 a) u v.

(** *** Unaligned loads and stores through a pointer cast to [__m128i*] *)

Definition pack_complex16 (c : complex16) : Z := mk32 (re c) (im c).
Definition unpack_complex16 (w : Z) : complex16 := Cplx (slo16 w) (shi16 w).

(** [complex16*]: four elements per register. *)
Definition loadu_complex16 (p : list complex16) (i : Z) : m128i :=
  M128 (pack_complex16 (rdC p (4 * i))) (pack_complex16 (rdC p (4 * i + 1)))
       (pack_complex16 (rdC p (4 * i + 2))) (pack_complex16 (rdC p (4 * i + 3))).
Definition storeu_complex16 (p : list complex16) (i : Z) (v : m128i) : list complex16 :=
  wr (wr (wr (wr p (4 * i) (unpack_complex16 (w0 v)))
                 (4 * i + 1) (unpack_complex16 (w1 v)))
             (4 * i + 2) (unpack_complex16 (w2 v)))
         (4 * i + 3) (unpack_complex16 (w3 v)).

(** [complex32*]: two elements per register. *)
Definition loadu_complex32 (p : list complex32) (i : Z) : m128i :=
  M128 (unum32_of (re (rdC p (2 * i)))) (unum32_of (im (rdC p (2 * i))))
       (unum32_of (re (rdC p (2 * i + 1)))) (unum32_of (im (rdC p (2 * i + 1)))).
Definition storeu_complex32 (p : list complex32) (i : Z) (v : m128i) : list complex32 :=
  wr (wr p (2 * i) (Cplx (int32_of (w0 v)) (int32_of (w1 v))))
         (2 * i + 1) (Cplx (int32_of (w2 v)) (int32_of (w3 v))).

(** [int16*]: eight elements per register. *)
Definition loadu_int16 (p : list Z) (i : Z) : m128i :=
  M128 (mk32 (rdZ p (8 * i)) (rdZ p (8 * i + 1)))
       (mk32 (rdZ p (8 * i + 2)) (rdZ p (8 * i + 3)))
       (mk32 (rdZ p (8 * i + 4)) (rdZ p (8 * i + 5)))
       (mk32 (rdZ p (8 * i + 6)) (rdZ p (8 * i + 7))).
Definition storeu_int16 (p : list Z) (i : Z) (v : m128i) : list Z :=
  wr (wr (wr (wr (wr (wr (wr (wr p
    (8 * i) (slo16 (w0 v))) (8 * i + 1) (shi16 (w0 v)))
    (8 * i + 2) (slo16 (w1 v))) (8 * i + 3) (shi16 (w1 v)))
    (8 * i + 4) (slo16 (w2 v))) (8 * i + 5) (shi16 (w2 v)))
    (8 * i + 6) (slo16 (w3 v))) (8 * i + 7) (shi16 (w3 v)).

(** [int32*]: four elements per register. *)
Definition loadu_int32 (p : list Z) (i : Z) : m128i :=
  M128 (unum32_of (rdZ p (4 * i))) (unum32_of (rdZ p (4 * i + 1)))
       (unum32_of (rdZ p (4 * i + 2))) (unum32_of (rdZ p (4 * i + 3))).
Definition storeu_int32 (p : list Z) (i : Z) (v : m128i) : list Z :=
  wr (wr (wr (wr p (4 * i) (int32_of (w0 v))) (4 * i + 1) (int32_of (w1 v)))
             (4 * i + 2) (int32_of (w2 v))) (4 * i + 3) (int32_of (w3 v)).

End SSE.
Import SSE.

(** Assignment to one field of [p[i]]. *)
Definition set_re (p : list complex) (i : Z) (v : Z) : list complex :=
  wr p i (Cplx v (im (rdC p i))).
Definition set_im (p : list complex) (i : Z) (v : Z) : list complex :=
  wr p i (Cplx (re (rdC p i)) v).

(** ** Elementwise addition: [c = a + b] *)

Definition __ext_v_add_complex16 (c : list complex16) (len : Z) (a : list complex16)
    (__unused_2 : Z) (b : list complex16) (__unused_1 : Z) : list complex16 * Z :=
  let wlen := 4 in
  let c := for_loop 0 (div_int len wlen) (fun i c =>
             let ma := loadu_complex16 a i in
             let mb := loadu_complex16 b i in
             storeu_complex16 c i (_mm_add_epi16 ma mb)) c in
  let c := for_loop (div_int len wlen * wlen) len (fun i c =>
             let c := set_re c i (int16_of (add_int (re (rdC a i)) (re (rdC b i)))) in
             set_im c i (int16_of (add_int (im (rdC a i)) (im (rdC b i))))) c in
  (c, 0).

Definition __ext_v_add_complex32 (c : list complex32) (len : Z) (a : list complex32)
    (__unused_2 : Z) (b : list complex32) (__unused_1 : Z) : list complex32 * Z :=
  let wlen := 2 in
  let c := for_loop 0 (div_int len wlen) (fun i c =>
             let ma := loadu_complex32 a i in
             let mb := loadu_complex32 b i in
             storeu_complex32 c i (_mm_add_epi32 ma mb)) c in
  let c := for_loop (div_int len wlen * wlen) len (fun i c =>
             let c := set_re c i (add_int (re (rdC a i)) (re (rdC b i))) in
             set_im c i (add_int (im (rdC a i)) (im (rdC b i)))) c in
  (c, 0).

Definition __ext_v_add_int16 (c : list Z) (len : Z) (a : list Z)
    (__unused_2 : Z) (b : list Z) (__unused_1 : Z) : list Z * Z :=
  let wlen := 8 in
  let c := for_loop 0 (div_int len wlen) (fun i c =>
             let ma := loadu_int16 a i in
             let mb := loadu_int16 b i in
             storeu_int16 c i (_mm_add_epi16 ma mb)) c in
  let c := for_loop (div_int len wlen * wlen) len (fun i c =>
             wr c i (int16_of (add_int (rdZ a i) (rdZ b i)))) c in
  (c, 0).

Definition __ext_v_add_int32 (c : list Z) (len : Z) (a : list Z)
    (__unused_2 : Z) (b : list Z) (__unused_1 : Z) : list Z * Z :=
  let wlen := 4 in
  let c := for_loop 0 (div_int len wlen) (fun i c =>
             let ma := loadu_int32 a i in
             let mb := loadu_int32 b i in
             storeu_int32 c i (_mm_add_epi32 ma mb)) c in
  let c := for_loop (div_int len wlen * wlen) len (fun i c =>
             wr c i (add_int (rdZ a i) (rdZ b i))) c in
  (c, 0).

(** ** Elementwise subtraction: [c = a - b] *)

Definition __ext_v_sub_complex16 (c : list complex16) (len : Z) (a : list complex16)
    (__unused_2 : Z) (b : list complex16) (__unused_1 : Z) : list complex16 * Z :=
  let wlen := 4 in
  let c := for_loop 0 (div_int len wlen) (fun i c =>
             let ma := loadu_complex16 a i in
             let mb := loadu_complex16 b i in
             storeu_complex16 c i (_mm_sub_epi16 ma mb)) c in
  let c := for_loop (div_int len wlen * wlen) len (fun i c =>
             let c := set_re c i (int16_of (sub_int (re (rdC a i)) (re (rdC b i)))) in
             set_im c i (int16_of (sub_int (im (rdC a i)) (im (rdC b i))))) c in
  (c, 0).

Definition __ext_v_sub_complex32 (c : list complex32) (len : Z) (a : list complex32)
    (__unused_2 : Z) (b : list complex32) (__unused_1 : Z) : list complex32 * Z :=
  let wlen := 2 in
  let c := for_loop 0 (div_int len wlen) (fun i c =>
             let ma := loadu_complex32 a i in
             let mb := loadu_complex32 b i in
             storeu_complex32 c i (_mm_sub_epi32 ma mb)) c in
  let c := for_loop (div_int len wlen * wlen) len (fun i c =>
             let c := set_re c i (sub_int (re (rdC a i)) (re (rdC b i))) in
             set_im c i (sub_int (im (rdC a i)) (im (rdC b i)))) c in
  (c, 0).

Definition __ext_v_sub_int16 (c : list Z) (len : Z) (a : list Z)
    (__unused_2 : Z) (b : list Z) (__unused_1 : Z) : list Z * Z :=
  let wlen := 8 in
  let c := for_loop 0 (div_int len wlen) (fun i c =>
             let ma := loadu_int16 a i in
             let mb := loadu_int16 b i in
             storeu_int16 c i (_mm_sub_epi16 ma mb)) c in
  let c := for_loop (div_int len wlen * wlen) len (fun i c =>
             wr c i (int16_of (sub_int (rdZ a i) (rdZ b i)))) c in
  (c, 0).

Definition __ext_v_sub_int32 (c : list Z) (len : Z) (a : list Z)
    (__unused_2 : Z) (b : list Z) (__unused_1 : Z) : list Z * Z :=
  let wlen := 4 in
  let c := for_loop 0 (div_int len wlen) (fun i c =>
             let ma := loadu_int32 a i in
             let mb := loadu_int32 b i in
             storeu_int32 c i (_mm_sub_epi32 ma mb)) c in
  let c := for_loop (div_int len wlen * wlen) len (fun i c =>
             wr c i (sub_int (rdZ a i) (rdZ b i))) c in
  (c, 0).

(** ** Horizontal reductions *)

(** [z(i) = sum(x)] for all four [i]. *)
Definition __ext_v_hadd_complex16 (z : list complex16) (__unused_2 : Z)
    (x : list complex16) (__unused_1 : Z) : list complex16 * Z :=
  let re_ := int16_of (add_int (add_int (add_int (re (rdC x 0)) (re (rdC x 1)))
                                        (re (rdC x 2))) (re (rdC x 3))) in
  let im_ := int16_of (add_int (add_int (add_int (im (rdC x 0)) (im (rdC x 1)))
                                        (im (rdC x 2))) (im (rdC x 3))) in
  let z := for_loop 0 4 (fun i z => set_im (set_re z i re_) i im_) z in
  (z, 0).

Definition __ext_v_hadd_int32 (z : list Z) (__unused_21 : Z)
    (x : list Z) (__unused_20 : Z) : list Z * Z :=
  let z := wr z 0 (add_int (add_int (add_int (rdZ x 0) (rdZ x 1)) (rdZ x 2)) (rdZ x 3)) in
  let z := for_loop 1 4 (fun i z => wr z i (rdZ z 0)) z in
  (z, 0).

Definition __ext_v_sum_complex16 (x : list complex16) (len : Z) : complex16 :=
  let ret := Cplx 0 0 in
  for_loop 0 len (fun i ret =>
    let ret := Cplx (int16_of (add_int (re ret) (re (rdC x i)))) (im ret) in
    Cplx (re ret) (int16_of (add_int (im ret) (im (rdC x i))))) ret.

Definition __ext_v_sum_complex32 (x : list complex32) (len : Z) : complex32 :=
  let ret := Cplx 0 0 in
  for_loop 0 len (fun i ret =>
    let ret := Cplx (add_int (re ret) (re (rdC x i))) (im ret) in
    Cplx (re ret) (add_int (im ret) (im (rdC x i)))) ret.

(** The loop counter of the two scalar sums is an [unsigned int], so [len]
    is converted to unsigned in the comparison. *)
Definition __ext_v_sum_int16 (x : list Z) (len : Z) : Z :=
  let sum := 0 in
  for_loop 0 (unum32_of len) (fun i sum => int16_of (add_int sum (rdZ x i))) sum.

Definition __ext_v_sum_int32 (x : list Z) (len : Z) : Z :=
  let sum := 0 in
  for_loop 0 (unum32_of len) (fun i sum => add_int sum (rdZ x i)) sum.

(** ** Shifts *)

(** The remainder loops of the two complex right shifts go through a
    pointer to the unsigned components ([unum32*], [unum16*]). *)
Definition __ext_v_shift_right_complex32 (z : list complex32) (__unused_3 : Z)
    (x : list complex32) (len : Z) (shift : Z) : list complex32 * Z :=
  let wlen := 2 in
  let z := for_loop 0 (div_int len wlen) (fun i z =>
             storeu_complex32 z i (_mm_srai_epi32 (loadu_complex32 x i) shift)) z in
  let z := for_loop (div_int len wlen * wlen * 2) (len * 2) (fun i z =>
             wr_comp z i (int32_of (shr_unsigned (rd_comp x i) shift))) z in
  (z, 0).

Definition __ext_v_shift_left_complex32 (z : list complex32) (__unused_3 : Z)
    (x : list complex32) (len : Z) (shift : Z) : list complex32 * Z :=
  let wlen := 2 in
  let z := for_loop 0 (div_int len wlen) (fun i z =>
             storeu_complex32 z i (_mm_slli_epi32 (loadu_complex32 x i) shift)) z in
  let z := for_loop (div_int len wlen * wlen * 2) (len * 2) (fun i z =>
             wr_comp z i (int32_of (shl_unsigned (unum32_of (rd_comp x i)) shift))) z in
  (z, 0).

Definition __ext_v_shift_right_complex16 (z : list complex16) (__unused_3 : Z)
    (x : list complex16) (len : Z) (shift : Z) : list complex16 * Z :=
  let wlen := 4 in
  let z := for_loop 0 (div_int len wlen) (fun i z =>
             storeu_complex16 z i (_mm_srai_epi16 (loadu_complex16 x i) shift)) z in
  let z := for_loop (div_int len wlen * wlen * 2) (len * 2) (fun i z =>
             wr_comp z i (int16_of (unum16_of (shr_int (unum16_of (rd_comp x i)) shift)))) z in
  (z, 0).

Definition __ext_v_shift_left_complex16 (z : list complex16) (__unused_3 : Z)
    (x : list complex16) (len : Z) (shift : Z) : list complex16 * Z :=
  let wlen := 4 in
  let z := for_loop 0 (div_int len wlen) (fun i z =>
             storeu_complex16 z i (_mm_slli_epi16 (loadu_complex16 x i) shift)) z in
  let z := for_loop (div_int len wlen * wlen * 2) (len * 2) (fun i z =>
             wr_comp z i (int16_of (unum16_of (shl_int (unum16_of (rd_comp x i)) shift)))) z in
  (z, 0).

Definition __ext_v_shift_right_int32 (z : list Z) (__unused_3 : Z)
    (x : list Z) (len : Z) (shift : Z) : list Z * Z :=
  let wlen := 4 in
  let z := for_loop 0 (div_int len wlen) (fun i z =>
             storeu_int32 z i (_mm_srai_epi32 (loadu_int32 x i) shift)) z in
  let z := for_loop (div_int len wlen * wlen) len (fun i z =>
             wr z i (shr_int (rdZ x i) shift)) z in
  (z, 0).

Definition __ext_v_shift_left_int32 (z : list Z) (__unused_3 : Z)
    (x : list Z) (len : Z) (shift : Z) : list Z * Z :=
  let wlen := 4 in
  let z := for_loop 0 (div_int len wlen) (fun i z =>
             storeu_int32 z i (_mm_slli_epi32 (loadu_int32 x i) shift)) z in
  let z := for_loop (div_int len wlen * wlen) len (fun i z =>
             wr z i (shl_int (rdZ x i) shift)) z in
  (z, 0).

Definition __ext_v_shift_right_int16 (z : list Z) (__unused_3 : Z)
    (x : list Z) (len : Z) (shift : Z) : list Z * Z :=
  let wlen := 8 in
  let z := for_loop 0 (div_int len wlen) (fun i z =>
             storeu_int16 z i (_mm_srai_epi16 (loadu_int16 x i) shift)) z in
  let z := for_loop (div_int len wlen * wlen) len (fun i z =>
             wr z i (int16_of (shr_int (rdZ x i) shift))) z in
  (z, 0).

Definition __ext_v_shift_left_int16 (z : list Z) (__unused_3 : Z)
    (x : list Z) (len : Z) (shift : Z) : list Z * Z :=
  let wlen := 8 in
  let z := for_loop 0 (div_int len wlen) (fun i z =>
             storeu_int16 z i (_mm_slli_epi16 (loadu_int16 x i) shift)) z in
  let z := for_loop (div_int len wlen * wlen) len (fun i z =>
             wr z i (int16_of (shl_int (rdZ x i) shift))) z in
  (z, 0).

(** ** Complex multiplication with rescaling *)

Definition __ext_v_mul_complex16 (out : list complex16) (lenout : Z)
    (x : list complex16) (len1 : Z) (y : list complex16) (len2 : Z)
    (shift : Z) : list complex16 * Z :=
  let wlen := 4 in
  let xmm6 := _mm_set1_epi32 0x0000FFFF in
  let xmm5 := _mm_set1_epi32 0xFFFF0000 in
  let xmm4 := _mm_set1_epi32 0x00010000 in
  let out := for_loop 0 (div_int len1 wlen) (fun i out =>
    let mx := loadu_complex16 x i in
    let my := loadu_complex16 y i in
    let ms1 := _mm_xor_si128 mx xmm5 in
    let ms1 := _mm_add_epi32 ms1 xmm4 in
    let ms2 := _mm_shufflehi_epi16 mx (_MM_SHUFFLE 2 3 0 1) in
    let ms2 := _mm_shufflelo_epi16 ms2 (_MM_SHUFFLE 2 3 0 1) in
    let mre := _mm_srai_epi32 (_mm_madd_epi16 ms1 my) shift in
    let mim := _mm_srai_epi32 (_mm_madd_epi16 ms2 my) shift in
    let mre := _mm_and_si128 mre xmm6 in
    let mim := _mm_and_si128 mim xmm6 in
    let mim := _mm_slli_epi32 mim 0x10 in
    storeu_complex16 out i (_mm_or_si128 mre mim)) out in
  let out := for_loop (div_int len1 wlen * wlen) len1 (fun i out =>
    let out := set_re out i (int16_of (shr_int
        (sub_int (mul_int (re (rdC x i)) (re (rdC y i)))
                 (mul_int (im (rdC x i)) (im (rdC y i)))) shift)) in
    set_im out i (int16_of (shr_int
        (add_int (mul_int (re (rdC x i)) (im (rdC y i)))
                 (mul_int (im (rdC x i)) (re (rdC y i)))) shift))) out in
  (out, 0).

(** Conjugate multiplication returning the real and the imaginary parts
    as two buffers of 32-bit integers. *)
Definition __ext_v_conj_mul_complex16_int32 (re_ : list Z) (lenout1 : Z)
    (im_ : list Z) (lenout2 : Z) (x : list complex16) (len1 : Z)
    (y : list complex16) (len2 : Z) : list Z * list Z * Z :=
  let wlen := 4 in
  let xmm5 := _mm_set1_epi32 0xFFFF0000 in
  let xmm4 := _mm_set1_epi32 0x00010000 in
  let '(re_, im_) := for_loop 0 (div_int len1 wlen) (fun i '(re_, im_) =>
    let mx := loadu_complex16 x i in
    let my := loadu_complex16 y i in
    let ms2 := _mm_xor_si128 my xmm5 in
    let ms2 := _mm_add_epi32 ms2 xmm4 in
    let ms2 := _mm_shufflehi_epi16 ms2 (_MM_SHUFFLE 2 3 0 1) in
    let ms2 := _mm_shufflelo_epi16 ms2 (_MM_SHUFFLE 2 3 0 1) in
    let re_ := storeu_int32 re_ i (_mm_madd_epi16 my mx) in
    let im_ := storeu_int32 im_ i (_mm_madd_epi16 ms2 mx) in
    (re_, im_)) (re_, im_) in
  let '(re_, im_) := for_loop (div_int len1 wlen * wlen) len1 (fun i '(re_, im_) =>
    let re_ := wr re_ i (add_int (mul_int (re (rdC x i)) (re (rdC y i)))
                                 (mul_int (im (rdC x i)) (im (rdC y i)))) in
    let im_ := wr im_ i (sub_int (mul_int (im (rdC x i)) (re (rdC y i)))
                                 (mul_int (re (rdC x i)) (im (rdC y i)))) in
    (re_, im_)) (re_, im_) in
  (re_, im_, 0).

(** [re + j * im = a * conj(b)] *)
Definition __ext_v_conj_mul_complex16 (out : list complex16) (lenout : Z)
    (x : list complex16) (len1 : Z) (y : list complex16) (len2 : Z)
    (shift : Z) : list complex16 * Z :=
  let wlen := 4 in
  let xmm6 := _mm_set1_epi32 0x0000FFFF in
  let xmm5 := _mm_set1_epi32 0xFFFF0000 in
  let xmm4 := _mm_set1_epi32 0x00010000 in
  let out := for_loop 0 (div_int len1 wlen) (fun i out =>
    let mx := loadu_complex16 x i in
    let my := loadu_complex16 y i in
    let ms2 := _mm_xor_si128 my xmm5 in
    let ms2 := _mm_add_epi32 ms2 xmm4 in
    let ms2 := _mm_shufflehi_epi16 ms2 (_MM_SHUFFLE 2 3 0 1) in
    let ms2 := _mm_shufflelo_epi16 ms2 (_MM_SHUFFLE 2 3 0 1) in
    let mre := _mm_srai_epi32 (_mm_madd_epi16 my mx) shift in
    let mim := _mm_srai_epi32 (_mm_madd_epi16 ms2 mx) shift in
    let mre := _mm_and_si128 mre xmm6 in
    let mim := _mm_and_si128 mim xmm6 in
    let mim := _mm_slli_epi32 mim 0x10 in
    storeu_complex16 out i (_mm_or_si128 mre mim)) out in
  let out := for_loop (div_int len1 wlen * wlen) len1 (fun i out =>
    let out := set_re out i (int16_of (shr_int
        (add_int (mul_int (re (rdC x i)) (re (rdC y i)))
                 (mul_int (im (rdC x i)) (im (rdC y i)))) shift)) in
    set_im out i (int16_of (shr_int
        (sub_int (mul_int (im (rdC x i)) (re (rdC y i)))
                 (mul_int (re (rdC x i)) (im (rdC y i)))) shift))) out in
  (out, 0).

(** ** Narrowing to [complex8] *)

Definition sat8 (v : Z) : Z :=
  if v <? -128 then -128 else if 127 <? v then 127 else v.

Definition mk_bytes (b0 b1 b2 b3 : Z) : Z :=
  unum8_of b0 + 256 * unum8_of b1 + 65536 * unum8_of b2 + 16777216 * unum8_of b3.

Definition byte_of (w k : Z) : Z := (w / 256 ^ k) mod 256.

(** Modelled from the spec: [saturated_pack] of the Sora SDK header
    [vector128.h], which is not among the sources; the saturating
    narrowing of the sixteen 16-bit lanes of two registers to the sixteen
    signed 8-bit lanes of one (first operand in the low half). *)
Definition saturated_pack (a b : m128i) : m128i :=
  let pk u v := mk_bytes (sat8 (slo16 u)) (sat8 (shi16 u)) (sat8 (slo16 v)) (sat8 (shi16 v)) in
  M128 (pk (w0 a) (w1 a)) (pk (w2 a) (w3 a)) (pk (w0 b) (w1 b)) (pk (w2 b) (w3 b)).

(** Store through a [vcb*] into a [complex8] buffer: eight elements per
    register, two per word. *)
Definition store_vcb (p : list complex8) (i : Z) (v : m128i) : list complex8 :=
  let lo w := Cplx (int8_of (byte_of w 0)) (int8_of (byte_of w 1)) in
  let hi w := Cplx (int8_of (byte_of w 2)) (int8_of (byte_of w 3)) in
  wr (wr (wr (wr (wr (wr (wr (wr p
    (8 * i) (lo (w0 v))) (8 * i + 1) (hi (w0 v)))
    (8 * i + 2) (lo (w1 v))) (8 * i + 3) (hi (w1 v)))
    (8 * i + 4) (lo (w2 v))) (8 * i + 5) (hi (w2 v)))
    (8 * i + 6) (lo (w3 v))) (8 * i + 7) (hi (w3 v)).

(** [vcs] and [vcb] are the 128-bit registers of the Sora SDK seen as
    four [complex16] and as eight [complex8], so [wlen], which is
    [sizeof(vcs) / sizeof(complex16)], is four.  The counter [i] of the
    first loop is in scope after it and starts the second. *)
Definition __ext_v_pack_complex16_complex8 (output : list complex8) (lenout : Z)
    (input : list complex16) (lenin : Z) : list complex8 :=
  let wlen := 4 in
  let n := div_int (div_int lenin wlen) 2 in
  let output := for_loop 0 n (fun i output =>
    store_vcb output i
      (saturated_pack (loadu_complex16 input (2 * i)) (loadu_complex16 input (2 * i + 1))))
    output in
  let i := Z.max 0 n in
  for_loop (i * 2 * wlen) lenin (fun j output =>
    let output := set_re output j (int8_of (re (rdC input j))) in
    set_im output j (int8_of (im (rdC input j)))) output.

(** ** Sums of four elements *)

Definition __ext_sumc32 (x : list complex32) (__unused_20 : Z) : complex32 :=
  let re_ := add_int (add_int (add_int (re (rdC x 0)) (re (rdC x 1)))
                              (re (rdC x 2))) (re (rdC x 3)) in
  let im_ := add_int (add_int (add_int (im (rdC x 0)) (im (rdC x 1)))
                              (im (rdC x 2))) (im (rdC x 3)) in
  Cplx re_ im_.

Definition __ext_sumc16 (x : list complex16) (__unused_20 : Z) : complex16 :=
  let re_ := int16_of (add_int (add_int (add_int (re (rdC x 0)) (re (rdC x 1)))
                                        (re (rdC x 2))) (re (rdC x 3))) in
  let im_ := int16_of (add_int (add_int (add_int (im (rdC x 0)) (im (rdC x 1)))
                                        (im (rdC x 2))) (im (rdC x 3))) in
  Cplx re_ im_.

(** The accumulator is declared [int16]; the function returns [int32]. *)
Definition __ext_sumi32 (x : list Z) (__unused_21 : Z) : Z :=
  let ret := 0 in
  for_loop 0 4 (fun i ret => int16_of (add_int ret (rdZ x i))) ret.

Definition __ext_sumi16 (x : list Z) (__unused_21 : Z) : Z :=
  let ret := 0 in
  for_loop 0 4 (fun i ret => int16_of (add_int ret (rdZ x i))) ret.

(** ** Bitwise logic on bit arrays *)

Module Bytes.

(** Little-endian loads and stores of [n] bytes of an [unsigned char]
    buffer through a pointer cast to a wider unsigned type. *)
Fixpoint uint_of_bytes (l : list Z) : Z :=
  match l with
  | [] => 0
  | b :: t => Z.lor b (Z.shiftl (uint_of_bytes t) 8)
  end.

Fixpoint bytes_of_uint (n : nat) (v : Z) : list Z :=
  match n with
  | O => []
  | S n' => Z.land v 255 :: bytes_of_uint n' (Z.shiftr v 8)
  end.

Definition load_uint (n : nat) (p : list Z) (off : Z) : Z :=
  uint_of_bytes (map (fun k => rdZ p (off + Z.of_nat k)) (seq 0 n)).

Fixpoint store_bytes (p : list Z) (off : Z) (bs : list Z) : list Z :=
  match bs with
  | [] => p
  | b :: t => store_bytes (wr p off b) (off + 1) t
  end.

Definition store_uint (n : nat) (p : list Z) (off : Z) (v : Z) : list Z :=
  store_bytes p off (bytes_of_uint n v).

(** A register loaded from, and stored to, byte offset [cnt]. *)
Definition loadu_bytes (p : list Z) (cnt : Z) : m128i :=
  M128 (load_uint 4 p cnt) (load_uint 4 p (cnt + 4))
       (load_uint 4 p (cnt + 8)) (load_uint 4 p (cnt + 12)).

Definition storeu_bytes (p : list Z) (cnt : Z) (v : m128i) : list Z :=
  store_uint 4 (store_uint 4 (store_uint 4 (store_uint 4 p cnt (w0 v))
    (cnt + 4) (w1 v)) (cnt + 8) (w2 v)) (cnt + 12) (w3 v).

End Bytes.
Import Bytes.

(** [inlen1 / 8 + ((inlen1 % 8) > 0)] *)
Definition bytelen (inlen1 : Z) : Z :=
  add_int (div_int inlen1 8) (if 0 <? rem_int inlen1 8 then 1 else 0).

(** The generic kernels: a loop over 16-byte blocks, then a loop over the
    bytes left.  Either loop runs fewer than [bytelen1 + 1] times. *)
Definition bitwise_kernel (vop : m128i -> m128i -> m128i) (sop : Z -> Z -> Z)
    (output : list Z) (input1 : list Z) (inlen1 : Z) (input2 : list Z) : Z * list Z :=
  let cnt := 0 in
  let bytelen1 := bytelen inlen1 in
  let fuel := Z.to_nat (bytelen1 + 1) in
  let s := while_loop fuel (fun '(cnt, _) => cnt + 16 <=? bytelen1)
    (fun '(cnt, output) =>
       let mi1 := loadu_bytes input1 cnt in
       let mi2 := loadu_bytes input2 cnt in
       (cnt + 16, storeu_bytes output cnt (vop mi1 mi2))) (cnt, output) in
  while_loop fuel (fun '(cnt, _) => cnt <? bytelen1)
    (fun '(cnt, output) => (cnt + 1, wr output cnt (sop (rdZ input1 cnt) (rdZ input2 cnt)))) s.

Definition __ext_v_and (output : list Z) (outlen : Z) (input1 : list Z) (inlen1 : Z)
    (input2 : list Z) (inlen2 : Z) : list Z :=
  let '(cnt, output) := bitwise_kernel _mm_and_si128 Z.land output input1 inlen1 input2 in
  let outlen := inlen1 in
  output.

Definition __ext_v_andnot (output : list Z) (outlen : Z) (input1 : list Z) (inlen1 : Z)
    (input2 : list Z) (inlen2 : Z) : list Z :=
  let '(cnt, output) :=
    bitwise_kernel _mm_andnot_si128 (fun a b => unum8_of (Z.land (Z.lnot a) b))
                   output input1 inlen1 input2 in
  let outlen := inlen1 in
  output.

Definition __ext_v_xor (output : list Z) (outlen : Z) (input1 : list Z) (inlen1 : Z)
    (input2 : list Z) (inlen2 : Z) : list Z :=
  let '(cnt, output) := bitwise_kernel _mm_xor_si128 Z.lxor output input1 inlen1 input2 in
  let outlen := inlen1 in
  output.

(** Specialised versions for one-byte arrays. *)
Definition __ext_v_and8 (output : list Z) (outlen : Z) (input1 : list Z) (inlen1 : Z)
    (input2 : list Z) (inlen2 : Z) : list Z :=
  wr output 0 (Z.land (rdZ input1 0) (rdZ input2 0)).

Definition __ext_v_xor8 (output : list Z) (outlen : Z) (input1 : list Z) (inlen1 : Z)
    (input2 : list Z) (inlen2 : Z) : list Z :=
  wr output 0 (Z.lxor (rdZ input1 0) (rdZ input2 0)).

Definition __ext_v_andnot8 (output : list Z) (outlen : Z) (input1 : list Z) (inlen1 : Z)
    (input2 : list Z) (inlen2 : Z) : list Z :=
  wr output 0 (unum8_of (Z.land (Z.lnot (rdZ input1 0)) (rdZ input2 0))).

Definition __ext_v_or8 (output : list Z) (outlen : Z) (input1 : list Z) (inlen1 : Z)
    (input2 : list Z) (inlen2 : Z) : list Z :=
  wr output 0 (Z.lor (rdZ input1 0) (rdZ input2 0)).

(** *** OR: fixed-width fast paths and the dispatcher

    The fast paths take the three buffers at a byte offset, so that
    [__ext_v_or_288] can hand [output + 24] to [__ext_v_or_96]. *)

Definition __ext_v_or_48 (output : list Z) (input1 input2 : list Z) (off : Z) : list Z :=
  let i1 := load_uint 4 input1 off in
  let i2 := load_uint 4 input2 off in
  let output := store_uint 4 output off (Z.lor i1 i2) in
  let j1 := load_uint 2 input1 (off + 4) in
  let j2 := load_uint 2 input2 (off + 4) in
  store_uint 2 output (off + 4) (Z.lor j1 j2).

Definition __ext_v_or_96 (output : list Z) (input1 input2 : list Z) (off : Z) : list Z :=
  let i1 := load_uint 8 input1 off in
  let i2 := load_uint 8 input2 off in
  let output := store_uint 8 output off (Z.lor i1 i2) in
  let j1 := load_uint 4 input1 (off + 8) in
  let j2 := load_uint 4 input2 (off + 8) in
  store_uint 4 output (off + 8) (Z.lor j1 j2).

Definition __ext_v_or_192 (output : list Z) (input1 input2 : list Z) (off : Z) : list Z :=
  let i1 := load_uint 8 input1 off in
  let i2 := load_uint 8 input2 off in
  let output := store_uint 8 output off (Z.lor i1 i2) in
  let i1 := load_uint 8 input1 (off + 8) in
  let i2 := load_uint 8 input2 (off + 8) in
  let output := store_uint 8 output (off + 8) (Z.lor i1 i2) in
  let i1 := load_uint 8 input1 (off + 16) in
  let i2 := load_uint 8 input2 (off + 16) in
  store_uint 8 output (off + 16) (Z.lor i1 i2).

Definition __ext_v_or_288 (output : list Z) (input1 input2 : list Z) (off : Z) : list Z :=
  let output := __ext_v_or_192 output input1 input2 off in
  __ext_v_or_96 output input1 input2 (off + 24).

(** The byte loop of the [default] label. *)
Definition or_byte_loop (output : list Z) (input1 : list Z) (inlen1 : Z)
    (input2 : list Z) : list Z :=
  for_loop 0 (div_int (add_int inlen1 7) 8) (fun cnt output =>
    wr output cnt (Z.lor (rdZ input1 cnt) (rdZ input2 cnt))) output.

Definition __ext_v_or (output : list Z) (outlen : Z) (input1 : list Z) (inlen1 : Z)
    (input2 : list Z) (inlen2 : Z) : list Z :=
  match inlen1 with
  | 48 => __ext_v_or_48 output input1 input2 0
  | 96 => __ext_v_or_96 output input1 input2 0
  | 192 => __ext_v_or_192 output input1 input2 0
  | 288 => __ext_v_or_288 output input1 input2 0
  | _ => or_byte_loop output input1 inlen1 input2
  end.

(** ** FFT and IFFT dispatch *)

(** What the dispatchers print on the console. *)
Inductive console_line : Type :=
| fft_size_not_supported (nFFTSize : Z)
| ifft_size_not_supported (nFFTSize : Z).

Section Transforms.

(** The fixed-size transforms [FFTSafe<N>] and [IFFTSafe<N>] of
    [sora_ext_lib_fft.hpp], which is not among the sources: given [N], the
    input and the output buffer, the output buffer they leave behind. *)
Variable FFTSafe : Z -> list complex16 -> list complex16 -> list complex16.
Variable IFFTSafe : Z -> list complex16 -> list complex16 -> list complex16.

(** The result is the output buffer and the console. *)
Definition __ext_sora_fft (output : list complex16) (nFFTSize : Z)
    (input : list complex16) (unused1 : Z) (console : list console_line)
    : list complex16 * list console_line :=
  let in_ := input in
  let out := output in
  match nFFTSize with
  | 16 => (FFTSafe 16 in_ out, console)
  | 32 => (FFTSafe 32 in_ out, console)
  | 64 => (FFTSafe 64 in_ out, console)
  | 128 => (FFTSafe 128 in_ out, console)
  | 256 => (FFTSafe 256 in_ out, console)
  | 512 => (FFTSafe 512 in_ out, console)
  | 1024 => (FFTSafe 1024 in_ out, console)
  | 2048 => (FFTSafe 2048 in_ out, console)
  | 12 => (FFTSafe 12 in_ out, console)
  | 24 => (FFTSafe 24 in_ out, console)
  | 36 => (FFTSafe 36 in_ out, console)
  | 48 => (FFTSafe 48 in_ out, console)
  | 60 => (FFTSafe 60 in_ out, console)
  | 72 => (FFTSafe 72 in_ out, console)
  | 96 => (FFTSafe 96 in_ out, console)
  | 108 => (FFTSafe 108 in_ out, console)
  | 120 => (FFTSafe 120 in_ out, console)
  | 144 => (FFTSafe 144 in_ out, console)
  | 180 => (FFTSafe 180 in_ out, console)
  | 192 => (FFTSafe 192 in_ out, console)
  | 216 => (FFTSafe 216 in_ out, console)
  | 240 => (FFTSafe 240 in_ out, console)
  | 288 => (FFTSafe 288 in_ out, console)
  | 300 => (FFTSafe 300 in_ out, console)
  | 324 => (FFTSafe 324 in_ out, console)
  | 360 => (FFTSafe 360 in_ out, console)
  | 384 => (FFTSafe 384 in_ out, console)
  | 432 => (FFTSafe 432 in_ out, console)
  | 480 => (FFTSafe 480 in_ out, console)
  | 540 => (FFTSafe 540 in_ out, console)
  | 576 => (FFTSafe 576 in_ out, console)
  | 600 => (FFTSafe 600 in_ out, console)
  | 648 => (FFTSafe 648 in_ out, console)
  | 720 => (FFTSafe 720 in_ out, console)
  | 768 => (FFTSafe 768 in_ out, console)
  | 864 => (FFTSafe 864 in_ out, console)
  | 900 => (FFTSafe 900 in_ out, console)
  | 960 => (FFTSafe 960 in_ out, console)
  | 972 => (FFTSafe 972 in_ out, console)
  | 1080 => (FFTSafe 1080 in_ out, console)
  | 1152 => (FFTSafe 1152 in_ out, console)
  | 1200 => (FFTSafe 1200 in_ out, console)
  | _ => (out, console ++ [fft_size_not_supported nFFTSize])
  end.

Definition __ext_sora_fft_dynamic (output : list complex16) (unused2 : Z)
    (nFFTSize : Z) (input : list complex16) (unused1 : Z)
    (console : list console_line) : list complex16 * list console_line :=
  __ext_sora_fft output nFFTSize input unused1 console.

Definition __ext_sora_ifft (output : list complex16) (nFFTSize : Z)
    (input : list complex16) (unused1 : Z) (console : list console_line)
    : list complex16 * list console_line :=
  let in_ := input in
  let out := output in
  match nFFTSize with
  | 16 => (IFFTSafe 16 in_ out, console)
  | 32 => (IFFTSafe 32 in_ out, console)
  | 64 => (IFFTSafe 64 in_ out, console)
  | 128 => (IFFTSafe 128 in_ out, console)
  | 256 => (IFFTSafe 256 in_ out, console)
  | 512 => (IFFTSafe 512 in_ out, console)
  | 1024 => (IFFTSafe 1024 in_ out, console)
  | 2048 => (IFFTSafe 2048 in_ out, console)
  | 12 => (IFFTSafe 12 in_ out, console)
  | 24 => (IFFTSafe 24 in_ out, console)
  | 36 => (IFFTSafe 36 in_ out, console)
  | 48 => (IFFTSafe 48 in_ out, console)
  | 60 => (IFFTSafe 60 in_ out, console)
  | 72 => (IFFTSafe 72 in_ out, console)
  | 96 => (IFFTSafe 96 in_ out, console)
  | 108 => (IFFTSafe 108 in_ out, console)
  | 120 => (IFFTSafe 120 in_ out, console)
  | 144 => (IFFTSafe 144 in_ out, console)
  | 180 => (IFFTSafe 180 in_ out, console)
  | 192 => (IFFTSafe 192 in_ out, console)
  | 216 => (IFFTSafe 216 in_ out, console)
  | 240 => (IFFTSafe 240 in_ out, console)
  | 288 => (IFFTSafe 288 in_ out, console)
  | 300 => (IFFTSafe 300 in_ out, console)
  | 324 => (IFFTSafe 324 in_ out, console)
  | 360 => (IFFTSafe 360 in_ out, console)
  | 384 => (IFFTSafe 384 in_ out, console)
  | 432 => (IFFTSafe 432 in_ out, console)
  | 480 => (IFFTSafe 480 in_ out, console)
  | 540 => (IFFTSafe 540 in_ out, console)
  | 576 => (IFFTSafe 576 in_ out, console)
  | 600 => (IFFTSafe 600 in_ out, console)
  | 648 => (IFFTSafe 648 in_ out, console)
  | 720 => (IFFTSafe 720 in_ out, console)
  | 768 => (IFFTSafe 768 in_ out, console)
  | 864 => (IFFTSafe 864 in_ out, console)
  | 900 => (IFFTSafe 900 in_ out, console)
  | 960 => (IFFTSafe 960 in_ out, console)
  | 972 => (IFFTSafe 972 in_ out, console)
  | 1080 => (IFFTSafe 1080 in_ out, console)
  | 1152 => (IFFTSafe 1152 in_ out, console)
  | 1200 => (IFFTSafe 1200 in_ out, console)
  | _ => (out, console ++ [ifft_size_not_supported nFFTSize])
  end.

Definition __ext_sora_ifft_dynamic (output : list complex16) (unused2 : Z)
    (nFFTSize : Z) (input : list complex16) (unused1 : Z)
    (console : list console_line) : list complex16 * list console_line :=
  __ext_sora_ifft output nFFTSize input unused1 console.

End Transforms.

(** ** Random bit arrays *)

Section Random.

(** The C library generator: [srand] turns a seed into a generator state,
    [rand] draws a number and steps the state. *)
Variable rng : Type.
Variable srand : Z -> rng.
Variable rand : rng -> Z * rng.

(** [now] is what [time(NULL)] returns at the call.  The result is the
    array, the generator state left behind, and the return value. *)
Definition __ext_populate_rand_array (arr : list Z) (siz : Z) (now : Z)
    : list Z * rng * Z :=
  let g := srand now in
  let '(arr, g) := for_loop 0 (div_int siz 8) (fun i '(arr, g) =>
    let '(r, g) := rand g in
    (wr arr i (unum8_of r), g)) (arr, g) in
  (arr, g, 0).

(** The first [n] numbers drawn from state [g]. *)
Fixpoint draws (n : nat) (g : rng) : list Z :=
  match n with
  | O => []
  | S n' => let '(r, g') := rand g in r :: draws n' g'
  end.

End Random.

(** ** Permutations of four samples *)

(** Word [j] of the result is word [(imm >> 2j) & 3] of the source. *)
Definition _mm_shuffle_epi32 (a : m128i) (imm : Z) : m128i :=
  let src := [w0 a; w1 a; w2 a; w3 a] in
  let sel j := nth (Z.to_nat ((imm / 4 ^ j) mod 4)) src 0 in
  M128 (sel 0) (sel 1) (sel 2) (sel 3).

(** The low 64 bits of the first operand below the low 64 bits of the
    second. *)
Definition _mm_unpacklo_epi64 (a b : m128i) : m128i :=
  M128 (w0 a) (w1 a) (w0 b) (w1 b).

(** [assert (cond)], with assertions compiled in: the call goes on when
    the condition holds and aborts the program otherwise. *)
Definition c_assert {A : Type} (cond : bool) (k : option A) : option A :=
  if cond then k else None.

(** [x] is the source and [y] the destination. *)
Definition __ext_permutatew1313 (x : list complex16) (__unused_2 : Z)
    (y : list complex16) (__unused_1 : Z) : option (list complex16 * Z) :=
  c_assert (__unused_2 =? 4) (
  c_assert (__unused_1 =? 4) (
  let y := storeu_complex16 y 0
             (_mm_shuffle_epi32 (loadu_complex16 x 0) (_MM_SHUFFLE 3 1 3 1)) in
  Some (y, 0))).

Definition __ext_interleave_loww (x : list complex16) (__unused_5 : Z)
    (y : list complex16) (__unused_4 : Z) (z : list complex16) (__unused_3 : Z)
    : option (list complex16 * Z) :=
  c_assert (__unused_4 =? 4) (
  c_assert (__unused_3 =? 4) (
  c_assert (__unused_5 =? 4) (
  let z := storeu_complex16 z 0
             (_mm_unpacklo_epi64 (loadu_complex16 x 0) (loadu_complex16 y 0)) in
  Some (z, 0)))).

(** ** Casts *)

(** [size_t] has 64 bits; [sizeof(complex8)] is two. *)
Definition size_t_of (v : Z) : Z := v mod 18446744073709551616.

(** [memcpy] of [n] bytes from a [complex8] buffer to an [int8] buffer:
    byte [k] of the source is component [k]. *)
Definition memcpy_complex8 (dst : list Z) (src : list complex8) (n : Z) : list Z :=
  for_loop 0 n (fun k dst => wr dst k (rd_comp src k)) dst.

Definition __ext_v_cast_complex8_int8 (output : list Z) (lenout : Z)
    (input : list complex8) (lenin : Z) : list Z * Z :=
  let output := memcpy_complex8 output input (size_t_of (size_t_of lenin * 2)) in
  (output, 0).

(** ** Sign changes of 8-bit samples *)

(** The signed value of byte [k] of a word. *)
Definition sbyte (w k : Z) : Z := int8_of (byte_of w k).

(** [_mm_sign_epi8]: each signed byte of [a] is negated where the byte of
    [b] is negative, cleared where it is zero, and kept where it is
    positive. *)
Definition sign8 (a b : Z) : Z :=
  if b <? 0 then - a else if b =? 0 then 0 else a.

Definition _mm_sign_epi8 : m128i -> m128i -> m128i :=
  lanes2 (fun x y =>
    mk_bytes (sign8 (sbyte x 0) (sbyte y 0)) (sign8 (sbyte x 1) (sbyte y 1))
             (sign8 (sbyte x 2) (sbyte y 2)) (sign8 (sbyte x 3) (sbyte y 3))).

(** Load through a [vcb*] from a [complex8] buffer: eight elements per
    register. *)
Definition load_vcb (p : list complex8) (i : Z) : m128i :=
  let word j := mk_bytes (re (rdC p j)) (im (rdC p j))
                         (re (rdC p (j + 1))) (im (rdC p (j + 1))) in
  M128 (word (8 * i)) (word (8 * i + 2)) (word (8 * i + 4)) (word (8 * i + 6)).

(** Unary minus on an [int]. *)
Definition neg_int (a : Z) : Z := int32_of (- a).

(** [wlen] is [sizeof(vcb) / sizeof(complex8)], eight; the register of
    sixteen [0xFF] bytes is four words [0xFFFFFFFF]. *)
Definition __ext_v_negate_complex8 (output : list complex8) (lenout : Z)
    (input : list complex8) (lenin : Z) : list complex8 :=
  let wlen := 8 in
  let __0xFFFFFFFFFFFFFFFFFFFFFFFFFFFFFFFF := _mm_set1_epi32 0xFFFFFFFF in
  let n := div_int lenin wlen in
  let output := for_loop 0 n (fun i output =>
    store_vcb output i
      (_mm_sign_epi8 (load_vcb input i) __0xFFFFFFFFFFFFFFFFFFFFFFFFFFFFFFFF)) output in
  let i := Z.max 0 n in
  for_loop (i * wlen) lenin (fun j output =>
    let output := set_re output j (int8_of (neg_int (re (rdC input j)))) in
    set_im output j (int8_of (neg_int (im (rdC input j))))) output.




(** * Reference definitions

    What the specification says the kernels compute, and the scalar loops
    the vector loops are compared with. *)

(** The totals of [hadd], as mathematical sums truncated once. *)
Definition hadd_total_re (x : list complex16) : Z :=
  int16_of (re (rdC x 0) + re (rdC x 1) + re (rdC x 2) + re (rdC x 3)).
Definition hadd_total_im (x : list complex16) : Z :=
  int16_of (im (rdC x 0) + im (rdC x 1) + im (rdC x 2) + im (rdC x 3)).
Definition hadd_total_int32 (xi : list Z) : Z :=
  int32_of (rdZ xi 0 + rdZ xi 1 + rdZ xi 2 + rdZ xi 3).

(** A linear congruential generator, to run the kernel on. *)
Definition lcg_rand (g : Z) : Z * Z :=
  let g' := (g * 1103515245 + 12345) mod 2147483648 in (g' / 65536, g').

(** The catalog of transform sizes, as the specification lists it: the
    powers of two from 16 to 2048 and the LTE sizes. *)
Definition catalog : list Z :=
  [16; 32; 64; 128; 256; 512; 1024; 2048]
  ++ [12; 24; 36; 48; 60; 72; 96; 108; 120; 144; 180; 192; 216; 240; 288; 300;
      324; 360; 384; 432; 480; 540; 576; 600; 648; 720; 768; 864; 900; 960; 972;
      1080; 1152; 1200].

Definition in_catalog (size : Z) : bool := existsb (Z.eqb size) catalog.

(** A stand-in transform to run the dispatchers on: it stores the size in
    the first output element. *)
Definition mark_size (n : Z) (input output : list complex16) : list complex16 :=
  wr output 0 (Cplx n (Z.of_nat (length input))).

(** The number of bytes that hold [inlen1] bits. *)
Definition ceil_div8 (inlen1 : Z) : Z := (inlen1 + 7) / 8.

(** The scalar reference of the specification: the arithmetic right shift
    of every component of the first [len] elements. *)
Definition ref_shift_right (wrap : Z -> Z) (x : list complex) (len shift : Z) : list complex :=
  map (fun c => Cplx (wrap (Z.shiftr (re c) shift)) (wrap (Z.shiftr (im c) shift)))
      (firstn (Z.to_nat len) x).

(** The remainder loop of [__ext_v_shift_right_complex16], run over the
    whole buffer. *)
Definition scalar_shift_right_complex16 (z x : list complex16) (len shift : Z)
    : list complex16 :=
  for_loop 0 (len * 2) (fun i z =>
    wr_comp z i (int16_of (unum16_of (shr_int (unum16_of (rd_comp x i)) shift)))) z.

(** The products as the specification writes them, on mathematical
    integers kept to 32 bits. *)
Definition ref_mul_re (x y : complex16) : Z := int32_of (re x * re y - im x * im y).

Definition ref_mul_im (x y : complex16) : Z := int32_of (re x * im y + im x * re y).

Definition ref_conj_mul_re (x y : complex16) : Z := int32_of (re x * re y + im x * im y).

Definition ref_conj_mul_im (x y : complex16) : Z := int32_of (im x * re y - re x * im y).

(** The naive scalar references: the body of the remainder loop, run over
    all [len] elements. *)
Definition scalar_complex16 (op : Z -> Z -> Z) (c : list complex16) (len : Z)
    (a b : list complex16) : list complex16 :=
  for_loop 0 len (fun i c =>
    let c := set_re c i (int16_of (op (re (rdC a i)) (re (rdC b i)))) in
    set_im c i (int16_of (op (im (rdC a i)) (im (rdC b i))))) c.

Definition scalar_complex32 (op : Z -> Z -> Z) (c : list complex32) (len : Z)
    (a b : list complex32) : list complex32 :=
  for_loop 0 len (fun i c =>
    let c := set_re c i (op (re (rdC a i)) (re (rdC b i))) in
    set_im c i (op (im (rdC a i)) (im (rdC b i)))) c.

Definition scalar_int16 (op : Z -> Z -> Z) (c : list Z) (len : Z) (a b : list Z) : list Z :=
  for_loop 0 len (fun i c => wr c i (int16_of (op (rdZ a i) (rdZ b i)))) c.

Definition scalar_int32 (op : Z -> Z -> Z) (c : list Z) (len : Z) (a b : list Z) : list Z :=
  for_loop 0 len (fun i c => wr c i (op (rdZ a i) (rdZ b i))) c.

Definition scalar_shift_int16 (op : Z -> Z -> Z) (z : list Z) (x : list Z)
    (len shift : Z) : list Z :=
  for_loop 0 len (fun i z => wr z i (int16_of (op (rdZ x i) shift))) z.

Definition scalar_shift_int32 (op : Z -> Z -> Z) (z : list Z) (x : list Z)
    (len shift : Z) : list Z :=
  for_loop 0 len (fun i z => wr z i (op (rdZ x i) shift)) z.



Definition scalar_mul_complex16 (out x : list complex16) (len1 : Z) (y : list complex16)
    (shift : Z) : list complex16 :=
  for_loop 0 len1 (fun i out =>
    let out := set_re out i (int16_of (shr_int
        (sub_int (mul_int (re (rdC x i)) (re (rdC y i)))
                 (mul_int (im (rdC x i)) (im (rdC y i)))) shift)) in
    set_im out i (int16_of (shr_int
        (add_int (mul_int (re (rdC x i)) (im (rdC y i)))
                 (mul_int (im (rdC x i)) (re (rdC y i)))) shift))) out.

Definition scalar_conj_mul_complex16 (out x : list complex16) (len1 : Z)
    (y : list complex16) (shift : Z) : list complex16 :=
  for_loop 0 len1 (fun i out =>
    let out := set_re out i (int16_of (shr_int
        (add_int (mul_int (re (rdC x i)) (re (rdC y i)))
                 (mul_int (im (rdC x i)) (im (rdC y i)))) shift)) in
    set_im out i (int16_of (shr_int
        (sub_int (mul_int (im (rdC x i)) (re (rdC y i)))
                 (mul_int (re (rdC x i)) (im (rdC y i)))) shift))) out.

Definition scalar_conj_mul_complex16_int32 (re_ im_ : list Z) (x : list complex16)
    (len1 : Z) (y : list complex16) : list Z * list Z :=
  for_loop 0 len1 (fun i '(re_, im_) =>
    let re_ := wr re_ i (add_int (mul_int (re (rdC x i)) (re (rdC y i)))
                                 (mul_int (im (rdC x i)) (im (rdC y i)))) in
    let im_ := wr im_ i (sub_int (mul_int (im (rdC x i)) (re (rdC y i)))
                                 (mul_int (re (rdC x i)) (im (rdC y i)))) in
    (re_, im_)) (re_, im_).

(** A component whose opposite is a 16-bit value. *)
Definition negatable (v : Z) : Prop := v <> -32768.

(** [f i + f (i + 1) + ... ], [n] terms, added from the left. *)
Fixpoint sum_from (f : Z -> Z) (i : Z) (n : nat) : Z :=
  match n with
  | O => 0
  | S n' => f i + sum_from f (i + 1) n'
  end.

(** The element the vector loop stores for one input element. *)
Definition sat_complex8 (c : complex16) : complex8 := Cplx (sat8 (re c)) (sat8 (im c)).

(** The element the remainder loop stores. *)
Definition narrow_complex8 (c : complex16) : complex8 :=
  Cplx (int8_of (re c)) (int8_of (im c)).

(** One step of the byte loop of the OR dispatcher, and [n] steps from
    byte [off]. *)
Definition or_byte (input1 input2 : list Z) (cnt : Z) (output : list Z) : list Z :=
  wr output cnt (Z.lor (rdZ input1 cnt) (rdZ input2 cnt)).

Definition or_range (input1 input2 : list Z) (output : list Z) (off : Z) (n : nat) : list Z :=
  for_iter n off (or_byte input1 input2) output.


(** The first element the vector loop of a kernel leaves to its remainder
    loop: [len / wlen * wlen]. *)
Definition vector_end (len wlen : Z) : Z := div_int len wlen * wlen.

(** What the vector loops of the multiplications accumulate where the
    formula has a negated imaginary part: the sign is flipped inside the
    16 bits of the component. *)
Definition vec_mul_re (x y : complex16) : Z :=
  int32_of (re x * re y + int16_of (- im x) * im y).

Definition vec_conj_mul_im (x y : complex16) : Z :=
  int32_of (im x * re y + re x * int16_of (- im y)).

(** Values of the type [int8], and [complex8] elements made of them. *)
Definition is_int8 (v : Z) : Prop := -128 <= v < 128.

Definition wf_complex8 (c : complex) : Prop := is_int8 (re c) /\ is_int8 (im c).

(** * Properties *)

(** ** Machine integers *)

Lemma int16_of_range v : is_int16 (int16_of v).
Proof.
  unfold is_int16, int16_of.
  pose proof (Z.mod_pos_bound (v + 32768) 65536). lia.
Qed.

Lemma int32_of_range v : is_int32 (int32_of v).
Proof.
  unfold is_int32, int32_of.
  pose proof (Z.mod_pos_bound (v + 2147483648) 4294967296). lia.
Qed.

Lemma int16_of_id v : is_int16 v -> int16_of v = v.
Proof. unfold is_int16, int16_of. intros H. rewrite Z.mod_small; lia. Qed.

Lemma int32_of_id v : is_int32 v -> int32_of v = v.
Proof. unfold is_int32, int32_of. intros H. rewrite Z.mod_small; lia. Qed.

(** A truncation differs from its argument by a multiple of the modulus,
    and two integers that differ by such a multiple truncate alike. *)
Lemma int32_of_decomp v : exists k, int32_of v = v + 4294967296 * k.
Proof.
  exists (- ((v + 2147483648) / 4294967296)). unfold int32_of.
  pose proof (Z_div_mod_eq_full (v + 2147483648) 4294967296). lia.
Qed.

Lemma int16_of_decomp v : exists k, int16_of v = v + 65536 * k.
Proof.
  exists (- ((v + 32768) / 65536)). unfold int16_of.
  pose proof (Z_div_mod_eq_full (v + 32768) 65536). lia.
Qed.

Lemma int16_of_eqm a b k : a = b + 65536 * k -> int16_of a = int16_of b.
Proof.
  intros ->. unfold int16_of.
  replace (b + 65536 * k + 32768) with (b + 32768 + k * 65536) by lia.
  now rewrite Z_mod_plus_full.
Qed.

Lemma int32_of_eqm a b k : a = b + 4294967296 * k -> int32_of a = int32_of b.
Proof.
  intros ->. unfold int32_of.
  replace (b + 4294967296 * k + 2147483648) with (b + 2147483648 + k * 4294967296) by lia.
  now rewrite Z_mod_plus_full.
Qed.

Lemma unum16_of_decomp v : exists k, unum16_of v = v + 65536 * k.
Proof.
  exists (- (v / 65536)). unfold unum16_of.
  pose proof (Z_div_mod_eq_full v 65536). lia.
Qed.

Lemma unum32_of_decomp v : exists k, unum32_of v = v + 4294967296 * k.
Proof.
  exists (- (v / 4294967296)). unfold unum32_of.
  pose proof (Z_div_mod_eq_full v 4294967296). lia.
Qed.

Lemma int16_of_sum4 a b c d :
  int16_of (add_int (add_int (add_int a b) c) d) = int16_of (a + b + c + d).
Proof.
  unfold add_int.
  destruct (int32_of_decomp (a + b)) as [k1 E1]. rewrite E1.
  destruct (int32_of_decomp (a + b + 4294967296 * k1 + c)) as [k2 E2]. rewrite E2.
  destruct (int32_of_decomp (a + b + 4294967296 * k1 + c + 4294967296 * k2 + d)) as [k3 E3].
  rewrite E3.
  apply int16_of_eqm with (k := 65536 * (k1 + k2 + k3)). lia.
Qed.

Lemma int32_of_sum4 a b c d :
  add_int (add_int (add_int a b) c) d = int32_of (a + b + c + d).
Proof.
  unfold add_int.
  destruct (int32_of_decomp (a + b)) as [k1 E1]. rewrite E1.
  destruct (int32_of_decomp (a + b + 4294967296 * k1 + c)) as [k2 E2]. rewrite E2.
  apply int32_of_eqm with (k := k1 + k2). lia.
Qed.

(** ** Buffers *)

Section BufferFacts.
Context {A : Type}.
Implicit Types (p : list A) (d v : A).

Lemma length_upd p n v : length (upd p n v) = length p.
Proof. revert n; induction p as [|h t IH]; intros [|n]; simpl; auto. Qed.

Lemma length_wr p i v : length (wr p i v) = length p.
Proof. unfold wr. destruct (i <? 0); auto using length_upd. Qed.

Lemma nth_upd_eq p n v d : (n < length p)%nat -> nth n (upd p n v) d = v.
Proof.
  revert n; induction p as [|h t IH]; intros [|n]; simpl; intros H; try lia; auto.
  apply IH. lia.
Qed.

Lemma nth_upd_ne p n m v d : n <> m -> nth m (upd p n v) d = nth m p d.
Proof.
  revert n m; induction p as [|h t IH]; intros [|n] [|m]; simpl; intros H;
    try congruence; auto.
Qed.

Lemma rd_wr_eq d p i v : 0 <= i < Z.of_nat (length p) -> rd d (wr p i v) i = v.
Proof.
  intros H. unfold rd, wr.
  destruct (Z.ltb_spec i 0); [lia|]. apply nth_upd_eq. lia.
Qed.

Lemma rd_wr_ne d p i j v : i <> j -> rd d (wr p i v) j = rd d p j.
Proof.
  intros H. unfold rd, wr.
  destruct (Z.ltb_spec j 0); auto.
  destruct (Z.ltb_spec i 0); auto.
  apply nth_upd_ne. lia.
Qed.

Lemma wr_outside p i v : i < 0 \/ Z.of_nat (length p) <= i -> wr p i v = p.
Proof.
  intros H. unfold wr. destruct (Z.ltb_spec i 0); auto.
  assert (Hn : (length p <= Z.to_nat i)%nat) by lia.
  revert Hn. generalize (Z.to_nat i). clear.
  induction p as [|h t IH]; intros [|n]; simpl; intros; auto; try lia.
  f_equal. apply IH. lia.
Qed.

(** A buffer is determined by its length and its elements. *)
Lemma buffer_ext d p q :
  length p = length q ->
  (forall i, 0 <= i < Z.of_nat (length p) -> rd d p i = rd d q i) -> p = q.
Proof.
  intros Hl H. apply nth_ext with (d := d) (d' := d); auto.
  intros n Hn. specialize (H (Z.of_nat n)). unfold rd in H.
  destruct (Z.ltb_spec (Z.of_nat n) 0); [lia|].
  rewrite Nat2Z.id in H. apply H. lia.
Qed.

End BufferFacts.

(** A loop keeps an invariant that each of its iterations keeps. *)
Lemma for_iter_invariant {St : Type} (P : Z -> St -> Prop) body :
  forall n i s,
    P i s ->
    (forall j t, i <= j < i + Z.of_nat n -> P j t -> P (j + 1) (body j t)) ->
    P (i + Z.of_nat n) (for_iter n i body s).
Proof.
  induction n as [|n IH]; intros i s H0 Hstep.
  - simpl. now rewrite Z.add_0_r.
  - cbn [for_iter]. replace (i + Z.of_nat (S n)) with (i + 1 + Z.of_nat n) by lia.
    apply IH.
    + apply Hstep; [lia | exact H0].
    + intros j t Hj. apply Hstep. lia.
Qed.

Lemma for_loop_invariant {St : Type} (P : Z -> St -> Prop) body lo hi s :
  lo <= hi ->
  P lo s ->
  (forall j t, lo <= j < hi -> P j t -> P (j + 1) (body j t)) ->
  P hi (for_loop lo hi body s).
Proof.
  intros Hle H0 Hstep. unfold for_loop.
  replace hi with (lo + Z.of_nat (Z.to_nat (hi - lo))) at 1 by lia.
  apply for_iter_invariant; auto.
  intros j t Hj. apply Hstep. lia.
Qed.

Lemma for_loop_empty {St : Type} body lo hi (s : St) :
  hi <= lo -> for_loop lo hi body s = s.
Proof.
  intros H. unfold for_loop. replace (Z.to_nat (hi - lo)) with O by lia. reflexivity.
Qed.

(** Both field assignments of one element amount to one assignment. *)
Lemma set_im_set_re p i a b : set_im (set_re p i a) i b = wr p i (Cplx a b).
Proof.
  unfold set_im, set_re.
  destruct (Z_lt_ge_dec i 0) as [Hn|Hn];
    [|destruct (Z_lt_ge_dec i (Z.of_nat (length p))) as [Hi|Hi]].
  - rewrite !wr_outside by (rewrite ?length_wr; lia). reflexivity.
  - unfold rdC. rewrite rd_wr_eq by lia. cbn [re].
    apply buffer_ext with (d := czero); [now rewrite !length_wr|].
    intros j Hj. rewrite !length_wr in Hj.
    destruct (Z.eq_dec i j) as [->|Hne].
    + rewrite !rd_wr_eq; rewrite ?length_wr; auto.
    + rewrite !rd_wr_ne; auto.
  - rewrite !wr_outside by (rewrite ?length_wr; lia). reflexivity.
Qed.

(** ** Horizontal add *)


(** C8: for every 4-element input vector, [hadd] leaves the same total in
    each of the four output lanes: the complex16 variant the 16-bit
    wrapping sums of the real and of the imaginary parts, the int32 variant
    the 32-bit wrapping sum. *)
Theorem hadd_broadcasts_total :
  forall (z x : list complex16) (zi xi : list Z) (u2 u1 v2 v1 i : Z),
    length x = 4%nat -> length xi = 4%nat ->
    (4 <= length z)%nat -> (4 <= length zi)%nat ->
    0 <= i < 4 ->
    rdC (fst (__ext_v_hadd_complex16 z u2 x u1)) i
      = Cplx (hadd_total_re x) (hadd_total_im x)
    /\ rdZ (fst (__ext_v_hadd_int32 zi v2 xi v1)) i = hadd_total_int32 xi.
Proof.
  intros z x zi xi u2 u1 v2 v1 i Hx Hxi Hz Hzi Hi.
  unfold hadd_total_re, hadd_total_im, hadd_total_int32.
  rewrite <- !int16_of_sum4, <- int32_of_sum4.
  destruct z as [|z0 [|z1 [|z2 [|z3 zt]]]]; simpl in Hz; try lia.
  destruct zi as [|y0 [|y1 [|y2 [|y3 yt]]]]; simpl in Hzi; try lia.
  assert (Hc : i = 0 \/ i = 1 \/ i = 2 \/ i = 3) by lia.
  destruct Hc as [-> | [-> | [-> | ->]]]; split; reflexivity.
Qed.

Lemma hadd_broadcasts_total_witness :
  let x := [Cplx 30000 (-30000); Cplx 30000 (-30000); Cplx 1 2; Cplx 3 4] in
  let xi := [2147483647; 1; 5; 6] in
  rdC (fst (__ext_v_hadd_complex16 [czero; czero; czero; czero] 4 x 4)) 2
    = Cplx (hadd_total_re x) (hadd_total_im x)
  /\ rdZ (fst (__ext_v_hadd_int32 [0; 0; 0; 0] 4 xi 4)) 2 = hadd_total_int32 xi.
Proof.
  intros x xi.
  apply (hadd_broadcasts_total [czero; czero; czero; czero] x [0; 0; 0; 0] xi 4 4 4 4 2);
    simpl; try reflexivity; lia.
Defined.

(** ** Random bit arrays *)

Lemma wr_app_here {A : Type} (done rest : list A) h v :
  wr (done ++ h :: rest) (Z.of_nat (length done)) v = done ++ v :: rest.
Proof.
  unfold wr. destruct (Z.ltb_spec (Z.of_nat (length done)) 0); [lia|].
  clear H. rewrite Nat2Z.id. induction done as [|a done IH]; simpl; [reflexivity|].
  now rewrite IH.
Qed.

Section RandomFacts.
Variable rng : Type.
Variable srand : Z -> rng.
Variable rand : rng -> Z * rng.

(** The loop body of [__ext_populate_rand_array]. *)
Let fill (i : Z) (s : list Z * rng) : list Z * rng :=
  let '(arr, g) := s in let '(r, g) := rand g in (wr arr i (unum8_of r), g).

Lemma fill_loop n :
  forall done rest g,
    (n <= length rest)%nat ->
    fst (for_iter n (Z.of_nat (length done)) fill (done ++ rest, g))
      = done ++ map unum8_of (draws rng rand n g) ++ skipn n rest.
Proof.
  induction n as [|n IH]; intros done rest g Hn.
  - reflexivity.
  - destruct rest as [|h rest]; [simpl in Hn; lia|].
    cbn [for_iter draws skipn]. unfold fill at 2.
    destruct (rand g) as [r g'].
    rewrite wr_app_here.
    replace (done ++ unum8_of r :: rest) with ((done ++ [unum8_of r]) ++ rest)
      by (now rewrite <- app_assoc).
    replace (Z.of_nat (length done) + 1) with (Z.of_nat (length (done ++ [unum8_of r])))
      by (rewrite length_app; simpl; lia).
    rewrite IH by (simpl in Hn; lia).
    rewrite <- app_assoc. reflexivity.
Qed.

Lemma populate_rand_array_eq arr siz now :
  0 <= siz -> siz / 8 <= Z.of_nat (length arr) ->
  fst (fst (__ext_populate_rand_array rng srand rand arr siz now))
    = map unum8_of (draws rng rand (Z.to_nat (siz / 8)) (srand now))
        ++ skipn (Z.to_nat (siz / 8)) arr.
Proof.
  intros Hs Hcap. unfold __ext_populate_rand_array, for_loop, div_int.
  rewrite Z.quot_div_nonneg by lia. rewrite Z.sub_0_r.
  pose proof (fill_loop (Z.to_nat (siz / 8)) [] arr (srand now)) as H.
  cbn [length app Z.of_nat] in H. rewrite <- H by lia.
  match goal with
  | |- fst (fst (let '(_, _) := ?L in _)) = _ => destruct L as [a1 g1] eqn:E
  end.
  unfold fill. rewrite E. reflexivity.
Qed.

Lemma length_draws n : forall g, length (draws rng rand n g) = n.
Proof.
  induction n as [|n IH]; intros g; simpl; [reflexivity|].
  destruct (rand g) as [r g']. simpl. now rewrite IH.
Qed.

End RandomFacts.

(** C10: for a bit count [siz >= 0], [populateRandomBits] overwrites the
    bytes at the indices below [siz / 8], each with the next number drawn
    from the generator seeded with the time of the call, and leaves every
    byte from index [siz / 8] on as it was; below eight bits it changes
    nothing. *)
Theorem populate_rand_array_frame :
  forall (rng : Type) (srand : Z -> rng) (rand : rng -> Z * rng)
         (arr : list Z) (siz now : Z),
    0 <= siz -> siz / 8 <= Z.of_nat (length arr) ->
    let arr' := fst (fst (__ext_populate_rand_array rng srand rand arr siz now)) in
    length arr' = length arr
    /\ (forall i, 0 <= i < siz / 8 ->
          rdZ arr' i = unum8_of (rdZ (draws rng rand (Z.to_nat (siz / 8)) (srand now)) i))
    /\ (forall i, siz / 8 <= i -> rdZ arr' i = rdZ arr i)
    /\ (siz < 8 -> arr' = arr).
Proof.
  intros rng srand rand arr siz now Hs Hcap arr'.
  assert (E : arr' = map unum8_of (draws rng rand (Z.to_nat (siz / 8)) (srand now))
                       ++ skipn (Z.to_nat (siz / 8)) arr)
    by (apply populate_rand_array_eq; assumption).
  assert (H8 : 0 <= siz / 8) by (apply Z.div_pos; lia).
  set (n := Z.to_nat (siz / 8)) in *.
  set (ds := draws rng rand n (srand now)) in *.
  assert (Hds : length ds = n) by apply length_draws.
  rewrite E. repeat split.
  - rewrite length_app, length_map, length_skipn. lia.
  - intros i Hi. unfold rdZ, rd. destruct (Z.ltb_spec i 0); [lia|].
    rewrite app_nth1 by (rewrite length_map; lia).
    change 0 with (unum8_of 0) at 1. now rewrite map_nth.
  - intros i Hi. unfold rdZ, rd. destruct (Z.ltb_spec i 0); [lia|].
    rewrite app_nth2 by (rewrite length_map; lia).
    rewrite length_map, Hds, nth_skipn. f_equal. lia.
  - intros Hlt. assert (siz / 8 = 0) by (apply Z.div_small; lia).
    subst ds. replace n with O by lia. reflexivity.
Qed.


Lemma populate_rand_array_frame_witness :
  let arr' := fst (fst (__ext_populate_rand_array Z (fun s => s) lcg_rand [1; 2; 3; 4] 20 7)) in
  length arr' = length [1; 2; 3; 4]
  /\ (forall i, 0 <= i < 20 / 8 ->
        rdZ arr' i = unum8_of (rdZ (draws Z lcg_rand (Z.to_nat (20 / 8)) 7) i))
  /\ (forall i, 20 / 8 <= i -> rdZ arr' i = rdZ [1; 2; 3; 4] i)
  /\ (20 < 8 -> arr' = [1; 2; 3; 4]).
Proof.
  apply (populate_rand_array_frame Z (fun s => s) lcg_rand [1; 2; 3; 4] 20 7).
  - lia.
  - vm_compute. discriminate.
Defined.

(** ** FFT and IFFT dispatch *)


Lemma in_catalog_spec size : in_catalog size = true <-> In size catalog.
Proof.
  unfold in_catalog. rewrite existsb_exists. split.
  - intros [y [Hy E]]. apply Z.eqb_eq in E. now subst.
  - intros H. exists size. split; [assumption | apply Z.eqb_refl].
Qed.

(** Walk down the binary digits of a size until the [switch] is decided:
    either no label is left, or the digits spell a size of the catalog. *)
Ltac walk_size p H :=
  first
    [ reflexivity
    | destruct p as [p|p|];
      [ walk_size p H | walk_size p H
      | first [reflexivity | exfalso; vm_compute in H; discriminate H] ] ].

Section TransformFacts.
Variable FFTSafe : Z -> list complex16 -> list complex16 -> list complex16.
Variable IFFTSafe : Z -> list complex16 -> list complex16 -> list complex16.

Lemma fft_supported output size input unused1 console :
  In size catalog ->
  __ext_sora_fft FFTSafe output size input unused1 console
    = (FFTSafe size input output, console).
Proof.
  intros H. unfold catalog in H. simpl in H.
  repeat (destruct H as [<- | H]; [reflexivity|]). contradiction.
Qed.

Lemma ifft_supported output size input unused1 console :
  In size catalog ->
  __ext_sora_ifft IFFTSafe output size input unused1 console
    = (IFFTSafe size input output, console).
Proof.
  intros H. unfold catalog in H. simpl in H.
  repeat (destruct H as [<- | H]; [reflexivity|]). contradiction.
Qed.

Lemma fft_unsupported output size input unused1 console :
  in_catalog size = false ->
  __ext_sora_fft FFTSafe output size input unused1 console
    = (output, console ++ [fft_size_not_supported size]).
Proof.
  intros H. unfold __ext_sora_fft.
  destruct size as [|p|p]; [reflexivity | | reflexivity].
  walk_size p H.
Qed.

Lemma ifft_unsupported output size input unused1 console :
  in_catalog size = false ->
  __ext_sora_ifft IFFTSafe output size input unused1 console
    = (output, console ++ [ifft_size_not_supported size]).
Proof.
  intros H. unfold __ext_sora_ifft.
  destruct size as [|p|p]; [reflexivity | | reflexivity].
  walk_size p H.
Qed.

End TransformFacts.

(** C3: for a size outside the catalog, [fft] and [ifft] print the
    size-not-supported line, run no transform and hand the output buffer
    back untouched; for a size of the catalog, they run the transform of
    exactly that size. *)
Theorem fft_ifft_dispatch :
  forall (FFTSafe IFFTSafe : Z -> list complex16 -> list complex16 -> list complex16)
         (output input : list complex16) (size unused1 : Z)
         (console : list console_line),
    (~ In size catalog ->
       __ext_sora_fft FFTSafe output size input unused1 console
         = (output, console ++ [fft_size_not_supported size])
       /\ __ext_sora_ifft IFFTSafe output size input unused1 console
         = (output, console ++ [ifft_size_not_supported size]))
    /\ (In size catalog ->
       __ext_sora_fft FFTSafe output size input unused1 console
         = (FFTSafe size input output, console)
       /\ __ext_sora_ifft IFFTSafe output size input unused1 console
         = (IFFTSafe size input output, console)).
Proof.
  intros FFTSafe IFFTSafe output input size unused1 console. split.
  - intros Hout.
    assert (Hb : in_catalog size = false).
    { destruct (in_catalog size) eqn:E; [|reflexivity].
      apply in_catalog_spec in E. contradiction. }
    split; [now apply fft_unsupported | now apply ifft_unsupported].
  - intros Hin. split; [now apply fft_supported | now apply ifft_supported].
Qed.


Lemma fft_ifft_dispatch_witness :
  (__ext_sora_fft mark_size [czero] 100 [czero] 0 []
     = ([czero], [] ++ [fft_size_not_supported 100])
   /\ __ext_sora_ifft mark_size [czero] 100 [czero] 0 []
     = ([czero], [] ++ [ifft_size_not_supported 100]))
  /\ (__ext_sora_fft mark_size [czero] 64 [czero] 0 []
     = (mark_size 64 [czero] [czero], [])
   /\ __ext_sora_ifft mark_size [czero] 64 [czero] 0 []
     = (mark_size 64 [czero] [czero], [])).
Proof.
  split.
  - apply (proj1 (fft_ifft_dispatch mark_size mark_size [czero] [czero] 100 0 [])).
    intros H. apply in_catalog_spec in H. vm_compute in H. discriminate H.
  - apply (proj2 (fft_ifft_dispatch mark_size mark_size [czero] [czero] 64 0 [])).
    apply in_catalog_spec. reflexivity.
Defined.

(** ** Length parameters that are never read *)

(** C9: two calls of a kernel that differ only in the [__unused_*]
    arguments (add, sub, hadd, shifts), in [outlen] (AND, OR, XOR, AND-NOT
    and their one-byte versions) or in the length argument of the
    four-element sums leave the same output buffer and return the same
    value.  The same holds of the output lengths and of the second input
    length of the multiplications and of [pack]. *)
Theorem unused_lengths_have_no_effect :
  forall (u1 u2 u1' u2' : Z),
    (forall c len a b,
        __ext_v_add_complex16 c len a u2 b u1 = __ext_v_add_complex16 c len a u2' b u1'
        /\ __ext_v_add_complex32 c len a u2 b u1 = __ext_v_add_complex32 c len a u2' b u1'
        /\ __ext_v_sub_complex16 c len a u2 b u1 = __ext_v_sub_complex16 c len a u2' b u1'
        /\ __ext_v_sub_complex32 c len a u2 b u1 = __ext_v_sub_complex32 c len a u2' b u1')
    /\ (forall c len a b,
        __ext_v_add_int16 c len a u2 b u1 = __ext_v_add_int16 c len a u2' b u1'
        /\ __ext_v_add_int32 c len a u2 b u1 = __ext_v_add_int32 c len a u2' b u1'
        /\ __ext_v_sub_int16 c len a u2 b u1 = __ext_v_sub_int16 c len a u2' b u1'
        /\ __ext_v_sub_int32 c len a u2 b u1 = __ext_v_sub_int32 c len a u2' b u1')
    /\ (forall z x,
        __ext_v_hadd_complex16 z u2 x u1 = __ext_v_hadd_complex16 z u2' x u1')
    /\ (forall z x,
        __ext_v_hadd_int32 z u2 x u1 = __ext_v_hadd_int32 z u2' x u1')
    /\ (forall z x len shift,
        __ext_v_shift_right_complex32 z u1 x len shift
          = __ext_v_shift_right_complex32 z u1' x len shift
        /\ __ext_v_shift_left_complex32 z u1 x len shift
          = __ext_v_shift_left_complex32 z u1' x len shift
        /\ __ext_v_shift_right_complex16 z u1 x len shift
          = __ext_v_shift_right_complex16 z u1' x len shift
        /\ __ext_v_shift_left_complex16 z u1 x len shift
          = __ext_v_shift_left_complex16 z u1' x len shift)
    /\ (forall z x len shift,
        __ext_v_shift_right_int32 z u1 x len shift
          = __ext_v_shift_right_int32 z u1' x len shift
        /\ __ext_v_shift_left_int32 z u1 x len shift
          = __ext_v_shift_left_int32 z u1' x len shift
        /\ __ext_v_shift_right_int16 z u1 x len shift
          = __ext_v_shift_right_int16 z u1' x len shift
        /\ __ext_v_shift_left_int16 z u1 x len shift
          = __ext_v_shift_left_int16 z u1' x len shift)
    /\ (forall output input1 inlen1 input2 inlen2,
        __ext_v_and output u1 input1 inlen1 input2 inlen2
          = __ext_v_and output u1' input1 inlen1 input2 inlen2
        /\ __ext_v_andnot output u1 input1 inlen1 input2 inlen2
          = __ext_v_andnot output u1' input1 inlen1 input2 inlen2
        /\ __ext_v_xor output u1 input1 inlen1 input2 inlen2
          = __ext_v_xor output u1' input1 inlen1 input2 inlen2
        /\ __ext_v_or output u1 input1 inlen1 input2 inlen2
          = __ext_v_or output u1' input1 inlen1 input2 inlen2)
    /\ (forall output input1 inlen1 input2 inlen2,
        __ext_v_and8 output u1 input1 inlen1 input2 inlen2
          = __ext_v_and8 output u1' input1 inlen1 input2 inlen2
        /\ __ext_v_andnot8 output u1 input1 inlen1 input2 inlen2
          = __ext_v_andnot8 output u1' input1 inlen1 input2 inlen2
        /\ __ext_v_xor8 output u1 input1 inlen1 input2 inlen2
          = __ext_v_xor8 output u1' input1 inlen1 input2 inlen2
        /\ __ext_v_or8 output u1 input1 inlen1 input2 inlen2
          = __ext_v_or8 output u1' input1 inlen1 input2 inlen2)
    /\ (forall x,
        __ext_sumc32 x u1 = __ext_sumc32 x u1'
        /\ __ext_sumc16 x u1 = __ext_sumc16 x u1')
    /\ (forall x,
        __ext_sumi32 x u1 = __ext_sumi32 x u1'
        /\ __ext_sumi16 x u1 = __ext_sumi16 x u1')
    /\ (forall out x len1 y shift,
        __ext_v_mul_complex16 out u1 x len1 y u2 shift
          = __ext_v_mul_complex16 out u1' x len1 y u2' shift
        /\ __ext_v_conj_mul_complex16 out u1 x len1 y u2 shift
          = __ext_v_conj_mul_complex16 out u1' x len1 y u2' shift)
    /\ (forall re_ im_ x len1 y,
        __ext_v_conj_mul_complex16_int32 re_ u1 im_ u2 x len1 y u1
          = __ext_v_conj_mul_complex16_int32 re_ u1' im_ u2' x len1 y u1')
    /\ (forall output input lenin,
        __ext_v_pack_complex16_complex8 output u1 input lenin
          = __ext_v_pack_complex16_complex8 output u1' input lenin).
Proof.
  intros u1 u2 u1' u2'.
  repeat match goal with
         | |- _ /\ _ => split
         | |- forall _, _ => intro
         end;
    try (unfold __ext_sumi32, __ext_sumi16); reflexivity.
Qed.

(** ** Elementwise loops *)

(** A loop that assigns [f i] to element [i] for [lo <= i < hi]. *)
Lemma for_loop_pointwise {A : Type} (d : A) (f : Z -> A) lo hi (p : list A) :
  0 <= lo -> hi <= Z.of_nat (length p) ->
  let q := for_loop lo hi (fun i p => wr p i (f i)) p in
  length q = length p
  /\ forall i, rd d q i = if (lo <=? i) && (i <? hi) then f i else rd d p i.
Proof.
  intros Hlo Hhi q. subst q.
  destruct (Z_le_gt_dec lo hi) as [Hle|Hgt].
  - apply (for_loop_invariant
             (fun j q => length q = length p
                /\ forall i, rd d q i = if (lo <=? i) && (i <? j) then f i else rd d p i)).
    + assumption.
    + split; [reflexivity|]. intros i.
      destruct (Z.leb_spec lo i), (Z.ltb_spec i lo); simpl; auto; lia.
    + intros j t Hj [Hlen Hrd]. split; [now rewrite length_wr|].
      intros i. destruct (Z.eq_dec j i) as [<-|Hne].
      * rewrite rd_wr_eq by lia.
        destruct (Z.leb_spec lo j), (Z.ltb_spec j (j + 1)); simpl; auto; lia.
      * rewrite rd_wr_ne by assumption. rewrite Hrd.
        destruct (Z.leb_spec lo i), (Z.ltb_spec i j), (Z.ltb_spec i (j + 1));
          simpl; auto; lia.
  - rewrite for_loop_empty by lia. split; [reflexivity|]. intros i.
    destruct (Z.leb_spec lo i), (Z.ltb_spec i hi); simpl; auto; lia.
Qed.

Lemma for_iter_app {St : Type} (body : Z -> St -> St) n m :
  forall i s, for_iter (n + m) i body s = for_iter m (i + Z.of_nat n) body (for_iter n i body s).
Proof.
  induction n as [|n IH]; intros i s.
  - simpl. now rewrite Z.add_0_r.
  - cbn [for_iter Nat.add]. rewrite IH. f_equal. lia.
Qed.

Lemma for_iter_ext {St : Type} (f g : Z -> St -> St) n :
  forall i s, (forall j t, i <= j < i + Z.of_nat n -> f j t = g j t) ->
              for_iter n i f s = for_iter n i g s.
Proof.
  induction n as [|n IH]; intros i s H; [reflexivity|].
  cbn [for_iter]. rewrite H by lia. apply IH. intros j t Hj. apply H. lia.
Qed.

(** ** Bytes and wider loads *)

Lemma is_unum8_land_ones b : is_unum8 b <-> Z.land b (Z.ones 8) = b.
Proof.
  unfold is_unum8. rewrite Z.land_ones by lia. change (2 ^ 8) with 256. split.
  - intros H. apply Z.mod_small. lia.
  - intros H. rewrite <- H. apply Z.mod_pos_bound. lia.
Qed.

Lemma is_unum8_lor a b : is_unum8 a -> is_unum8 b -> is_unum8 (Z.lor a b).
Proof.
  rewrite !is_unum8_land_ones. intros Ha Hb.
  now rewrite Z.land_lor_distr_l, Ha, Hb.
Qed.

(** A byte below a value shifted by eight bits: the two do not overlap. *)
Lemma lor_byte_shiftl b v : is_unum8 b -> Z.lor b (Z.shiftl v 8) = b + 256 * v.
Proof.
  intros Hb. rewrite Z.shiftl_mul_pow2 by lia. change (2 ^ 8) with 256.
  rewrite <- Z.lxor_lor, <- Z.add_nocarry_lxor; try lia.
  all: apply is_unum8_land_ones in Hb; rewrite <- Hb.
  all: rewrite <- Z.shiftl_mul_pow2 with (n := 8) by lia.
  all: apply Z.bits_inj'; intros n Hn; rewrite Z.bits_0, !Z.land_spec.
  all: destruct (Z_lt_ge_dec n 8);
    [ rewrite Z.shiftl_spec_low by lia; now rewrite andb_false_r
    | rewrite Z.ones_spec_high by lia; now rewrite andb_false_r ].
Qed.

Lemma byte_split_low b v : is_unum8 b -> Z.land (b + 256 * v) 255 = b.
Proof.
  intros Hb. change 255 with (Z.ones 8). rewrite Z.land_ones by lia.
  change (2 ^ 8) with 256. replace (b + 256 * v) with (b + v * 256) by lia.
  rewrite Z_mod_plus_full. apply Z.mod_small. exact Hb.
Qed.

Lemma byte_split_high b v : is_unum8 b -> Z.shiftr (b + 256 * v) 8 = v.
Proof.
  intros Hb. rewrite Z.shiftr_div_pow2 by lia. change (2 ^ 8) with 256.
  replace (b + 256 * v) with (b + v * 256) by lia.
  rewrite Z_div_plus_full by lia.
  rewrite Z.div_small by exact Hb. lia.
Qed.

Lemma lor_bytes a b v w :
  is_unum8 a -> is_unum8 b ->
  Z.lor (Z.lor a (Z.shiftl v 8)) (Z.lor b (Z.shiftl w 8)) = Z.lor a b + 256 * Z.lor v w.
Proof.
  intros Ha Hb.
  rewrite <- lor_byte_shiftl by now apply is_unum8_lor.
  rewrite Z.shiftl_lor.
  rewrite !Z.lor_assoc. f_equal.
  rewrite <- !Z.lor_assoc. f_equal. apply Z.lor_comm.
Qed.

(** The bytes of the OR of two loads are the ORs of the bytes. *)
Lemma bytes_of_uint_lor (l1 : list Z) :
  forall l2, length l1 = length l2 ->
    Forall is_unum8 l1 -> Forall is_unum8 l2 ->
    bytes_of_uint (length l1) (Z.lor (uint_of_bytes l1) (uint_of_bytes l2))
      = map (fun ab => Z.lor (fst ab) (snd ab)) (combine l1 l2).
Proof.
  induction l1 as [|a l1 IH]; intros [|b l2] Hlen H1 H2; simpl in Hlen; try lia.
  - reflexivity.
  - inversion H1; inversion H2; subst.
    cbn [length bytes_of_uint uint_of_bytes combine map fst snd].
    rewrite lor_bytes by assumption.
    rewrite byte_split_low, byte_split_high by now apply is_unum8_lor.
    f_equal. apply IH; auto.
Qed.

Lemma rdZ_unum8 p i : Forall is_unum8 p -> is_unum8 (rdZ p i).
Proof.
  intros H. unfold rdZ, rd. destruct (i <? 0); [unfold is_unum8; lia|].
  destruct (nth_in_or_default (Z.to_nat i) p 0) as [Hin | ->].
  - rewrite Forall_forall in H. now apply H.
  - unfold is_unum8; lia.
Qed.

Section OrFacts.
Variables input1 input2 : list Z.
Hypothesis wf1 : Forall is_unum8 input1.
Hypothesis wf2 : Forall is_unum8 input2.


Lemma store_bytes_or base n :
  forall s output,
    store_bytes output (base + Z.of_nat s)
      (map (fun ab => Z.lor (fst ab) (snd ab))
         (combine (map (fun k => rdZ input1 (base + Z.of_nat k)) (seq s n))
                  (map (fun k => rdZ input2 (base + Z.of_nat k)) (seq s n))))
    = or_range input1 input2 output (base + Z.of_nat s) n.
Proof.
  unfold or_range.
  induction n as [|n IH]; intros s output; [reflexivity|].
  cbn [seq map combine store_bytes for_iter fst snd]. unfold or_byte at 2.
  replace (base + Z.of_nat s + 1) with (base + Z.of_nat (S s)) by lia.
  apply IH.
Qed.

(** A wide load of both inputs, an OR and a wide store do what the byte
    loop does on the same bytes. *)
Lemma store_or_load n output off :
  store_uint n output off (Z.lor (load_uint n input1 off) (load_uint n input2 off))
    = or_range input1 input2 output off n.
Proof.
  unfold store_uint, load_uint.
  set (l1 := map (fun k => rdZ input1 (off + Z.of_nat k)) (seq 0 n)).
  set (l2 := map (fun k => rdZ input2 (off + Z.of_nat k)) (seq 0 n)).
  assert (H1 : length l1 = n) by (subst l1; now rewrite length_map, length_seq).
  assert (H2 : length l2 = n) by (subst l2; now rewrite length_map, length_seq).
  rewrite <- H1 at 1. rewrite bytes_of_uint_lor.
  - subst l1 l2. pose proof (store_bytes_or off n 0 output) as H.
    now rewrite Z.add_0_r in H.
  - congruence.
  - subst l1. apply Forall_map, Forall_forall. intros k _. now apply rdZ_unum8.
  - subst l2. apply Forall_map, Forall_forall. intros k _. now apply rdZ_unum8.
Qed.

Lemma or_range_app output off n m :
  or_range input1 input2 (or_range input1 input2 output off n) (off + Z.of_nat n) m = or_range input1 input2 output off (n + m).
Proof. unfold or_range. now rewrite for_iter_app. Qed.

Lemma or_48_range output off : __ext_v_or_48 output input1 input2 off = or_range input1 input2 output off 6.
Proof.
  unfold __ext_v_or_48. rewrite !store_or_load.
  apply (or_range_app output off 4 2).
Qed.

Lemma or_96_range output off : __ext_v_or_96 output input1 input2 off = or_range input1 input2 output off 12.
Proof.
  unfold __ext_v_or_96. rewrite !store_or_load.
  apply (or_range_app output off 8 4).
Qed.

Lemma or_192_range output off : __ext_v_or_192 output input1 input2 off = or_range input1 input2 output off 24.
Proof.
  unfold __ext_v_or_192. rewrite !store_or_load.
  change (off + 8) with (off + Z.of_nat 8).
  rewrite (or_range_app output off 8 8).
  apply (or_range_app output off (8 + 8) 8).
Qed.

Lemma or_288_range output off : __ext_v_or_288 output input1 input2 off = or_range input1 input2 output off 36.
Proof.
  unfold __ext_v_or_288. rewrite or_192_range, or_96_range.
  apply (or_range_app output off 24 12).
Qed.

Lemma or_byte_loop_range output inlen1 :
  or_byte_loop output input1 inlen1 input2
    = or_range input1 input2 output 0 (Z.to_nat (div_int (add_int inlen1 7) 8)).
Proof. unfold or_byte_loop, for_loop, or_range. now rewrite Z.sub_0_r. Qed.

(** Whatever the bit length, the dispatcher leaves what the byte loop
    leaves. *)
Lemma or_dispatch_eq_byte_loop output outlen inlen1 inlen2 :
  __ext_v_or output outlen input1 inlen1 input2 inlen2
    = or_byte_loop output input1 inlen1 input2.
Proof.
  destruct (Z.eq_dec inlen1 48) as [->|H48]; [|
  destruct (Z.eq_dec inlen1 96) as [->|H96]; [|
  destruct (Z.eq_dec inlen1 192) as [->|H192]; [|
  destruct (Z.eq_dec inlen1 288) as [->|H288]]]].
  - rewrite or_byte_loop_range. apply or_48_range.
  - rewrite or_byte_loop_range. apply or_96_range.
  - rewrite or_byte_loop_range. apply or_192_range.
  - rewrite or_byte_loop_range. apply or_288_range.
  - unfold __ext_v_or.
    destruct inlen1 as [|p|p]; try reflexivity.
    repeat (destruct p as [p|p|]; try reflexivity; try congruence).
Qed.

End OrFacts.


Lemma byte_loop_bound inlen1 :
  is_int32 (inlen1 + 7) ->
  Z.max 0 (div_int (add_int inlen1 7) 8) = Z.max 0 (ceil_div8 inlen1).
Proof.
  intros H. unfold add_int, div_int, ceil_div8. rewrite int32_of_id by assumption.
  destruct (Z_lt_ge_dec (inlen1 + 7) 0) as [Hn|Hp].
  - pose proof (Z.quot_opp_l (- (inlen1 + 7)) 8).
    assert (Z.quot (inlen1 + 7) 8 <= 0).
    { replace (inlen1 + 7) with (- (- (inlen1 + 7))) by lia.
      rewrite Z.quot_opp_l by lia.
      pose proof (Z.quot_pos (- (inlen1 + 7)) 8). lia. }
    assert ((inlen1 + 7) / 8 < 0) by (apply Z.div_lt_upper_bound; lia).
    lia.
  - now rewrite Z.quot_div_nonneg by lia.
Qed.

(** The OR dispatcher while [inlen1 + 7] stays within [int]: at a bit
    length of exactly 48, 96, 192 or 288 it takes the matching fast path,
    at any other length the byte loop; in both cases its output is the
    output of the byte loop, which holds [input1[i] | input2[i]] at every
    byte [i] below [ceil (inlen1 / 8)] and the old contents from there
    on. *)
Theorem or_dispatch_matches_byte_loop :
  forall (output input1 input2 : list Z) (outlen inlen1 inlen2 : Z),
    Forall is_unum8 input1 -> Forall is_unum8 input2 ->
    is_int32 inlen1 -> is_int32 (inlen1 + 7) ->
    ceil_div8 inlen1 <= Z.of_nat (length output) ->
    ceil_div8 inlen1 <= Z.of_nat (length input1) ->
    ceil_div8 inlen1 <= Z.of_nat (length input2) ->
    let out := __ext_v_or output outlen input1 inlen1 input2 inlen2 in
    (inlen1 = 48 -> out = __ext_v_or_48 output input1 input2 0)
    /\ (inlen1 = 96 -> out = __ext_v_or_96 output input1 input2 0)
    /\ (inlen1 = 192 -> out = __ext_v_or_192 output input1 input2 0)
    /\ (inlen1 = 288 -> out = __ext_v_or_288 output input1 input2 0)
    /\ out = or_byte_loop output input1 inlen1 input2
    /\ length out = length output
    /\ (forall i, 0 <= i < ceil_div8 inlen1 ->
          rdZ out i = Z.lor (rdZ input1 i) (rdZ input2 i))
    /\ (forall i, ceil_div8 inlen1 <= i -> rdZ out i = rdZ output i).
Proof.
  intros output input1 input2 outlen inlen1 inlen2 wf1 wf2 Hlen Hlen7 Ho H1 H2 out.
  assert (E : out = or_byte_loop output input1 inlen1 input2)
    by (apply or_dispatch_eq_byte_loop; assumption).
  repeat match goal with |- _ /\ _ => split end;
    try (intros ->; reflexivity); try exact E.
  all: pose proof (byte_loop_bound inlen1 Hlen7) as Hb.
  all: rewrite E; unfold or_byte_loop.
  all: match goal with
       | |- context [for_loop 0 ?hi ?body ?o] =>
           assert (Hhi : hi <= Z.of_nat (length o)) by lia;
           destruct (for_loop_pointwise 0
                       (fun i => Z.lor (rdZ input1 i) (rdZ input2 i)) 0 hi o
                       (Z.le_refl 0) Hhi) as [Hl Hr]
       end.
  - exact Hl.
  - intros i Hi. unfold rdZ at 1. rewrite Hr.
    destruct (Z.leb_spec 0 i), (Z.ltb_spec i (div_int (add_int inlen1 7) 8));
      simpl; auto; lia.
  - intros i Hi. unfold rdZ at 1. rewrite Hr.
    destruct (Z.leb_spec 0 i), (Z.ltb_spec i (div_int (add_int inlen1 7) 8));
      simpl; auto; lia.
Qed.

Lemma or_dispatch_matches_byte_loop_witness :
  let input1 := [1; 2; 4; 8; 16; 32; 64] in
  let input2 := [128; 2; 3; 0; 255; 1; 7] in
  let output := [0; 0; 0; 0; 0; 0; 99] in
  let out := __ext_v_or output 0 input1 48 input2 48 in
  (48 = 48 -> out = __ext_v_or_48 output input1 input2 0)
  /\ (48 = 96 -> out = __ext_v_or_96 output input1 input2 0)
  /\ (48 = 192 -> out = __ext_v_or_192 output input1 input2 0)
  /\ (48 = 288 -> out = __ext_v_or_288 output input1 input2 0)
  /\ out = or_byte_loop output input1 48 input2
  /\ length out = length output
  /\ (forall i, 0 <= i < ceil_div8 48 ->
        rdZ out i = Z.lor (rdZ input1 i) (rdZ input2 i))
  /\ (forall i, ceil_div8 48 <= i -> rdZ out i = rdZ output i).
Proof.
  intros input1 input2 output.
  apply (or_dispatch_matches_byte_loop output input1 input2 0 48 48).
  - repeat constructor; unfold is_unum8; lia.
  - repeat constructor; unfold is_unum8; lia.
  - unfold is_int32; lia.
  - unfold is_int32; lia.
  - vm_compute; discriminate.
  - vm_compute; discriminate.
  - vm_compute; discriminate.
Defined.

(** ** A vector loop followed by a remainder loop *)

Section VectorLoop.
Context {St : Type}.
Variables (w : nat) (vbody sbody : Z -> St -> St).
Hypothesis w_pos : (0 < w)%nat.

(** One iteration of the vector loop does what [w] iterations of the
    scalar loop do. *)
Hypothesis chunk :
  forall i s, 0 <= i -> vbody i s = for_iter w (Z.of_nat w * i) sbody s.

Lemma vector_iterations q :
  forall s, for_iter q 0 vbody s = for_iter (q * w) 0 sbody s.
Proof.
  induction q as [|q IH]; intros s; [reflexivity|].
  replace (S q) with (q + 1)%nat by lia.
  rewrite for_iter_app. cbn [for_iter]. rewrite IH.
  replace ((q + 1) * w)%nat with (q * w + w)%nat by lia.
  rewrite for_iter_app, chunk by lia.
  f_equal. lia.
Qed.

(** The two loops of a kernel together are the scalar loop over all [len]
    elements. *)
Lemma vector_then_remainder len s :
  for_loop (div_int len (Z.of_nat w) * Z.of_nat w) len sbody
    (for_loop 0 (div_int len (Z.of_nat w)) vbody s)
  = for_loop 0 len sbody s.
Proof.
  unfold div_int. destruct (Z_le_gt_dec len 0) as [Hn|Hp].
  - assert (Hq : Z.quot len (Z.of_nat w) <= 0).
    { replace len with (- (- len)) by lia. rewrite Z.quot_opp_l by lia.
      pose proof (Z.quot_pos (- len) (Z.of_nat w)). lia. }
    assert (Hm : len <= Z.quot len (Z.of_nat w) * Z.of_nat w).
    { pose proof (Z.quot_rem' len (Z.of_nat w)).
      pose proof (Z.rem_nonpos len (Z.of_nat w)). lia. }
    now rewrite !for_loop_empty by lia.
  - rewrite Z.quot_div_nonneg by lia.
    pose proof (Z_div_mod_eq_full len (Z.of_nat w)) as Hdm.
    pose proof (Z.mod_pos_bound len (Z.of_nat w)) as Hmod.
    assert (0 <= len / Z.of_nat w) by (apply Z.div_pos; lia).
    unfold for_loop. rewrite !Z.sub_0_r.
    rewrite vector_iterations.
    replace (Z.to_nat len)
      with (Z.to_nat (len / Z.of_nat w) * w
            + Z.to_nat (len - len / Z.of_nat w * Z.of_nat w))%nat by nia.
    rewrite for_iter_app. f_equal. nia.
Qed.

End VectorLoop.

(** Four and eight iterations, spelled out. *)
Lemma for_iter_4 {St : Type} (body : Z -> St -> St) j s :
  for_iter 4 j body s = body (j + 3) (body (j + 2) (body (j + 1) (body j s))).
Proof.
  cbn [for_iter].
  now replace (j + 1 + 1) with (j + 2) by lia; replace (j + 2 + 1) with (j + 3) by lia.
Qed.

Lemma for_iter_2 {St : Type} (body : Z -> St -> St) j s :
  for_iter 2 j body s = body (j + 1) (body j s).
Proof. reflexivity. Qed.

Lemma for_iter_8 {St : Type} (body : Z -> St -> St) j s :
  for_iter 8 j body s
  = body (j + 7) (body (j + 6) (body (j + 5) (body (j + 4)
      (body (j + 3) (body (j + 2) (body (j + 1) (body j s))))))).
Proof.
  change 8%nat with (4 + 4)%nat. rewrite for_iter_app, !for_iter_4.
  change (Z.of_nat 4) with 4.
  now replace (j + 4 + 1) with (j + 5) by lia; replace (j + 4 + 2) with (j + 6) by lia;
    replace (j + 4 + 3) with (j + 7) by lia.
Qed.

(** ** Lanes *)

Lemma unum16_of_range v : 0 <= unum16_of v < 65536.
Proof. apply Z.mod_pos_bound. lia. Qed.

Lemma unum32_of_range v : 0 <= unum32_of v < 4294967296.
Proof. apply Z.mod_pos_bound. lia. Qed.

Lemma lo16_mk32 a b : lo16 (mk32 a b) = unum16_of a.
Proof.
  unfold lo16, mk32. pose proof (unum16_of_range a).
  replace (unum16_of a + 65536 * unum16_of b) with (unum16_of a + unum16_of b * 65536) by lia.
  rewrite Z_mod_plus_full. apply Z.mod_small. assumption.
Qed.

Lemma hi16_mk32 a b : hi16 (mk32 a b) = unum16_of b.
Proof.
  unfold hi16, mk32. pose proof (unum16_of_range a). pose proof (unum16_of_range b).
  replace (unum16_of a + 65536 * unum16_of b) with (unum16_of a + unum16_of b * 65536) by lia.
  rewrite Z_div_plus_full by lia. rewrite (Z.div_small (unum16_of a)) by assumption.
  apply Z.mod_small. lia.
Qed.

Lemma int16_of_unum16_of v : int16_of (unum16_of v) = int16_of v.
Proof.
  destruct (unum16_of_decomp v) as [k E]. rewrite E. now apply int16_of_eqm with (k := k).
Qed.

Lemma int32_of_unum32_of v : int32_of (unum32_of v) = int32_of v.
Proof.
  destruct (unum32_of_decomp v) as [k E]. rewrite E. now apply int32_of_eqm with (k := k).
Qed.

Lemma slo16_mk32 a b : slo16 (mk32 a b) = int16_of a.
Proof. unfold slo16. now rewrite lo16_mk32, int16_of_unum16_of. Qed.

Lemma shi16_mk32 a b : shi16 (mk32 a b) = int16_of b.
Proof. unfold shi16. now rewrite hi16_mk32, int16_of_unum16_of. Qed.

(** Sixteen-bit and 32-bit lanes add and subtract like the scalar code. *)
Lemma int16_of_add_lanes a b :
  int16_of (unum16_of a + unum16_of b) = int16_of (add_int a b).
Proof.
  unfold add_int.
  destruct (unum16_of_decomp a) as [k1 E1], (unum16_of_decomp b) as [k2 E2],
    (int32_of_decomp (a + b)) as [k3 E3].
  rewrite E1, E2, E3.
  apply int16_of_eqm with (k := k1 + k2 - 65536 * k3). lia.
Qed.

Lemma int16_of_sub_lanes a b :
  int16_of (unum16_of a - unum16_of b) = int16_of (sub_int a b).
Proof.
  unfold sub_int.
  destruct (unum16_of_decomp a) as [k1 E1], (unum16_of_decomp b) as [k2 E2],
    (int32_of_decomp (a - b)) as [k3 E3].
  rewrite E1, E2, E3.
  apply int16_of_eqm with (k := k1 - k2 - 65536 * k3). lia.
Qed.

Lemma int32_of_add_lanes a b :
  int32_of (unum32_of (unum32_of a + unum32_of b)) = add_int a b.
Proof.
  unfold add_int. rewrite int32_of_unum32_of.
  destruct (unum32_of_decomp a) as [k1 E1], (unum32_of_decomp b) as [k2 E2].
  rewrite E1, E2. apply int32_of_eqm with (k := k1 + k2). lia.
Qed.

Lemma int32_of_sub_lanes a b :
  int32_of (unum32_of (unum32_of a - unum32_of b)) = sub_int a b.
Proof.
  unfold sub_int. rewrite int32_of_unum32_of.
  destruct (unum32_of_decomp a) as [k1 E1], (unum32_of_decomp b) as [k2 E2].
  rewrite E1, E2. apply int32_of_eqm with (k := k1 - k2). lia.
Qed.

(** ** Addition and subtraction: both loops against the scalar loop *)


Ltac unfold_lanes :=
  unfold storeu_complex16, loadu_complex16, storeu_complex32, loadu_complex32,
    storeu_int16, loadu_int16, storeu_int32, loadu_int32,
    _mm_add_epi16, _mm_sub_epi16, _mm_add_epi32, _mm_sub_epi32,
    lanes2, lanes, unpack_complex16, pack_complex16;
  cbn [w0 w1 w2 w3].

Ltac lane_arith :=
  rewrite ?lo16_mk32, ?hi16_mk32, ?slo16_mk32, ?shi16_mk32,
    ?int16_of_add_lanes, ?int16_of_sub_lanes, ?int32_of_add_lanes, ?int32_of_sub_lanes.

Theorem add_complex16_is_scalar c len a u2 b u1 :
  __ext_v_add_complex16 c len a u2 b u1 = (scalar_complex16 add_int c len a b, 0).
Proof.
  unfold __ext_v_add_complex16, scalar_complex16. f_equal.
  apply (vector_then_remainder 4); [lia|]. intros i s _.
  rewrite for_iter_4, !set_im_set_re. change (Z.of_nat 4) with 4.
  unfold_lanes. lane_arith. reflexivity.
Qed.

Theorem sub_complex16_is_scalar c len a u2 b u1 :
  __ext_v_sub_complex16 c len a u2 b u1 = (scalar_complex16 sub_int c len a b, 0).
Proof.
  unfold __ext_v_sub_complex16, scalar_complex16. f_equal.
  apply (vector_then_remainder 4); [lia|]. intros i s _.
  rewrite for_iter_4, !set_im_set_re. change (Z.of_nat 4) with 4.
  unfold_lanes. lane_arith. reflexivity.
Qed.

Theorem add_complex32_is_scalar c len a u2 b u1 :
  __ext_v_add_complex32 c len a u2 b u1 = (scalar_complex32 add_int c len a b, 0).
Proof.
  unfold __ext_v_add_complex32, scalar_complex32. f_equal.
  apply (vector_then_remainder 2); [lia|]. intros i s _.
  rewrite for_iter_2, !set_im_set_re. change (Z.of_nat 2) with 2.
  unfold_lanes. lane_arith. reflexivity.
Qed.

Theorem sub_complex32_is_scalar c len a u2 b u1 :
  __ext_v_sub_complex32 c len a u2 b u1 = (scalar_complex32 sub_int c len a b, 0).
Proof.
  unfold __ext_v_sub_complex32, scalar_complex32. f_equal.
  apply (vector_then_remainder 2); [lia|]. intros i s _.
  rewrite for_iter_2, !set_im_set_re. change (Z.of_nat 2) with 2.
  unfold_lanes. lane_arith. reflexivity.
Qed.

Theorem add_int16_is_scalar c len a u2 b u1 :
  __ext_v_add_int16 c len a u2 b u1 = (scalar_int16 add_int c len a b, 0).
Proof.
  unfold __ext_v_add_int16, scalar_int16. f_equal.
  apply (vector_then_remainder 8); [lia|]. intros i s _.
  rewrite for_iter_8. change (Z.of_nat 8) with 8.
  unfold_lanes. lane_arith. reflexivity.
Qed.

Theorem sub_int16_is_scalar c len a u2 b u1 :
  __ext_v_sub_int16 c len a u2 b u1 = (scalar_int16 sub_int c len a b, 0).
Proof.
  unfold __ext_v_sub_int16, scalar_int16. f_equal.
  apply (vector_then_remainder 8); [lia|]. intros i s _.
  rewrite for_iter_8. change (Z.of_nat 8) with 8.
  unfold_lanes. lane_arith. reflexivity.
Qed.

Theorem add_int32_is_scalar c len a u2 b u1 :
  __ext_v_add_int32 c len a u2 b u1 = (scalar_int32 add_int c len a b, 0).
Proof.
  unfold __ext_v_add_int32, scalar_int32. f_equal.
  apply (vector_then_remainder 4); [lia|]. intros i s _.
  rewrite for_iter_4. change (Z.of_nat 4) with 4.
  unfold_lanes. lane_arith. reflexivity.
Qed.

Theorem sub_int32_is_scalar c len a u2 b u1 :
  __ext_v_sub_int32 c len a u2 b u1 = (scalar_int32 sub_int c len a b, 0).
Proof.
  unfold __ext_v_sub_int32, scalar_int32. f_equal.
  apply (vector_then_remainder 4); [lia|]. intros i s _.
  rewrite for_iter_4. change (Z.of_nat 4) with 4.
  unfold_lanes. lane_arith. reflexivity.
Qed.

(** ** Shifts: both loops against the scalar loop *)

Lemma int16_of_int32_of v : int16_of (int32_of v) = int16_of v.
Proof.
  destruct (int32_of_decomp v) as [k E]. rewrite E.
  apply int16_of_eqm with (k := 65536 * k). lia.
Qed.

Lemma shl_lane16 v c : 0 <= c -> int16_of (Z.shiftl (unum16_of v) c) = int16_of (shl_int v c).
Proof.
  intros Hc. unfold shl_int. rewrite int16_of_int32_of, !Z.shiftl_mul_pow2 by lia.
  destruct (unum16_of_decomp v) as [k E]. rewrite E.
  apply int16_of_eqm with (k := k * 2 ^ c). ring.
Qed.

Lemma shl_lane16_wide v c : 16 <= c -> int16_of (shl_int v c) = 0.
Proof.
  intros Hc. unfold shl_int. rewrite int16_of_int32_of, Z.shiftl_mul_pow2 by lia.
  replace c with (16 + (c - 16)) by lia. rewrite Z.pow_add_r by lia.
  change (2 ^ 16) with 65536.
  apply (int16_of_eqm _ 0 (v * 2 ^ (c - 16))). ring.
Qed.

Lemma shl_lane32 v c : 0 <= c -> int32_of (unum32_of (Z.shiftl (unum32_of v) c)) = shl_int v c.
Proof.
  intros Hc. unfold shl_int. rewrite int32_of_unum32_of, !Z.shiftl_mul_pow2 by lia.
  destruct (unum32_of_decomp v) as [k E]. rewrite E.
  apply int32_of_eqm with (k := k * 2 ^ c). ring.
Qed.

(** The arithmetic right shift keeps a value within its type, and from
    the sign bit on no longer depends on the count. *)
Lemma shiftr_bounds v c lo hi :
  0 <= c -> lo <= 0 -> 0 < hi -> lo <= v < hi -> lo <= Z.shiftr v c < hi.
Proof.
  intros Hc Hlo Hhi Hv. rewrite Z.shiftr_div_pow2 by lia.
  assert (Hp : 0 < 2 ^ c) by (apply Z.pow_pos_nonneg; lia).
  destruct (Z_lt_ge_dec v 0) as [Hn|Hp0].
  - assert (v / 2 ^ c < 0) by (apply Z.div_lt_upper_bound; lia).
    assert (lo <= v / 2 ^ c); [|lia].
    apply Z.div_le_lower_bound; nia.
  - assert (0 <= v / 2 ^ c) by (apply Z.div_pos; lia).
    assert (v / 2 ^ c <= v); [|lia].
    apply Z.div_le_upper_bound; nia.
Qed.

Lemma shiftr_saturates v n c :
  0 <= n <= c -> - 2 ^ n <= v < 2 ^ n -> Z.shiftr v c = Z.shiftr v n.
Proof.
  intros Hc Hv. rewrite !Z.shiftr_div_pow2 by lia.
  assert (Hn : 0 < 2 ^ n) by (apply Z.pow_pos_nonneg; lia).
  assert (Hle : 2 ^ n <= 2 ^ c) by (apply Z.pow_le_mono_r; lia).
  destruct (Z_lt_ge_dec v 0) as [Hneg|Hpos].
  - assert (E1 : v / 2 ^ c = -1)
      by (symmetry; apply Z.div_unique with (r := v + 2 ^ c); lia).
    assert (E2 : v / 2 ^ n = -1)
      by (symmetry; apply Z.div_unique with (r := v + 2 ^ n); lia).
    congruence.
  - rewrite !Z.div_small by lia. reflexivity.
Qed.

Lemma shr_lane16 v c :
  is_int16 v -> 0 <= c ->
  int16_of (Z.shiftr (int16_of v) (if in_count c 15 then c else 15)) = int16_of (shr_int v c).
Proof.
  intros Hv Hc. rewrite (int16_of_id v) by assumption. unfold shr_int, in_count.
  destruct (Z.leb_spec 0 c), (Z.leb_spec c 15); simpl; try lia.
  f_equal. symmetry. apply shiftr_saturates; [lia|]. exact Hv.
Qed.

Lemma shr_lane32 v c :
  is_int32 v -> 0 <= c < 32 ->
  int32_of (unum32_of (Z.shiftr (int32_of (unum32_of v)) (if in_count c 31 then c else 31)))
    = shr_int v c.
Proof.
  intros Hv Hc. rewrite !int32_of_unum32_of, (int32_of_id v) by assumption.
  unfold shr_int, in_count.
  destruct (Z.leb_spec 0 c), (Z.leb_spec c 31); simpl; try lia.
  apply int32_of_id. unfold is_int32 in *. apply shiftr_bounds; lia.
Qed.

Lemma rdZ_int16 p i : Forall is_int16 p -> is_int16 (rdZ p i).
Proof.
  intros H. unfold rdZ, rd. destruct (i <? 0); [unfold is_int16; lia|].
  destruct (nth_in_or_default (Z.to_nat i) p 0) as [Hin | ->].
  - rewrite Forall_forall in H. now apply H.
  - unfold is_int16; lia.
Qed.

Lemma rdZ_int32 p i : Forall is_int32 p -> is_int32 (rdZ p i).
Proof.
  intros H. unfold rdZ, rd. destruct (i <? 0); [unfold is_int32; lia|].
  destruct (nth_in_or_default (Z.to_nat i) p 0) as [Hin | ->].
  - rewrite Forall_forall in H. now apply H.
  - unfold is_int32; lia.
Qed.


Ltac unfold_shift_lanes :=
  unfold storeu_complex16, loadu_complex16, storeu_complex32, loadu_complex32,
    storeu_int16, loadu_int16, storeu_int32, loadu_int32,
    _mm_srai_epi16, _mm_srai_epi32, lanes, unpack_complex16, pack_complex16;
  cbn [w0 w1 w2 w3].

Theorem shift_right_int16_is_scalar z u3 x len shift :
  Forall is_int16 x -> 0 <= shift < 32 ->
  __ext_v_shift_right_int16 z u3 x len shift
    = (scalar_shift_int16 shr_int z x len shift, 0).
Proof.
  intros Hx Hs. unfold __ext_v_shift_right_int16, scalar_shift_int16. f_equal.
  apply (vector_then_remainder 8); [lia|]. intros i s _.
  rewrite for_iter_8. change (Z.of_nat 8) with 8.
  unfold_shift_lanes. rewrite !slo16_mk32, !shi16_mk32.
  rewrite !shr_lane16 by (try apply rdZ_int16; auto; lia).
  reflexivity.
Qed.

Theorem shift_right_int32_is_scalar z u3 x len shift :
  Forall is_int32 x -> 0 <= shift < 32 ->
  __ext_v_shift_right_int32 z u3 x len shift
    = (scalar_shift_int32 shr_int z x len shift, 0).
Proof.
  intros Hx Hs. unfold __ext_v_shift_right_int32, scalar_shift_int32. f_equal.
  apply (vector_then_remainder 4); [lia|]. intros i s _.
  rewrite for_iter_4. change (Z.of_nat 4) with 4.
  unfold_shift_lanes.
  rewrite !shr_lane32 by (try apply rdZ_int32; auto; lia).
  reflexivity.
Qed.

Theorem shift_left_int16_is_scalar z u3 x len shift :
  0 <= shift < 32 ->
  __ext_v_shift_left_int16 z u3 x len shift
    = (scalar_shift_int16 shl_int z x len shift, 0).
Proof.
  intros Hs. unfold __ext_v_shift_left_int16, scalar_shift_int16. f_equal.
  apply (vector_then_remainder 8); [lia|]. intros i s _.
  rewrite for_iter_8. change (Z.of_nat 8) with 8.
  unfold _mm_slli_epi16, in_count.
  destruct (Z.leb_spec 0 shift); [|lia]. destruct (Z.leb_spec shift 15); cbn [andb].
  - unfold storeu_int16, loadu_int16, lanes; cbn [w0 w1 w2 w3].
    rewrite !slo16_mk32, !shi16_mk32, !lo16_mk32, !hi16_mk32.
    rewrite !shl_lane16 by lia. reflexivity.
  - unfold storeu_int16; cbn [w0 w1 w2 w3].
    rewrite !shl_lane16_wide by lia. reflexivity.
Qed.

Theorem shift_left_int32_is_scalar z u3 x len shift :
  0 <= shift < 32 ->
  __ext_v_shift_left_int32 z u3 x len shift
    = (scalar_shift_int32 shl_int z x len shift, 0).
Proof.
  intros Hs. unfold __ext_v_shift_left_int32, scalar_shift_int32. f_equal.
  apply (vector_then_remainder 4); [lia|]. intros i s _.
  rewrite for_iter_4. change (Z.of_nat 4) with 4.
  unfold _mm_slli_epi32, in_count.
  destruct (Z.leb_spec 0 shift); [|lia]. destruct (Z.leb_spec shift 31); [|lia].
  cbn [andb]. unfold storeu_int32, loadu_int32, lanes; cbn [w0 w1 w2 w3].
  rewrite !shl_lane32 by lia. reflexivity.
Qed.

(** *** Complex buffers seen as buffers of components *)

Lemma rd_comp_even x j : 0 <= j -> rd_comp x (2 * j) = re (rdC x j).
Proof.
  intros Hj. unfold rd_comp.
  rewrite Z.mul_comm, Z.quot_mul by lia.
  now rewrite Z.even_mul, Bool.orb_true_r.
Qed.

Lemma rd_comp_odd x j : 0 <= j -> rd_comp x (2 * j + 1) = im (rdC x j).
Proof.
  intros Hj. unfold rd_comp.
  rewrite Z.quot_div_nonneg by lia.
  replace ((2 * j + 1) / 2) with j
    by (apply Z.div_unique with (r := 1); lia).
  replace (2 * j + 1) with (1 + 2 * j) by lia.
  now rewrite Z.even_add_mul_2.
Qed.










(** ** Sixteen-bit lanes of a word, bit by bit *)

Lemma testbit_above v k n : 0 <= v < 2 ^ k -> 0 <= k <= n -> Z.testbit v n = false.
Proof.
  intros Hv Hk. rewrite <- (Z.mod_small v (2 ^ k)) by assumption.
  apply Z.mod_pow2_bits_high. lia.
Qed.

(** A 16-bit value below a value shifted by sixteen bits. *)
Lemma lor_low16_shiftl a v : 0 <= a < 65536 -> Z.lor a (Z.shiftl v 16) = a + 65536 * v.
Proof.
  intros Ha. rewrite Z.shiftl_mul_pow2 by lia. change (2 ^ 16) with 65536.
  rewrite <- Z.lxor_lor, <- Z.add_nocarry_lxor; try lia.
  all: rewrite <- Z.shiftl_mul_pow2 with (n := 16) by lia.
  all: apply Z.bits_inj'; intros n Hn; rewrite Z.bits_0, Z.land_spec.
  all: destruct (Z_lt_ge_dec n 16);
    [ rewrite Z.shiftl_spec_low by lia; now rewrite andb_false_r
    | rewrite (testbit_above a 16 n) by (change (2 ^ 16) with 65536; lia);
      reflexivity ].
Qed.

(** Flipping the sixteen bits of a 16-bit value. *)
Lemma lxor_ones16 b : 0 <= b < 65536 -> Z.lxor b 65535 = 65535 - b.
Proof.
  intros Hb.
  transitivity (Z.land (Z.lnot b) (Z.ones 16)).
  - apply Z.bits_inj'. intros n Hn.
    rewrite Z.lxor_spec, Z.land_spec, Z.lnot_spec by assumption.
    change 65535 with (Z.ones 16).
    destruct (Z_lt_ge_dec n 16).
    + rewrite Z.ones_spec_low by lia. now rewrite xorb_true_r, andb_true_r.
    + rewrite Z.ones_spec_high by lia.
      rewrite (testbit_above b 16 n) by (change (2 ^ 16) with 65536; lia).
      reflexivity.
  - rewrite Z.land_ones by lia. change (2 ^ 16) with 65536.
    replace (Z.lnot b) with (65535 - b + (-1) * 65536) by (unfold Z.lnot; lia).
    rewrite Z_mod_plus_full. apply Z.mod_small. lia.
Qed.

(** [xor] with [0xFFFF0000] flips the high lane and keeps the low one. *)
Lemma lxor_high_lane a b :
  0 <= a < 65536 -> 0 <= b < 65536 ->
  Z.lxor (a + 65536 * b) 4294901760 = a + 65536 * (65535 - b).
Proof.
  intros Ha Hb. rewrite <- (lxor_ones16 b) by assumption.
  rewrite <- !lor_low16_shiftl by assumption.
  change 4294901760 with (Z.shiftl 65535 16).
  apply Z.bits_inj'. intros n Hn.
  rewrite Z.lxor_spec, !Z.lor_spec.
  destruct (Z_lt_ge_dec n 16).
  - rewrite !Z.shiftl_spec_low by lia. now rewrite xorb_false_r.
  - rewrite !Z.shiftl_spec by lia. rewrite Z.lxor_spec.
    rewrite (testbit_above a 16 n) by (change (2 ^ 16) with 65536; lia).
    reflexivity.
Qed.

(** The two instructions that negate the high lane: [xor] with
    [0xFFFF0000], then a 32-bit addition of [0x00010000]. *)
Lemma negate_high_lane lo hi :
  unum32_of (Z.lxor (mk32 lo hi) (unum32_of 0xFFFF0000) + unum32_of 0x00010000)
    = mk32 lo (- hi).
Proof.
  change (unum32_of 0xFFFF0000) with 4294901760.
  change (unum32_of 0x00010000) with 65536.
  unfold mk32. pose proof (unum16_of_range lo) as Hlo.
  pose proof (unum16_of_range hi) as Hhi.
  rewrite lxor_high_lane by assumption.
  destruct (Z.eq_dec (unum16_of hi) 0) as [E|E].
  - assert (E' : unum16_of (- hi) = 0).
    { unfold unum16_of in *. apply Z.mod_divide in E; [|lia].
      apply Z.mod_divide; [lia|]. now apply Z.divide_opp_r. }
    rewrite E, E'. unfold unum32_of.
    replace (unum16_of lo + 65536 * (65535 - 0) + 65536)
      with (unum16_of lo + 1 * 4294967296) by lia.
    rewrite Z_mod_plus_full, Z.mod_small; lia.
  - assert (E' : unum16_of (- hi) = 65536 - unum16_of hi).
    { unfold unum16_of in *. rewrite Z.mod_opp_l_nz; lia. }
    rewrite E'. unfold unum32_of. rewrite Z.mod_small; lia.
Qed.

(** [_MM_SHUFFLE(2, 3, 0, 1)] swaps the two lanes of each word of its half. *)
Lemma shuffle_half_swap u v :
  shuffle_half u v (_MM_SHUFFLE 2 3 0 1) = (mk32 (hi16 u) (lo16 u), mk32 (hi16 v) (lo16 v)).
Proof. reflexivity. Qed.

(** Mask the real part, mask and move up the imaginary part, and join. *)
Lemma merge_lanes p q :
  Z.lor (Z.land (unum32_of p) (unum32_of 0x0000FFFF))
        (unum32_of (Z.shiftl (Z.land (unum32_of q) (unum32_of 0x0000FFFF)) 16))
  = mk32 p q.
Proof.
  change (unum32_of 0x0000FFFF) with (Z.ones 16).
  rewrite !Z.land_ones by lia. change (2 ^ 16) with 65536.
  assert (Hm : forall v, unum32_of v mod 65536 = unum16_of v).
  { intros v. unfold unum32_of, unum16_of.
    change 4294967296 with (65536 * 65536).
    rewrite Z.rem_mul_r by lia.
    replace (v mod 65536 + 65536 * ((v / 65536) mod 65536))
      with (v mod 65536 + ((v / 65536) mod 65536) * 65536) by lia.
    rewrite Z_mod_plus_full. apply Z.mod_mod. lia. }
  rewrite !Hm.
  pose proof (unum16_of_range p). pose proof (unum16_of_range q).
  rewrite Z.shiftl_mul_pow2 by lia. change (2 ^ 16) with 65536.
  unfold unum32_of at 1. rewrite Z.mod_small by lia.
  rewrite <- Z.shiftl_mul_pow2 with (n := 16) by lia.
  rewrite lor_low16_shiftl by assumption. reflexivity.
Qed.

(** ** Complex multiplication: both loops against the scalar loop *)


Lemma int16_of_opp v : is_int16 v -> negatable v -> int16_of (- v) = - v.
Proof. unfold is_int16, negatable. intros H Hn. apply int16_of_id. unfold is_int16. lia. Qed.

Lemma sub_int_mul a b c d :
  sub_int (mul_int a b) (mul_int c d) = int32_of (a * b - c * d).
Proof.
  unfold sub_int, mul_int.
  destruct (int32_of_decomp (a * b)) as [k1 E1], (int32_of_decomp (c * d)) as [k2 E2].
  rewrite E1, E2. apply int32_of_eqm with (k := k1 - k2). lia.
Qed.

Lemma add_int_mul a b c d :
  add_int (mul_int a b) (mul_int c d) = int32_of (a * b + c * d).
Proof.
  unfold add_int, mul_int.
  destruct (int32_of_decomp (a * b)) as [k1 E1], (int32_of_decomp (c * d)) as [k2 E2].
  rewrite E1, E2. apply int32_of_eqm with (k := k1 + k2). lia.
Qed.

Lemma in_count_31 shift : 0 <= shift < 32 -> (if in_count shift 31 then shift else 31) = shift.
Proof.
  intros H. unfold in_count.
  destruct (Z.leb_spec 0 shift), (Z.leb_spec shift 31); simpl; lia.
Qed.

Lemma rdC_wf16 p i : Forall wf_complex16 p -> wf_complex16 (rdC p i).
Proof.
  intros H. unfold rdC, rd. destruct (i <? 0); [unfold wf_complex16, is_int16; simpl; lia|].
  destruct (nth_in_or_default (Z.to_nat i) p czero) as [Hin | ->].
  - rewrite Forall_forall in H. now apply H.
  - unfold wf_complex16, is_int16; simpl; lia.
Qed.

Lemma rdC_negatable_im p i :
  Forall (fun c => negatable (im c)) p -> negatable (im (rdC p i)).
Proof.
  intros H. unfold rdC, rd. destruct (i <? 0); [discriminate|].
  destruct (nth_in_or_default (Z.to_nat i) p czero) as [Hin | ->].
  - rewrite Forall_forall in H. now apply H.
  - discriminate.
Qed.

(** The word the vector loop of [multiply] computes from one element of
    [x] and one of [y]. *)
Lemma mul_word x y shift :
  wf_complex16 x -> wf_complex16 y -> negatable (im x) -> 0 <= shift < 32 ->
  let k := if in_count shift 31 then shift else 31 in
  let ms1 := unum32_of (Z.lxor (pack_complex16 x) (unum32_of 0xFFFF0000)
                        + unum32_of 0x00010000) in
  let ms2 := mk32 (hi16 (pack_complex16 x)) (lo16 (pack_complex16 x)) in
  let my := pack_complex16 y in
  let mre := unum32_of (Z.shiftr (int32_of (unum32_of
               (slo16 ms1 * slo16 my + shi16 ms1 * shi16 my))) k) in
  let mim := unum32_of (Z.shiftr (int32_of (unum32_of
               (slo16 ms2 * slo16 my + shi16 ms2 * shi16 my))) k) in
  unpack_complex16
    (Z.lor (Z.land mre (unum32_of 0x0000FFFF))
           (unum32_of (Z.shiftl (Z.land mim (unum32_of 0x0000FFFF)) 16)))
  = Cplx (int16_of (shr_int (sub_int (mul_int (re x) (re y)) (mul_int (im x) (im y))) shift))
         (int16_of (shr_int (add_int (mul_int (re x) (im y)) (mul_int (im x) (re y))) shift)).
Proof.
  intros [Hxr Hxi] [Hyr Hyi] Hneg Hs. cbv zeta.
  rewrite in_count_31 by assumption.
  unfold pack_complex16. rewrite negate_high_lane.
  rewrite merge_lanes. unfold unpack_complex16.
  rewrite !slo16_mk32, !shi16_mk32, !lo16_mk32, !hi16_mk32, !int16_of_unum16_of.
  rewrite !int32_of_unum32_of.
  rewrite int16_of_opp by assumption.
  rewrite (int16_of_id (re x)), (int16_of_id (im x)), (int16_of_id (re y)),
    (int16_of_id (im y)) by assumption.
  rewrite sub_int_mul, add_int_mul. unfold shr_int.
  f_equal; do 3 f_equal; ring.
Qed.

Ltac unfold_mul_lanes :=
  unfold _mm_shufflelo_epi16, _mm_shufflehi_epi16, _mm_slli_epi32;
  rewrite ?shuffle_half_swap;
  change (in_count 16 31) with true;
  cbv beta iota zeta delta
    [storeu_complex16 storeu_int32 loadu_complex16
     _mm_or_si128 _mm_and_si128 _mm_xor_si128 _mm_add_epi32
     _mm_srai_epi32 _mm_madd_epi16 _mm_set1_epi32 lanes2 lanes w0 w1 w2 w3].

Theorem mul_complex16_is_scalar out lenout x len1 y len2 shift :
  Forall wf_complex16 x -> Forall wf_complex16 y ->
  Forall (fun c => negatable (im c)) x ->
  0 <= shift < 32 ->
  __ext_v_mul_complex16 out lenout x len1 y len2 shift
    = (scalar_mul_complex16 out x len1 y shift, 0).
Proof.
  intros Hx Hy Hneg Hs. unfold __ext_v_mul_complex16, scalar_mul_complex16. f_equal.
  apply (vector_then_remainder 4); [lia|]. intros i s _.
  rewrite for_iter_4, !set_im_set_re. change (Z.of_nat 4) with 4.
  unfold_mul_lanes.
  pose proof (fun j => mul_word (rdC x j) (rdC y j) shift
                         (rdC_wf16 x j Hx) (rdC_wf16 y j Hy)
                         (rdC_negatable_im x j Hneg) Hs) as E.
  cbv zeta in E. rewrite !E. reflexivity.
Qed.

(** The word the vector loop of [conjugateMultiply] computes. *)
Lemma conj_mul_word x y shift :
  wf_complex16 x -> wf_complex16 y -> negatable (im y) -> 0 <= shift < 32 ->
  let k := if in_count shift 31 then shift else 31 in
  let mx := pack_complex16 x in
  let my := pack_complex16 y in
  let neg := unum32_of (Z.lxor my (unum32_of 0xFFFF0000) + unum32_of 0x00010000) in
  let ms2 := mk32 (hi16 neg) (lo16 neg) in
  let mre := unum32_of (Z.shiftr (int32_of (unum32_of
               (slo16 my * slo16 mx + shi16 my * shi16 mx))) k) in
  let mim := unum32_of (Z.shiftr (int32_of (unum32_of
               (slo16 ms2 * slo16 mx + shi16 ms2 * shi16 mx))) k) in
  unpack_complex16
    (Z.lor (Z.land mre (unum32_of 0x0000FFFF))
           (unum32_of (Z.shiftl (Z.land mim (unum32_of 0x0000FFFF)) 16)))
  = Cplx (int16_of (shr_int (add_int (mul_int (re x) (re y)) (mul_int (im x) (im y))) shift))
         (int16_of (shr_int (sub_int (mul_int (im x) (re y)) (mul_int (re x) (im y))) shift)).
Proof.
  intros [Hxr Hxi] [Hyr Hyi] Hneg Hs. cbv zeta.
  rewrite in_count_31 by assumption.
  unfold pack_complex16. rewrite negate_high_lane.
  rewrite merge_lanes. unfold unpack_complex16.
  rewrite !slo16_mk32, !shi16_mk32, !lo16_mk32, !hi16_mk32, !int16_of_unum16_of.
  rewrite !int32_of_unum32_of.
  rewrite int16_of_opp by assumption.
  rewrite (int16_of_id (re x)), (int16_of_id (im x)), (int16_of_id (re y)),
    (int16_of_id (im y)) by assumption.
  rewrite sub_int_mul, add_int_mul. unfold shr_int.
  f_equal; do 3 f_equal; ring.
Qed.

Theorem conj_mul_complex16_is_scalar out lenout x len1 y len2 shift :
  Forall wf_complex16 x -> Forall wf_complex16 y ->
  Forall (fun c => negatable (im c)) y ->
  0 <= shift < 32 ->
  __ext_v_conj_mul_complex16 out lenout x len1 y len2 shift
    = (scalar_conj_mul_complex16 out x len1 y shift, 0).
Proof.
  intros Hx Hy Hneg Hs. unfold __ext_v_conj_mul_complex16, scalar_conj_mul_complex16.
  f_equal.
  apply (vector_then_remainder 4); [lia|]. intros i s _.
  rewrite for_iter_4, !set_im_set_re. change (Z.of_nat 4) with 4.
  unfold_mul_lanes.
  pose proof (fun j => conj_mul_word (rdC x j) (rdC y j) shift
                         (rdC_wf16 x j Hx) (rdC_wf16 y j Hy)
                         (rdC_negatable_im y j Hneg) Hs) as E.
  cbv zeta in E. rewrite !E. reflexivity.
Qed.

(** The two words of the 32-bit conjugate multiplication. *)
Lemma conj_mul_words_int32 x y :
  wf_complex16 x -> wf_complex16 y -> negatable (im y) ->
  let mx := pack_complex16 x in
  let my := pack_complex16 y in
  let neg := unum32_of (Z.lxor my (unum32_of 0xFFFF0000) + unum32_of 0x00010000) in
  let ms2 := mk32 (hi16 neg) (lo16 neg) in
  int32_of (unum32_of (slo16 my * slo16 mx + shi16 my * shi16 mx))
    = add_int (mul_int (re x) (re y)) (mul_int (im x) (im y))
  /\ int32_of (unum32_of (slo16 ms2 * slo16 mx + shi16 ms2 * shi16 mx))
    = sub_int (mul_int (im x) (re y)) (mul_int (re x) (im y)).
Proof.
  intros [Hxr Hxi] [Hyr Hyi] Hneg. cbv zeta.
  unfold pack_complex16. rewrite negate_high_lane.
  rewrite !slo16_mk32, !shi16_mk32, !lo16_mk32, !hi16_mk32, !int16_of_unum16_of.
  rewrite !int32_of_unum32_of.
  rewrite int16_of_opp by assumption.
  rewrite (int16_of_id (re x)), (int16_of_id (im x)), (int16_of_id (re y)),
    (int16_of_id (im y)) by assumption.
  rewrite sub_int_mul, add_int_mul.
  split; f_equal; ring.
Qed.

Theorem conj_mul_complex16_int32_is_scalar re_ lenout1 im_ lenout2 x len1 y len2 :
  Forall wf_complex16 x -> Forall wf_complex16 y ->
  Forall (fun c => negatable (im c)) y ->
  __ext_v_conj_mul_complex16_int32 re_ lenout1 im_ lenout2 x len1 y len2
    = (scalar_conj_mul_complex16_int32 re_ im_ x len1 y, 0).
Proof.
  intros Hx Hy Hneg.
  unfold __ext_v_conj_mul_complex16_int32, scalar_conj_mul_complex16_int32.
  match goal with
  | |- (let '(_, _) := for_loop 0 _ ?vb ?s in _) = (for_loop 0 _ ?sb _, _) =>
      assert (V : for_loop (div_int len1 4 * 4) len1 sb
                    (for_loop 0 (div_int len1 4) vb s) = for_loop 0 len1 sb s)
  end.
  { apply (vector_then_remainder 4); [lia|]. intros i [r m] _.
    rewrite for_iter_4. change (Z.of_nat 4) with 4.
    unfold_mul_lanes.
    pose proof (fun j => conj_mul_words_int32 (rdC x j) (rdC y j)
                           (rdC_wf16 x j Hx) (rdC_wf16 y j Hy)
                           (rdC_negatable_im y j Hneg)) as W.
    cbv zeta in W.
    rewrite !(proj1 (W _)), !(proj2 (W _)). reflexivity. }
  destruct (for_loop 0 (div_int len1 4) _ (re_, im_)) as [r1 i1].
  rewrite V. destruct (for_loop 0 len1 _ (re_, im_)). reflexivity.
Qed.

(** ** What the scalar loops leave in each element *)

Lemma for_loop_ext {St : Type} (f g : Z -> St -> St) lo hi s :
  (forall j t, lo <= j < hi -> f j t = g j t) ->
  for_loop lo hi f s = for_loop lo hi g s.
Proof.
  intros H. unfold for_loop. apply for_iter_ext. intros j t Hj. apply H. lia.
Qed.

(** A loop that assigns both fields of element [i] for [0 <= i < len]. *)
Lemma complex_loop_pointwise (f g : Z -> Z) len (p : list complex) :
  len <= Z.of_nat (length p) ->
  let q := for_loop 0 len (fun i p => set_im (set_re p i (f i)) i (g i)) p in
  length q = length p
  /\ (forall i, 0 <= i < len -> rdC q i = Cplx (f i) (g i))
  /\ (forall i, len <= i -> rdC q i = rdC p i).
Proof.
  intros Hlen q. subst q.
  rewrite (for_loop_ext _ (fun i p => wr p i (Cplx (f i) (g i))))
    by (intros; apply set_im_set_re).
  destruct (for_loop_pointwise czero (fun i => Cplx (f i) (g i)) 0 len p
              (Z.le_refl 0) Hlen) as [Hl Hr].
  split; [exact Hl|]. split; intros i Hi; unfold rdC; rewrite Hr.
  - destruct (Z.leb_spec 0 i), (Z.ltb_spec i len); simpl; auto; lia.
  - destruct (Z.leb_spec 0 i), (Z.ltb_spec i len); simpl; auto; lia.
Qed.

Lemma scalar_loop_pointwise (f : Z -> Z) len (p : list Z) :
  len <= Z.of_nat (length p) ->
  let q := for_loop 0 len (fun i p => wr p i (f i)) p in
  length q = length p
  /\ (forall i, 0 <= i < len -> rdZ q i = f i)
  /\ (forall i, len <= i -> rdZ q i = rdZ p i).
Proof.
  intros Hlen q. subst q.
  destruct (for_loop_pointwise 0 f 0 len p (Z.le_refl 0) Hlen) as [Hl Hr].
  split; [exact Hl|]. split; intros i Hi; unfold rdZ; rewrite Hr.
  - destruct (Z.leb_spec 0 i), (Z.ltb_spec i len); simpl; auto; lia.
  - destruct (Z.leb_spec 0 i), (Z.ltb_spec i len); simpl; auto; lia.
Qed.

(** [multiply], element by element: the formula of the specification
    wherever no imaginary part of [x] is [-32768]. *)
Theorem mul_complex16_formula out lenout x len1 y len2 shift i :
  Forall wf_complex16 x -> Forall wf_complex16 y ->
  Forall (fun c => negatable (im c)) x ->
  0 <= shift < 32 ->
  len1 <= Z.of_nat (length out) -> 0 <= i < len1 ->
  rdC (fst (__ext_v_mul_complex16 out lenout x len1 y len2 shift)) i
    = Cplx (int16_of (Z.shiftr (ref_mul_re (rdC x i) (rdC y i)) shift))
           (int16_of (Z.shiftr (ref_mul_im (rdC x i) (rdC y i)) shift)).
Proof.
  intros Hx Hy Hneg Hs Hlen Hi.
  rewrite mul_complex16_is_scalar by assumption. cbn [fst].
  unfold scalar_mul_complex16.
  etransitivity.
  { exact (proj1 (proj2 (complex_loop_pointwise
      (fun i => int16_of (shr_int
         (sub_int (mul_int (re (rdC x i)) (re (rdC y i)))
                  (mul_int (im (rdC x i)) (im (rdC y i)))) shift))
      (fun i => int16_of (shr_int
         (add_int (mul_int (re (rdC x i)) (im (rdC y i)))
                  (mul_int (im (rdC x i)) (re (rdC y i)))) shift))
      len1 out Hlen)) i Hi). }
  cbv beta.
  unfold ref_mul_re, ref_mul_im, shr_int. now rewrite sub_int_mul, add_int_mul.
Qed.

(** [conjugateMultiply], element by element, wherever no imaginary part
    of [y] is [-32768]. *)
Theorem conj_mul_complex16_formula out lenout x len1 y len2 shift i :
  Forall wf_complex16 x -> Forall wf_complex16 y ->
  Forall (fun c => negatable (im c)) y ->
  0 <= shift < 32 ->
  len1 <= Z.of_nat (length out) -> 0 <= i < len1 ->
  rdC (fst (__ext_v_conj_mul_complex16 out lenout x len1 y len2 shift)) i
    = Cplx (int16_of (Z.shiftr (ref_conj_mul_re (rdC x i) (rdC y i)) shift))
           (int16_of (Z.shiftr (ref_conj_mul_im (rdC x i) (rdC y i)) shift)).
Proof.
  intros Hx Hy Hneg Hs Hlen Hi.
  rewrite conj_mul_complex16_is_scalar by assumption. cbn [fst].
  unfold scalar_conj_mul_complex16.
  etransitivity.
  { exact (proj1 (proj2 (complex_loop_pointwise
      (fun i => int16_of (shr_int
         (add_int (mul_int (re (rdC x i)) (re (rdC y i)))
                  (mul_int (im (rdC x i)) (im (rdC y i)))) shift))
      (fun i => int16_of (shr_int
         (sub_int (mul_int (im (rdC x i)) (re (rdC y i)))
                  (mul_int (re (rdC x i)) (im (rdC y i)))) shift))
      len1 out Hlen)) i Hi). }
  cbv beta.
  unfold ref_conj_mul_re, ref_conj_mul_im, shr_int. now rewrite sub_int_mul, add_int_mul.
Qed.

(** A loop over two buffers at once is a loop over each. *)
Lemma pair_loop_split (f g : Z -> Z) n :
  forall i (r m : list Z),
    for_iter n i (fun i '(r, m) => (wr r i (f i), wr m i (g i))) (r, m)
    = (for_iter n i (fun i r => wr r i (f i)) r,
       for_iter n i (fun i m => wr m i (g i)) m).
Proof.
  induction n as [|n IH]; intros i r m; cbn [for_iter]; [reflexivity|]. apply IH.
Qed.

(** The 32-bit conjugate multiplication, element by element, wherever no
    imaginary part of [y] is [-32768]; the sums of products are kept to
    32 bits. *)
Theorem conj_mul_complex16_int32_formula re_ lenout1 im_ lenout2 x len1 y len2 i :
  Forall wf_complex16 x -> Forall wf_complex16 y ->
  Forall (fun c => negatable (im c)) y ->
  len1 <= Z.of_nat (length re_) -> len1 <= Z.of_nat (length im_) ->
  0 <= i < len1 ->
  let out := fst (__ext_v_conj_mul_complex16_int32 re_ lenout1 im_ lenout2 x len1 y len2) in
  rdZ (fst out) i = ref_conj_mul_re (rdC x i) (rdC y i)
  /\ rdZ (snd out) i = ref_conj_mul_im (rdC x i) (rdC y i).
Proof.
  intros Hx Hy Hneg Hre Him Hi.
  rewrite conj_mul_complex16_int32_is_scalar by assumption. cbn [fst].
  unfold scalar_conj_mul_complex16_int32, for_loop.
  rewrite (pair_loop_split
             (fun i => add_int (mul_int (re (rdC x i)) (re (rdC y i)))
                               (mul_int (im (rdC x i)) (im (rdC y i))))
             (fun i => sub_int (mul_int (im (rdC x i)) (re (rdC y i)))
                               (mul_int (re (rdC x i)) (im (rdC y i))))).
  cbn [fst snd].
  destruct (scalar_loop_pointwise
              (fun i => add_int (mul_int (re (rdC x i)) (re (rdC y i)))
                                (mul_int (im (rdC x i)) (im (rdC y i))))
              len1 re_ Hre) as [_ [H1 _]].
  destruct (scalar_loop_pointwise
              (fun i => sub_int (mul_int (im (rdC x i)) (re (rdC y i)))
                                (mul_int (re (rdC x i)) (im (rdC y i))))
              len1 im_ Him) as [_ [H2 _]].
  unfold for_loop in H1, H2. cbv zeta in H1, H2.
  rewrite H1, H2 by assumption.
  unfold ref_conj_mul_re, ref_conj_mul_im. now rewrite add_int_mul, sub_int_mul.
Qed.

(** The arithmetic right shift of [int16] and [int32] buffers, element by
    element. *)
Theorem shift_right_int16_arithmetic z u3 x len shift i :
  Forall is_int16 x -> 0 <= shift < 32 ->
  len <= Z.of_nat (length z) -> 0 <= i < len ->
  rdZ (fst (__ext_v_shift_right_int16 z u3 x len shift)) i = Z.shiftr (rdZ x i) shift.
Proof.
  intros Hx Hs Hlen Hi.
  rewrite shift_right_int16_is_scalar by assumption. cbn [fst].
  unfold scalar_shift_int16.
  destruct (scalar_loop_pointwise (fun i => int16_of (shr_int (rdZ x i) shift)) len z Hlen)
    as [_ [H _]].
  cbv zeta in H. rewrite H by assumption.
  apply int16_of_id. unfold shr_int, is_int16.
  apply shiftr_bounds; try lia. apply (rdZ_int16 x i Hx).
Qed.

Theorem shift_right_int32_arithmetic z u3 x len shift i :
  Forall is_int32 x -> 0 <= shift < 32 ->
  len <= Z.of_nat (length z) -> 0 <= i < len ->
  rdZ (fst (__ext_v_shift_right_int32 z u3 x len shift)) i = Z.shiftr (rdZ x i) shift.
Proof.
  intros Hx Hs Hlen Hi.
  rewrite shift_right_int32_is_scalar by assumption. cbn [fst].
  unfold scalar_shift_int32.
  destruct (scalar_loop_pointwise (fun i => shr_int (rdZ x i) shift) len z Hlen)
    as [_ [H _]].
  cbv zeta in H. now rewrite H by assumption.
Qed.

(** ** Sums *)


Section Accumulate.
Variable W : Z -> Z.
Hypothesis W_idem : forall v, W (W v) = W v.
Hypothesis W_add : forall a b, W (W a + b) = W (a + b).
Variable f : Z -> Z.

(** An accumulator truncated after every addition holds the truncated
    sum. *)
Lemma accumulate_wrapped n :
  forall i s, W s = s ->
    for_iter n i (fun i s => W (s + f i)) s = W (s + sum_from f i n).
Proof.
  induction n as [|n IH]; intros i s Hs; cbn [for_iter sum_from].
  - now rewrite Z.add_0_r.
  - rewrite IH by apply W_idem. rewrite W_add. f_equal. lia.
Qed.

End Accumulate.

Lemma int16_of_idem v : int16_of (int16_of v) = int16_of v.
Proof. apply int16_of_id, int16_of_range. Qed.

Lemma int32_of_idem v : int32_of (int32_of v) = int32_of v.
Proof. apply int32_of_id, int32_of_range. Qed.

Lemma int16_of_add_wrapped a b : int16_of (int16_of a + b) = int16_of (a + b).
Proof.
  destruct (int16_of_decomp a) as [k E]. rewrite E.
  apply int16_of_eqm with (k := k). lia.
Qed.

Lemma int32_of_add_wrapped a b : int32_of (int32_of a + b) = int32_of (a + b).
Proof.
  destruct (int32_of_decomp a) as [k E]. rewrite E.
  apply int32_of_eqm with (k := k). lia.
Qed.

Lemma rdZ_cons a x i : 0 <= i -> rdZ (a :: x) (i + 1) = rdZ x i.
Proof.
  intros Hi. unfold rdZ, rd.
  destruct (Z.ltb_spec (i + 1) 0), (Z.ltb_spec i 0); try lia.
  replace (Z.to_nat (i + 1)) with (S (Z.to_nat i)) by lia. reflexivity.
Qed.

Lemma sum_from_ext f g n :
  forall i, (forall j, i <= j -> f j = g j) -> sum_from f i n = sum_from g i n.
Proof.
  induction n as [|n IH]; intros i H; cbn [sum_from]; [reflexivity|].
  rewrite H by lia. f_equal. apply IH. intros j Hj. apply H. lia.
Qed.

Lemma sum_from_shift f n : forall i, sum_from f (i + 1) n = sum_from (fun j => f (j + 1)) i n.
Proof.
  induction n as [|n IH]; intros i; cbn [sum_from]; [reflexivity|].
  now rewrite IH.
Qed.

(** The sum of the first [n] elements of a buffer. *)
Lemma sum_from_firstn x :
  forall n, sum_from (rdZ x) 0 n = fold_right Z.add 0 (firstn n x).
Proof.
  induction x as [|a x IH]; intros n.
  - rewrite firstn_nil. cbn [fold_right].
    generalize 0 at 1. induction n as [|n IHn]; intros i; cbn [sum_from]; [reflexivity|].
    rewrite IHn. unfold rdZ, rd. destruct (i <? 0); [reflexivity|].
    now destruct (Z.to_nat i).
  - destruct n as [|n]; [reflexivity|].
    cbn [sum_from firstn fold_right]. change (rdZ (a :: x) 0) with a. f_equal.
    rewrite sum_from_shift, <- IH. apply sum_from_ext. intros j Hj.
    now apply rdZ_cons.
Qed.

(** The scalar sums return the truncated sum of the first [len] elements. *)
Theorem sum_int16_is_wrapped_sum x len :
  0 <= len < 4294967296 ->
  __ext_v_sum_int16 x len = int16_of (fold_right Z.add 0 (firstn (Z.to_nat len) x)).
Proof.
  intros Hlen. unfold __ext_v_sum_int16, for_loop, unum32_of.
  rewrite Z.mod_small, Z.sub_0_r by assumption.
  rewrite (for_iter_ext _ (fun i s => int16_of (s + rdZ x i)))
    by (intros; unfold add_int; apply int16_of_int32_of).
  rewrite (accumulate_wrapped int16_of int16_of_idem int16_of_add_wrapped) by reflexivity.
  now rewrite sum_from_firstn.
Qed.

Theorem sum_int32_is_wrapped_sum x len :
  0 <= len < 4294967296 ->
  __ext_v_sum_int32 x len = int32_of (fold_right Z.add 0 (firstn (Z.to_nat len) x)).
Proof.
  intros Hlen. unfold __ext_v_sum_int32, for_loop, unum32_of.
  rewrite Z.mod_small, Z.sub_0_r by assumption.
  change (fun (i : Z) (sum : Z) => add_int sum (rdZ x i))
    with (fun (i : Z) (s : Z) => int32_of (s + rdZ x i)).
  rewrite (accumulate_wrapped int32_of int32_of_idem int32_of_add_wrapped) by reflexivity.
  now rewrite sum_from_firstn.
Qed.

(** The four-element sums; [__ext_sumi16] returns the 16-bit sum, and so
    does [__ext_sumi32]. *)
Theorem sumi16_is_wrapped_sum x u :
  __ext_sumi16 x u = int16_of (rdZ x 0 + rdZ x 1 + rdZ x 2 + rdZ x 3).
Proof.
  unfold __ext_sumi16, for_loop. change (Z.to_nat (4 - 0)) with 4%nat.
  rewrite (for_iter_ext _ (fun i s => int16_of (s + rdZ x i)))
    by (intros; unfold add_int; apply int16_of_int32_of).
  rewrite (accumulate_wrapped int16_of int16_of_idem int16_of_add_wrapped) by reflexivity.
  cbn [sum_from]. f_equal. change (0 + 1) with 1. change (1 + 1) with 2.
  change (2 + 1) with 3. lia.
Qed.

Theorem sumi32_is_16_bit_sum x u :
  __ext_sumi32 x u = int16_of (rdZ x 0 + rdZ x 1 + rdZ x 2 + rdZ x 3).
Proof.
  unfold __ext_sumi32, for_loop. change (Z.to_nat (4 - 0)) with 4%nat.
  rewrite (for_iter_ext _ (fun i s => int16_of (s + rdZ x i)))
    by (intros; unfold add_int; apply int16_of_int32_of).
  rewrite (accumulate_wrapped int16_of int16_of_idem int16_of_add_wrapped) by reflexivity.
  cbn [sum_from]. f_equal. change (0 + 1) with 1. change (1 + 1) with 2.
  change (2 + 1) with 3. lia.
Qed.

Theorem sumc16_is_wrapped_sum x u :
  __ext_sumc16 x u
  = Cplx (int16_of (re (rdC x 0) + re (rdC x 1) + re (rdC x 2) + re (rdC x 3)))
         (int16_of (im (rdC x 0) + im (rdC x 1) + im (rdC x 2) + im (rdC x 3))).
Proof. unfold __ext_sumc16. now rewrite !int16_of_sum4. Qed.

Theorem sumc32_is_wrapped_sum x u :
  __ext_sumc32 x u
  = Cplx (int32_of (re (rdC x 0) + re (rdC x 1) + re (rdC x 2) + re (rdC x 3)))
         (int32_of (im (rdC x 0) + im (rdC x 1) + im (rdC x 2) + im (rdC x 3))).
Proof. unfold __ext_sumc32. now rewrite !int32_of_sum4. Qed.

(** The complex sums accumulate the two components side by side. *)
Lemma complex_accumulate (W : Z -> Z) (x : list complex) n :
  forall i a b,
    for_iter n i (fun i ret =>
      let ret := Cplx (W (re ret + re (rdC x i))) (im ret) in
      Cplx (re ret) (W (im ret + im (rdC x i)))) (Cplx a b)
    = Cplx (for_iter n i (fun i s => W (s + re (rdC x i))) a)
           (for_iter n i (fun i s => W (s + im (rdC x i))) b).
Proof.
  induction n as [|n IH]; intros i a b; cbn [for_iter re im]; [reflexivity|].
  apply IH.
Qed.

Theorem sum_complex16_is_wrapped_sum x len :
  __ext_v_sum_complex16 x len
  = Cplx (int16_of (sum_from (fun i => re (rdC x i)) 0 (Z.to_nat len)))
         (int16_of (sum_from (fun i => im (rdC x i)) 0 (Z.to_nat len))).
Proof.
  unfold __ext_v_sum_complex16, for_loop. rewrite Z.sub_0_r.
  rewrite (for_iter_ext _ (fun i ret =>
      let ret := Cplx (int16_of (re ret + re (rdC x i))) (im ret) in
      Cplx (re ret) (int16_of (im ret + im (rdC x i))))).
  - rewrite (complex_accumulate int16_of x).
    now rewrite !(accumulate_wrapped int16_of int16_of_idem int16_of_add_wrapped)
      by reflexivity.
  - intros j [a b] _. unfold add_int. cbn [re im]. now rewrite !int16_of_int32_of.
Qed.

Theorem sum_complex32_is_wrapped_sum x len :
  __ext_v_sum_complex32 x len
  = Cplx (int32_of (sum_from (fun i => re (rdC x i)) 0 (Z.to_nat len)))
         (int32_of (sum_from (fun i => im (rdC x i)) 0 (Z.to_nat len))).
Proof.
  unfold __ext_v_sum_complex32, for_loop. rewrite Z.sub_0_r.
  rewrite (for_iter_ext _ (fun i ret =>
      let ret := Cplx (int32_of (re ret + re (rdC x i))) (im ret) in
      Cplx (re ret) (int32_of (im ret + im (rdC x i)))))
    by reflexivity.
  rewrite (complex_accumulate int32_of x).
  now rewrite !(accumulate_wrapped int32_of int32_of_idem int32_of_add_wrapped)
    by reflexivity.
Qed.

(** ** The loops of the generic bitwise kernels run to their end *)

Section WhileFacts.
Context {St : Type}.
Variables (cond : St -> bool) (body : St -> St) (m : St -> Z).
Hypothesis decreases : forall s, cond s = true -> 0 < m s /\ m (body s) < m s.

(** With more fuel than the measure, the loop stops because its
    condition fails. *)
Lemma while_loop_exits fuel :
  forall s, m s < Z.of_nat fuel -> cond (while_loop fuel cond body s) = false.
Proof.
  induction fuel as [|fuel IH]; intros s Hm; cbn [while_loop].
  - destruct (cond s) eqn:E; [|reflexivity]. apply decreases in E. lia.
  - destruct (cond s) eqn:E; [|exact E]. apply IH. apply decreases in E. lia.
Qed.

Lemma while_loop_invariant (P : St -> Prop) fuel :
  (forall s, P s -> cond s = true -> P (body s)) ->
  forall s, P s -> P (while_loop fuel cond body s).
Proof.
  intros Hstep. induction fuel as [|fuel IH]; intros s Hs; cbn [while_loop]; auto.
  destruct (cond s) eqn:E; auto.
Qed.

End WhileFacts.

(** Both loops of a generic kernel stop because their condition fails, not
    because the unrolling ends: after the block loop fewer than sixteen
    bytes are left, after the byte loop none. *)
Lemma bitwise_kernel_completes vop sop output input1 inlen1 input2 :
  let n := bytelen inlen1 in
  let blocks :=
    while_loop (Z.to_nat (n + 1)) (fun '(cnt, _) => cnt + 16 <=? n)
      (fun '(cnt, output) =>
         (cnt + 16, storeu_bytes output cnt
                      (vop (loadu_bytes input1 cnt) (loadu_bytes input2 cnt))))
      (0, output) in
  n < fst blocks + 16
  /\ n <= fst (bitwise_kernel vop sop output input1 inlen1 input2).
Proof.
  unfold bitwise_kernel.
  set (n := bytelen inlen1).
  set (c1 := fun s : Z * list Z => let '(cnt, _) := s in cnt + 16 <=? n).
  set (b1 := fun s : Z * list Z => let '(cnt, output) := s in
               (cnt + 16, storeu_bytes output cnt
                            (vop (loadu_bytes input1 cnt) (loadu_bytes input2 cnt)))).
  set (c2 := fun s : Z * list Z => let '(cnt, _) := s in cnt <? n).
  set (b2 := fun s : Z * list Z => let '(cnt, output) := s in
               (cnt + 1, wr output cnt (sop (rdZ input1 cnt) (rdZ input2 cnt)))).
  set (s1 := while_loop (Z.to_nat (n + 1)) c1 b1 (0, output)).
  cbv zeta.
  assert (H1 : 0 <= fst s1).
  { apply (while_loop_invariant c1 b1 (fun s => 0 <= fst s)).
    - intros [cnt o] H _. simpl in *. lia.
    - simpl. lia. }
  assert (H2 : c1 s1 = false).
  { apply (while_loop_exits c1 b1 (fun s => n - fst s)).
    - intros [cnt o] H. unfold c1 in H. apply Z.leb_le in H. simpl. lia.
    - simpl. lia. }
  assert (H3 : c2 (while_loop (Z.to_nat (n + 1)) c2 b2 s1) = false).
  { apply (while_loop_exits c2 b2 (fun s => n - fst s)).
    - intros [cnt o] H. unfold c2 in H. apply Z.ltb_lt in H. simpl. lia.
    - lia. }
  split.
  - destruct s1 as [cnt o]. unfold c1 in H2. apply Z.leb_gt in H2. simpl. lia.
  - destruct (while_loop (Z.to_nat (n + 1)) c2 b2 s1) as [cnt o].
    unfold c2 in H3. apply Z.ltb_ge in H3. simpl. lia.
Qed.

(** ** Narrowing: what each loop of [pack] stores *)

Lemma unum8_of_range v : 0 <= unum8_of v < 256.
Proof. apply Z.mod_pos_bound. lia. Qed.

Lemma byte_of_mk_bytes b0 b1 b2 b3 :
  byte_of (mk_bytes b0 b1 b2 b3) 0 = unum8_of b0
  /\ byte_of (mk_bytes b0 b1 b2 b3) 1 = unum8_of b1
  /\ byte_of (mk_bytes b0 b1 b2 b3) 2 = unum8_of b2
  /\ byte_of (mk_bytes b0 b1 b2 b3) 3 = unum8_of b3.
Proof.
  unfold byte_of, mk_bytes.
  pose proof (unum8_of_range b0). pose proof (unum8_of_range b1).
  pose proof (unum8_of_range b2). pose proof (unum8_of_range b3).
  change (256 ^ 0) with 1. change (256 ^ 1) with 256.
  change (256 ^ 2) with 65536. change (256 ^ 3) with 16777216.
  generalize dependent (unum8_of b0). generalize dependent (unum8_of b1).
  generalize dependent (unum8_of b2). generalize dependent (unum8_of b3).
  intros d Hd c Hc b Hb a Ha.
  repeat split; Z.div_mod_to_equations; lia.
Qed.

Lemma int8_of_unum8_of v : int8_of (unum8_of v) = int8_of v.
Proof.
  unfold int8_of, unum8_of.
  rewrite Zplus_mod_idemp_l. reflexivity.
Qed.

Lemma int8_of_sat8 v : int8_of (sat8 v) = sat8 v.
Proof.
  unfold int8_of, sat8.
  destruct (Z.ltb_spec v (-128)); [reflexivity|].
  destruct (Z.ltb_spec 127 v); [reflexivity|].
  rewrite Z.mod_small; lia.
Qed.


Lemma pack_chunk input i s :
  Forall wf_complex16 input ->
  store_vcb s i (saturated_pack (loadu_complex16 input (2 * i))
                                (loadu_complex16 input (2 * i + 1)))
  = for_iter 8 (8 * i) (fun j s => wr s j (sat_complex8 (rdC input j))) s.
Proof.
  intros Hwf. rewrite for_iter_8.
  unfold store_vcb, saturated_pack, loadu_complex16, pack_complex16, sat_complex8.
  cbn [w0 w1 w2 w3].
  replace (4 * (2 * i)) with (8 * i) by lia.
  replace (4 * (2 * i + 1)) with (8 * i + 4) by lia.
  replace (8 * i + 4 + 1) with (8 * i + 5) by lia.
  replace (8 * i + 4 + 2) with (8 * i + 6) by lia.
  replace (8 * i + 4 + 3) with (8 * i + 7) by lia.
  repeat match goal with
  | |- context [byte_of (mk_bytes ?a ?b ?c ?d) _] =>
      let H := fresh in
      pose proof (byte_of_mk_bytes a b c d) as H;
      destruct H as [-> [-> [-> ->]]]
  end.
  rewrite !int8_of_unum8_of, !int8_of_sat8, !slo16_mk32, !shi16_mk32.
  assert (E : forall j, int16_of (re (rdC input j)) = re (rdC input j)
                        /\ int16_of (im (rdC input j)) = im (rdC input j)).
  { intros j. destruct (rdC_wf16 input j Hwf). split; now apply int16_of_id. }
  repeat match goal with
  | |- context [int16_of (re (rdC input ?j))] => rewrite (proj1 (E j))
  | |- context [int16_of (im (rdC input ?j))] => rewrite (proj2 (E j))
  end.
  reflexivity.
Qed.

(** The vector loop saturates the elements below the last multiple of
    eight; the remainder loop keeps the low eight bits of the others. *)
Theorem pack_stores output lenout input lenin i :
  Forall wf_complex16 input ->
  0 <= lenin <= Z.of_nat (length output) ->
  0 <= i < lenin ->
  rdC (__ext_v_pack_complex16_complex8 output lenout input lenin) i
    = if i <? 8 * (lenin / 8)
      then sat_complex8 (rdC input i)
      else narrow_complex8 (rdC input i).
Proof.
  intros Hwf Hlen Hi. unfold __ext_v_pack_complex16_complex8, div_int.
  rewrite (Z.quot_div_nonneg lenin 4) by lia.
  rewrite (Z.quot_div_nonneg (lenin / 4) 2) by (try apply Z.div_pos; lia).
  rewrite Z.div_div by lia. change (4 * 2) with 8.
  assert (Hq : 0 <= lenin / 8) by (apply Z.div_pos; lia).
  assert (Hq8 : 8 * (lenin / 8) <= lenin) by (apply Z.mul_div_le; lia).
  rewrite Z.max_r by assumption.
  (* the vector loop *)
  assert (E1 : for_loop 0 (lenin / 8) (fun i output =>
                 store_vcb output i
                   (saturated_pack (loadu_complex16 input (2 * i))
                                   (loadu_complex16 input (2 * i + 1)))) output
               = for_loop 0 (8 * (lenin / 8))
                   (fun j s => wr s j (sat_complex8 (rdC input j))) output).
  { unfold for_loop. rewrite !Z.sub_0_r.
    rewrite (vector_iterations 8 _ (fun j s => wr s j (sat_complex8 (rdC input j)))).
    - f_equal. lia.
    - lia.
    - intros k s _. change (Z.of_nat 8) with 8. now apply pack_chunk. }
  rewrite E1.
  assert (Hcap : 8 * (lenin / 8) <= Z.of_nat (length output)) by lia.
  destruct (for_loop_pointwise czero (fun j => sat_complex8 (rdC input j))
              0 (8 * (lenin / 8)) output (Z.le_refl 0) Hcap) as [Hl1 Hr1].
  (* the remainder loop *)
  rewrite (for_loop_ext _ (fun j p => wr p j (narrow_complex8 (rdC input j))))
    by (intros; apply set_im_set_re).
  replace (lenin / 8 * 2 * 4) with (8 * (lenin / 8)) by lia.
  assert (Hlo : 0 <= 8 * (lenin / 8)) by lia.
  assert (Hcap2 : lenin <= Z.of_nat (length (for_loop 0 (8 * (lenin / 8))
                    (fun j s => wr s j (sat_complex8 (rdC input j))) output)))
    by (rewrite Hl1; lia).
  destruct (for_loop_pointwise czero (fun j => narrow_complex8 (rdC input j))
              (8 * (lenin / 8)) lenin _ Hlo Hcap2) as [Hl2 Hr2].
  unfold rdC at 1. rewrite Hr2, Hr1.
  destruct (Z.leb_spec (8 * (lenin / 8)) i), (Z.ltb_spec i lenin),
    (Z.ltb_spec i (8 * (lenin / 8))), (Z.leb_spec 0 i); simpl; auto; lia.
Qed.

(** ** Where the kernels leave the specification *)

(** *** Right shift of complex buffers *)


(** C1: on five elements [(-2, -4)] shifted right by one,
    [__ext_v_shift_right_complex16] shifts the four elements of the vector
    loop arithmetically and the one of the remainder loop logically: its
    output is neither the arithmetic scalar reference nor what its own
    scalar loop computes on all five elements. *)
Theorem shift_right_complex16_vector_and_remainder_differ :
  let x := repeat (Cplx (-2) (-4)) 5 in
  let z := repeat czero 5 in
  let out := fst (__ext_v_shift_right_complex16 z 0 x 5 1) in
  out = [Cplx (-1) (-2); Cplx (-1) (-2); Cplx (-1) (-2); Cplx (-1) (-2);
         Cplx 32767 32766]
  /\ ref_shift_right int16_of x 5 1 = repeat (Cplx (-1) (-2)) 5
  /\ scalar_shift_right_complex16 z x 5 1 = repeat (Cplx 32767 32766) 5
  /\ out <> ref_shift_right int16_of x 5 1
  /\ out <> scalar_shift_right_complex16 z x 5 1.
Proof.
  cbv zeta.
  assert (E1 : fst (__ext_v_shift_right_complex16 (repeat czero 5) 0
                      (repeat (Cplx (-2) (-4)) 5) 5 1)
               = [Cplx (-1) (-2); Cplx (-1) (-2); Cplx (-1) (-2); Cplx (-1) (-2);
                  Cplx 32767 32766]) by (vm_compute; reflexivity).
  assert (E2 : ref_shift_right int16_of (repeat (Cplx (-2) (-4)) 5) 5 1
               = repeat (Cplx (-1) (-2)) 5) by (vm_compute; reflexivity).
  assert (E3 : scalar_shift_right_complex16 (repeat czero 5)
                 (repeat (Cplx (-2) (-4)) 5) 5 1
               = repeat (Cplx 32767 32766) 5) by (vm_compute; reflexivity).
  rewrite E1, E2, E3. repeat split; try discriminate.
Qed.

(** C4: on a single negative element, which the remainder loop handles,
    the complex16 and the complex32 right shifts fill with zeros instead
    of the sign. *)
Theorem shift_right_complex_remainder_is_logical :
  fst (__ext_v_shift_right_complex16 [czero] 0 [Cplx (-2) (-4)] 1 1)
    = [Cplx 32767 32766]
  /\ fst (__ext_v_shift_right_complex32 [czero] 0 [Cplx (-2) (-4)] 1 1)
    = [Cplx 2147483647 2147483646]
  /\ ref_shift_right int16_of [Cplx (-2) (-4)] 1 1 = [Cplx (-1) (-2)]
  /\ ref_shift_right int32_of [Cplx (-2) (-4)] 1 1 = [Cplx (-1) (-2)].
Proof. repeat split; vm_compute; reflexivity. Qed.

(** *** Multiplication at the most negative component *)


(** C2: in the vector loop the sign of a component is flipped inside its
    16 bits, where [-32768] has no opposite.  With [x[0] = (0, -32768)],
    [y[0] = (0, 1)] and a shift of one, [multiply] stores [-16384] where
    the formula gives [16384]; with [x[0] = (1, 0)], [y[0] = (0, -32768)]
    the 32-bit conjugate multiplication stores [-32768] where the formula
    gives [32768].  The remainder loop computes the formula on both. *)
Theorem mul_complex16_vector_loop_at_min_int16 :
  let x := [Cplx 0 (-32768); czero; czero; czero] in
  let y := [Cplx 0 1; czero; czero; czero] in
  let x' := [Cplx 1 0; czero; czero; czero] in
  let y' := [Cplx 0 (-32768); czero; czero; czero] in
  let z := repeat czero 4 in
  re (rdC (fst (__ext_v_mul_complex16 z 4 x 4 y 4 1)) 0) = -16384
  /\ int16_of (Z.shiftr (ref_mul_re (rdC x 0) (rdC y 0)) 1) = 16384
  /\ re (rdC (fst (__ext_v_mul_complex16 z 4 x 1 y 4 1)) 0) = 16384
  /\ rdZ (snd (fst (__ext_v_conj_mul_complex16_int32 [0; 0; 0; 0] 4 [0; 0; 0; 0] 4
                      x' 4 y' 4))) 0 = -32768
  /\ ref_conj_mul_im (rdC x' 0) (rdC y' 0) = 32768
  /\ rdZ (snd (fst (__ext_v_conj_mul_complex16_int32 [0; 0; 0; 0] 4 [0; 0; 0; 0] 4
                      x' 1 y' 4))) 0 = 32768.
Proof. repeat split; vm_compute; reflexivity. Qed.

(** *** Narrowing in the remainder loop *)

(** C5: a single element [(300, -300)] is handled by the remainder loop,
    which assigns the components to the 8-bit fields and so keeps their
    low eight bits, [(44, -44)], where saturation gives [(127, -128)];
    the same element in a buffer of eight goes through the vector loop
    and is saturated. *)
Theorem pack_remainder_wraps :
  __ext_v_pack_complex16_complex8 [czero] 1 [Cplx 300 (-300)] 1 = [Cplx 44 (-44)]
  /\ Cplx (sat8 300) (sat8 (-300)) = Cplx 127 (-128)
  /\ rdC (__ext_v_pack_complex16_complex8 (repeat czero 8) 8
            (Cplx 300 (-300) :: repeat czero 7) 8) 0 = Cplx 127 (-128).
Proof. repeat split; vm_compute; reflexivity. Qed.

(** *** The four-element sum of 32-bit integers *)

(** C6: [__ext_sumi32] accumulates in a 16-bit variable: the sum of
    [40000; 0; 0; 0] comes back as [-25536], where the 32-bit wrapping sum
    is [40000]. *)
Theorem sumi32_accumulates_in_16_bits :
  __ext_sumi32 [40000; 0; 0; 0] 4 = -25536
  /\ int32_of (40000 + 0 + 0 + 0) = 40000
  /\ __ext_v_sum_int32 [40000; 0; 0; 0] 4 = 40000.
Proof. repeat split; vm_compute; reflexivity. Qed.

(** *** The byte count of the OR loop

    The generic AND, XOR and AND-NOT kernels count the bytes of [inlen1]
    bits as [inlen1 / 8 + (inlen1 % 8 > 0)]; the byte loop of the OR
    dispatcher counts them as [(inlen1 + 7) / 8], and the sum leaves the
    range of [int] for the seven largest bit lengths. *)

(** C7: at a bit length of 2147483647 the bound [(inlen1 + 7) / 8] of the
    byte loop is computed from a sum that has left the range of [int] and
    is negative, so the OR dispatcher returns the output unchanged,
    whatever the buffers: byte 0 keeps its old value [0] where
    [input1[0] | input2[0]] is [5], and so do all the 268435456 bytes
    below [ceil (inlen1 / 8)].  The byte count of the generic kernels at
    the same length is 268435456. *)
Theorem or_byte_loop_bound_leaves_int :
  (forall (output input1 input2 : list Z) (outlen inlen2 : Z),
      __ext_v_or output outlen input1 2147483647 input2 inlen2 = output
      /\ or_byte_loop output input1 2147483647 input2 = output)
  /\ add_int 2147483647 7 = -2147483642
  /\ div_int (add_int 2147483647 7) 8 = -268435455
  /\ ceil_div8 2147483647 = 268435456
  /\ bytelen 2147483647 = 268435456
  /\ rdZ (__ext_v_or [0; 0] 0 [1; 2] 2147483647 [4; 8] 0) 0 = 0
  /\ Z.lor (rdZ [1; 2] 0) (rdZ [4; 8] 0) = 5.
Proof.
  assert (B : div_int (add_int 2147483647 7) 8 = -268435455) by (vm_compute; reflexivity).
  assert (L : forall output input1 input2,
                or_byte_loop output input1 2147483647 input2 = output).
  { intros. unfold or_byte_loop. rewrite B. now apply for_loop_empty. }
  split; [|split; [|split; [|split; [|split; [|split]]]]].
  - intros output input1 input2 outlen inlen2. split; [|apply L].
    change (__ext_v_or output outlen input1 2147483647 input2 inlen2)
      with (or_byte_loop output input1 2147483647 input2). apply L.
  - vm_compute; reflexivity.
  - exact B.
  - vm_compute; reflexivity.
  - vm_compute; reflexivity.
  - change (__ext_v_or [0; 0] 0 [1; 2] 2147483647 [4; 8] 0)
      with (or_byte_loop [0; 0] [1; 2] 2147483647 [4; 8]).
    rewrite L. reflexivity.
  - reflexivity.
Qed.

(** * Further properties of the kernels *)

(** ** Addition and subtraction, element by element *)

Lemma in_range_true lo hi i : lo <= i < hi -> (lo <=? i) && (i <? hi) = true.
Proof. intros H. destruct (Z.leb_spec lo i), (Z.ltb_spec i hi); simpl; auto; lia. Qed.

Lemma in_range_false lo hi i : i < lo \/ hi <= i -> (lo <=? i) && (i <? hi) = false.
Proof. intros H. destruct (Z.leb_spec lo i), (Z.ltb_spec i hi); simpl; auto; lia. Qed.

Lemma scalar_complex16_spec op c len a b :
  len <= Z.of_nat (length c) ->
  length (scalar_complex16 op c len a b) = length c
  /\ forall i, rdC (scalar_complex16 op c len a b) i
       = if (0 <=? i) && (i <? len)
         then Cplx (int16_of (op (re (rdC a i)) (re (rdC b i))))
                   (int16_of (op (im (rdC a i)) (im (rdC b i))))
         else rdC c i.
Proof.
  intros Hlen. unfold scalar_complex16.
  rewrite (for_loop_ext _ (fun i p => wr p i
             (Cplx (int16_of (op (re (rdC a i)) (re (rdC b i))))
                   (int16_of (op (im (rdC a i)) (im (rdC b i)))))))
    by (intros; apply set_im_set_re).
  exact (for_loop_pointwise czero _ 0 len c (Z.le_refl 0) Hlen).
Qed.

Lemma scalar_complex32_spec op c len a b :
  len <= Z.of_nat (length c) ->
  length (scalar_complex32 op c len a b) = length c
  /\ forall i, rdC (scalar_complex32 op c len a b) i
       = if (0 <=? i) && (i <? len)
         then Cplx (op (re (rdC a i)) (re (rdC b i))) (op (im (rdC a i)) (im (rdC b i)))
         else rdC c i.
Proof.
  intros Hlen. unfold scalar_complex32.
  rewrite (for_loop_ext _ (fun i p => wr p i
             (Cplx (op (re (rdC a i)) (re (rdC b i))) (op (im (rdC a i)) (im (rdC b i))))))
    by (intros; apply set_im_set_re).
  exact (for_loop_pointwise czero _ 0 len c (Z.le_refl 0) Hlen).
Qed.

Lemma scalar_int16_spec op c len a b :
  len <= Z.of_nat (length c) ->
  length (scalar_int16 op c len a b) = length c
  /\ forall i, rdZ (scalar_int16 op c len a b) i
       = if (0 <=? i) && (i <? len) then int16_of (op (rdZ a i) (rdZ b i)) else rdZ c i.
Proof.
  intros Hlen. exact (for_loop_pointwise 0 _ 0 len c (Z.le_refl 0) Hlen).
Qed.

Lemma scalar_int32_spec op c len a b :
  len <= Z.of_nat (length c) ->
  length (scalar_int32 op c len a b) = length c
  /\ forall i, rdZ (scalar_int32 op c len a b) i
       = if (0 <=? i) && (i <? len) then op (rdZ a i) (rdZ b i) else rdZ c i.
Proof.
  intros Hlen. exact (for_loop_pointwise 0 _ 0 len c (Z.le_refl 0) Hlen).
Qed.

Lemma int16_of_add_int a b : int16_of (add_int a b) = int16_of (a + b).
Proof. apply int16_of_int32_of. Qed.

Lemma int16_of_sub_int a b : int16_of (sub_int a b) = int16_of (a - b).
Proof. apply int16_of_int32_of. Qed.

(** X1: whatever [len] is (zero, negative, not a multiple of the lane
    width), the vector loop and the remainder loop of each addition and
    subtraction kernel together leave what the scalar loop alone leaves
    when run over all [len] elements, and the kernel returns zero. *)
Theorem add_sub_two_loops_are_the_scalar_loop :
  forall (c a b : list complex) (ci ai bi : list Z) (len u2 u1 : Z),
    __ext_v_add_complex16 c len a u2 b u1 = (scalar_complex16 add_int c len a b, 0)
    /\ __ext_v_add_complex32 c len a u2 b u1 = (scalar_complex32 add_int c len a b, 0)
    /\ __ext_v_add_int16 ci len ai u2 bi u1 = (scalar_int16 add_int ci len ai bi, 0)
    /\ __ext_v_add_int32 ci len ai u2 bi u1 = (scalar_int32 add_int ci len ai bi, 0)
    /\ __ext_v_sub_complex16 c len a u2 b u1 = (scalar_complex16 sub_int c len a b, 0)
    /\ __ext_v_sub_complex32 c len a u2 b u1 = (scalar_complex32 sub_int c len a b, 0)
    /\ __ext_v_sub_int16 ci len ai u2 bi u1 = (scalar_int16 sub_int ci len ai bi, 0)
    /\ __ext_v_sub_int32 ci len ai u2 bi u1 = (scalar_int32 sub_int ci len ai bi, 0).
Proof.
  intros. repeat apply conj.
  - apply add_complex16_is_scalar.
  - apply add_complex32_is_scalar.
  - apply add_int16_is_scalar.
  - apply add_int32_is_scalar.
  - apply sub_complex16_is_scalar.
  - apply sub_complex32_is_scalar.
  - apply sub_int16_is_scalar.
  - apply sub_int32_is_scalar.
Qed.

(** X2: with room for [len] elements in the output, every addition kernel
    keeps the length of the output buffer, stores the wrapped sum of the
    two inputs in the elements below [len] and leaves the other elements
    as they were. *)
Theorem add_elementwise :
  forall (c a b : list complex) (ci ai bi : list Z) (len u2 u1 : Z),
    len <= Z.of_nat (length c) -> len <= Z.of_nat (length ci) ->
    let c16 := fst (__ext_v_add_complex16 c len a u2 b u1) in
    let c32 := fst (__ext_v_add_complex32 c len a u2 b u1) in
    let i16 := fst (__ext_v_add_int16 ci len ai u2 bi u1) in
    let i32 := fst (__ext_v_add_int32 ci len ai u2 bi u1) in
    (length c16 = length c /\ length c32 = length c
     /\ length i16 = length ci /\ length i32 = length ci)
    /\ forall i,
        rdC c16 i = (if (0 <=? i) && (i <? len)
                     then Cplx (int16_of (re (rdC a i) + re (rdC b i)))
                               (int16_of (im (rdC a i) + im (rdC b i)))
                     else rdC c i)
        /\ rdC c32 i = (if (0 <=? i) && (i <? len)
                        then Cplx (int32_of (re (rdC a i) + re (rdC b i)))
                                  (int32_of (im (rdC a i) + im (rdC b i)))
                        else rdC c i)
        /\ rdZ i16 i = (if (0 <=? i) && (i <? len)
                        then int16_of (rdZ ai i + rdZ bi i) else rdZ ci i)
        /\ rdZ i32 i = (if (0 <=? i) && (i <? len)
                        then int32_of (rdZ ai i + rdZ bi i) else rdZ ci i).
Proof.
  intros c a b ci ai bi len u2 u1 Hc Hci. cbv zeta.
  rewrite add_complex16_is_scalar, add_complex32_is_scalar, add_int16_is_scalar,
    add_int32_is_scalar. cbn [fst].
  destruct (scalar_complex16_spec add_int c len a b Hc) as [L1 R1].
  destruct (scalar_complex32_spec add_int c len a b Hc) as [L2 R2].
  destruct (scalar_int16_spec add_int ci len ai bi Hci) as [L3 R3].
  destruct (scalar_int32_spec add_int ci len ai bi Hci) as [L4 R4].
  split; [auto|]. intros i. rewrite R1, R2, R3, R4, !int16_of_add_int.
  repeat split.
Qed.

Lemma add_elementwise_witness :
  let c := [czero; czero; Cplx 7 7] in
  let a := [Cplx 32767 (-5); Cplx 1 2] in
  let b := [Cplx 1 (-6); Cplx 3 4] in
  let ci := [0; 0; 0; 0; 0; 9] in
  let ai := [1; 2; 3; 4; 32767] in
  let bi := [5; 6; 7; 8; 1] in
  let c16 := fst (__ext_v_add_complex16 c 2 a 0 b 0) in
  let c32 := fst (__ext_v_add_complex32 c 2 a 0 b 0) in
  let i16 := fst (__ext_v_add_int16 ci 2 ai 0 bi 0) in
  let i32 := fst (__ext_v_add_int32 ci 2 ai 0 bi 0) in
  (length c16 = length c /\ length c32 = length c
   /\ length i16 = length ci /\ length i32 = length ci)
  /\ forall i,
      rdC c16 i = (if (0 <=? i) && (i <? 2)
                   then Cplx (int16_of (re (rdC a i) + re (rdC b i)))
                             (int16_of (im (rdC a i) + im (rdC b i)))
                   else rdC c i)
      /\ rdC c32 i = (if (0 <=? i) && (i <? 2)
                      then Cplx (int32_of (re (rdC a i) + re (rdC b i)))
                                (int32_of (im (rdC a i) + im (rdC b i)))
                      else rdC c i)
      /\ rdZ i16 i = (if (0 <=? i) && (i <? 2)
                      then int16_of (rdZ ai i + rdZ bi i) else rdZ ci i)
      /\ rdZ i32 i = (if (0 <=? i) && (i <? 2)
                      then int32_of (rdZ ai i + rdZ bi i) else rdZ ci i).
Proof.
  intros c a b ci ai bi.
  apply (add_elementwise c a b ci ai bi 2 0 0); simpl; lia.
Defined.

(** X3: the same for subtraction, with the wrapped difference. *)
Theorem sub_elementwise :
  forall (c a b : list complex) (ci ai bi : list Z) (len u2 u1 : Z),
    len <= Z.of_nat (length c) -> len <= Z.of_nat (length ci) ->
    let c16 := fst (__ext_v_sub_complex16 c len a u2 b u1) in
    let c32 := fst (__ext_v_sub_complex32 c len a u2 b u1) in
    let i16 := fst (__ext_v_sub_int16 ci len ai u2 bi u1) in
    let i32 := fst (__ext_v_sub_int32 ci len ai u2 bi u1) in
    (length c16 = length c /\ length c32 = length c
     /\ length i16 = length ci /\ length i32 = length ci)
    /\ forall i,
        rdC c16 i = (if (0 <=? i) && (i <? len)
                     then Cplx (int16_of (re (rdC a i) - re (rdC b i)))
                               (int16_of (im (rdC a i) - im (rdC b i)))
                     else rdC c i)
        /\ rdC c32 i = (if (0 <=? i) && (i <? len)
                        then Cplx (int32_of (re (rdC a i) - re (rdC b i)))
                                  (int32_of (im (rdC a i) - im (rdC b i)))
                        else rdC c i)
        /\ rdZ i16 i = (if (0 <=? i) && (i <? len)
                        then int16_of (rdZ ai i - rdZ bi i) else rdZ ci i)
        /\ rdZ i32 i = (if (0 <=? i) && (i <? len)
                        then int32_of (rdZ ai i - rdZ bi i) else rdZ ci i).
Proof.
  intros c a b ci ai bi len u2 u1 Hc Hci. cbv zeta.
  rewrite sub_complex16_is_scalar, sub_complex32_is_scalar, sub_int16_is_scalar,
    sub_int32_is_scalar. cbn [fst].
  destruct (scalar_complex16_spec sub_int c len a b Hc) as [L1 R1].
  destruct (scalar_complex32_spec sub_int c len a b Hc) as [L2 R2].
  destruct (scalar_int16_spec sub_int ci len ai bi Hci) as [L3 R3].
  destruct (scalar_int32_spec sub_int ci len ai bi Hci) as [L4 R4].
  split; [auto|]. intros i. rewrite R1, R2, R3, R4, !int16_of_sub_int.
  repeat split.
Qed.

Lemma sub_elementwise_witness :
  let c := [czero; czero; Cplx 7 7] in
  let a := [Cplx (-32768) (-5); Cplx 1 2] in
  let b := [Cplx 1 (-6); Cplx 3 4] in
  let ci := [0; 0; 0; 0; 0; 9] in
  let ai := [1; 2; 3; 4; -32768] in
  let bi := [5; 6; 7; 8; 1] in
  let c16 := fst (__ext_v_sub_complex16 c 2 a 0 b 0) in
  let c32 := fst (__ext_v_sub_complex32 c 2 a 0 b 0) in
  let i16 := fst (__ext_v_sub_int16 ci 2 ai 0 bi 0) in
  let i32 := fst (__ext_v_sub_int32 ci 2 ai 0 bi 0) in
  (length c16 = length c /\ length c32 = length c
   /\ length i16 = length ci /\ length i32 = length ci)
  /\ forall i,
      rdC c16 i = (if (0 <=? i) && (i <? 2)
                   then Cplx (int16_of (re (rdC a i) - re (rdC b i)))
                             (int16_of (im (rdC a i) - im (rdC b i)))
                   else rdC c i)
      /\ rdC c32 i = (if (0 <=? i) && (i <? 2)
                      then Cplx (int32_of (re (rdC a i) - re (rdC b i)))
                                (int32_of (im (rdC a i) - im (rdC b i)))
                      else rdC c i)
      /\ rdZ i16 i = (if (0 <=? i) && (i <? 2)
                      then int16_of (rdZ ai i - rdZ bi i) else rdZ ci i)
      /\ rdZ i32 i = (if (0 <=? i) && (i <? 2)
                      then int32_of (rdZ ai i - rdZ bi i) else rdZ ci i).
Proof.
  intros c a b ci ai bi.
  apply (sub_elementwise c a b ci ai bi 2 0 0); simpl; lia.
Defined.

(** ** Addition and subtraction compose *)

Lemma int16_of_add_sub a b : is_int16 a -> int16_of (int16_of (a + b) - b) = a.
Proof.
  intros H. destruct (int16_of_decomp (a + b)) as [k E]. rewrite E.
  rewrite (int16_of_eqm _ a k) by lia. apply int16_of_id, H.
Qed.

Lemma int32_of_add_sub a b : is_int32 a -> int32_of (int32_of (a + b) - b) = a.
Proof.
  intros H. destruct (int32_of_decomp (a + b)) as [k E]. rewrite E.
  rewrite (int32_of_eqm _ a k) by lia. apply int32_of_id, H.
Qed.

(** X4: subtracting [b] from the sum the addition kernel stored gives back
    [a] in the elements below [len], although either kernel may have
    wrapped, as long as [a] holds values of the element type. *)
Theorem add_then_sub_restores :
  forall (c d a b : list complex) (ci di ai bi cw dw aw bw : list Z) (len u2 u1 : Z),
    len <= Z.of_nat (length c) -> len <= Z.of_nat (length d) ->
    len <= Z.of_nat (length ci) -> len <= Z.of_nat (length di) ->
    len <= Z.of_nat (length cw) -> len <= Z.of_nat (length dw) ->
    Forall wf_complex16 a -> Forall is_int16 ai -> Forall is_int32 aw ->
    forall i, 0 <= i < len ->
      rdC (fst (__ext_v_sub_complex16 d len
                  (fst (__ext_v_add_complex16 c len a u2 b u1)) u2 b u1)) i = rdC a i
      /\ rdZ (fst (__ext_v_sub_int16 di len
                  (fst (__ext_v_add_int16 ci len ai u2 bi u1)) u2 bi u1)) i = rdZ ai i
      /\ rdZ (fst (__ext_v_sub_int32 dw len
                  (fst (__ext_v_add_int32 cw len aw u2 bw u1)) u2 bw u1)) i = rdZ aw i.
Proof.
  intros c d a b ci di ai bi cw dw aw bw len u2 u1 Hc Hd Hci Hdi Hcw Hdw Wa Wi16 Wi32 i Hi.
  rewrite !add_complex16_is_scalar, !sub_complex16_is_scalar, !add_int16_is_scalar,
    !sub_int16_is_scalar, !add_int32_is_scalar, !sub_int32_is_scalar. cbn [fst].
  rewrite (proj2 (scalar_complex16_spec sub_int d len _ b Hd)),
    (proj2 (scalar_complex16_spec add_int c len a b Hc)),
    (proj2 (scalar_int16_spec sub_int di len _ bi Hdi)),
    (proj2 (scalar_int16_spec add_int ci len ai bi Hci)),
    (proj2 (scalar_int32_spec sub_int dw len _ bw Hdw)),
    (proj2 (scalar_int32_spec add_int cw len aw bw Hcw)).
  rewrite (in_range_true 0 len i Hi). cbn [re im].
  rewrite !int16_of_sub_int, !int16_of_add_int.
  destruct (rdC_wf16 a i Wa) as [Wr Wm].
  rewrite (int16_of_add_sub _ _ Wr), (int16_of_add_sub _ _ Wm),
    (int16_of_add_sub _ _ (rdZ_int16 ai i Wi16)).
  unfold sub_int, add_int. rewrite (int32_of_add_sub _ _ (rdZ_int32 aw i Wi32)).
  destruct (rdC a i); auto.
Qed.

Lemma add_then_sub_restores_witness :
  rdC (fst (__ext_v_sub_complex16 [czero; czero] 2
              (fst (__ext_v_add_complex16 [czero; czero] 2
                      [Cplx 32767 1; Cplx 2 3] 0 [Cplx 5 6; Cplx 7 8] 0))
              0 [Cplx 5 6; Cplx 7 8] 0)) 0 = rdC [Cplx 32767 1; Cplx 2 3] 0
  /\ rdZ (fst (__ext_v_sub_int16 [0; 0] 2
              (fst (__ext_v_add_int16 [0; 0] 2 [32767; 4] 0 [9; 9] 0)) 0 [9; 9] 0)) 0
     = rdZ [32767; 4] 0
  /\ rdZ (fst (__ext_v_sub_int32 [0; 0] 2
              (fst (__ext_v_add_int32 [0; 0] 2 [2147483647; 4] 0 [9; 9] 0)) 0 [9; 9] 0)) 0
     = rdZ [2147483647; 4] 0.
Proof.
  apply (add_then_sub_restores [czero; czero] [czero; czero]
           [Cplx 32767 1; Cplx 2 3] [Cplx 5 6; Cplx 7 8]
           [0; 0] [0; 0] [32767; 4] [9; 9]
           [0; 0] [0; 0] [2147483647; 4] [9; 9] 2 0 0);
    try (simpl; lia);
    repeat constructor; unfold is_int16, is_int32; simpl; lia.
Defined.

(** ** Shifts, element by element *)




Lemma shl_elem16 v c : 0 <= c -> int16_of (shl_int v c) = int16_of (v * 2 ^ c).
Proof.
  intros Hc. unfold shl_int. now rewrite int16_of_int32_of, Z.shiftl_mul_pow2.
Qed.








Lemma vector_end_bounds len w :
  0 < w ->
  (0 <= len -> 0 <= vector_end len w <= len)
  /\ (len <= 0 -> len <= vector_end len w <= 0).
Proof.
  intros Hw. unfold vector_end, div_int.
  pose proof (Z.quot_rem' len w) as E. split; intros Hl.
  - pose proof (Z.rem_bound_pos len w Hl Hw). pose proof (Z.quot_pos len w Hl Hw). nia.
  - assert (Hq : Z.quot len w = - Z.quot (- len) w).
    { replace len with (- (- len)) at 1 by lia. apply Z.quot_opp_l. lia. }
    pose proof (Z.quot_pos (- len) w ltac:(lia) ltac:(lia)).
    pose proof (Z.quot_rem' (- len) w) as E'.
    pose proof (Z.rem_bound_pos (- len) w ltac:(lia) Hw).
    nia.
Qed.

(** The vector loop alone is the scalar loop up to [vector_end]. *)
Lemma vector_loop_alone {St : Type} (w : nat) (vbody sbody : Z -> St -> St) :
  (0 < w)%nat ->
  (forall i s, 0 <= i -> vbody i s = for_iter w (Z.of_nat w * i) sbody s) ->
  forall len s,
    for_loop 0 (div_int len (Z.of_nat w)) vbody s
    = for_loop 0 (vector_end len (Z.of_nat w)) sbody s.
Proof.
  intros Hw Hchunk len s. unfold for_loop, vector_end. rewrite !Z.sub_0_r.
  rewrite (vector_iterations w vbody sbody Hw Hchunk).
  f_equal. nia.
Qed.

(** Two elementwise loops one after the other. *)
Lemma two_loops_pointwise {A : Type} (d : A) (f g : Z -> A) m len (z : list A) :
  0 <= m <= len -> len <= Z.of_nat (length z) ->
  let q := for_loop m len (fun i z => wr z i (g i))
             (for_loop 0 m (fun i z => wr z i (f i)) z) in
  length q = length z
  /\ forall i, rd d q i = if (0 <=? i) && (i <? m) then f i
                          else if (m <=? i) && (i <? len) then g i else rd d z i.
Proof.
  intros Hm Hlen. cbv zeta.
  destruct (for_loop_pointwise d f 0 m z (Z.le_refl 0) ltac:(lia)) as [L1 R1].
  cbv zeta in L1, R1.
  destruct (for_loop_pointwise d g m len
              (for_loop 0 m (fun i z => wr z i (f i)) z)
              ltac:(lia) ltac:(rewrite L1; lia)) as [L2 R2].
  cbv zeta in L2, R2. split; [congruence|].
  intros i. rewrite R2, R1.
  destruct (Z.leb_spec 0 i), (Z.ltb_spec i m), (Z.leb_spec m i), (Z.ltb_spec i len);
    simpl; auto; lia.
Qed.




(** X7: with a count in [0, 32), an input of the element type and room
    for [len] elements, the right shifts of [int16] and [int32] store the
    arithmetic shift (the quotient by [2 ^ shift], rounded down) in the
    elements below [len], in the vector loop and in the remainder loop
    alike, and keep the length and the other elements. *)
Theorem shift_right_int_elementwise :
  forall (z16 x16 z32 x32 : list Z) (len shift u3 : Z),
    Forall is_int16 x16 -> Forall is_int32 x32 -> 0 <= shift < 32 ->
    len <= Z.of_nat (length z16) -> len <= Z.of_nat (length z32) ->
    let o16 := fst (__ext_v_shift_right_int16 z16 u3 x16 len shift) in
    let o32 := fst (__ext_v_shift_right_int32 z32 u3 x32 len shift) in
    length o16 = length z16 /\ length o32 = length z32
    /\ forall i,
        rdZ o16 i = (if (0 <=? i) && (i <? len)
                     then rdZ x16 i / 2 ^ shift else rdZ z16 i)
        /\ rdZ o32 i = (if (0 <=? i) && (i <? len)
                        then rdZ x32 i / 2 ^ shift else rdZ z32 i).
Proof.
  intros z16 x16 z32 x32 len shift u3 H16 H32 Hs Hz16 Hz32. cbv zeta.
  rewrite shift_right_int16_is_scalar, shift_right_int32_is_scalar by assumption.
  cbn [fst]. unfold scalar_shift_int16, scalar_shift_int32.
  destruct (for_loop_pointwise 0 (fun i => int16_of (shr_int (rdZ x16 i) shift))
              0 len z16 (Z.le_refl 0) Hz16) as [L1 R1].
  destruct (for_loop_pointwise 0 (fun i => shr_int (rdZ x32 i) shift)
              0 len z32 (Z.le_refl 0) Hz32) as [L2 R2].
  cbv zeta in *. split; [exact L1|]. split; [exact L2|].
  intros i. unfold rdZ at 1 3. rewrite R1, R2. unfold shr_int.
  rewrite !Z.shiftr_div_pow2 by lia.
  rewrite int16_of_id; [split; reflexivity|].
  rewrite <- Z.shiftr_div_pow2 by lia.
  pose proof (rdZ_int16 x16 i H16). unfold is_int16 in *.
  apply shiftr_bounds; lia.
Qed.

Lemma shift_right_int_elementwise_witness :
  let z16 := [0; 0; 7] in
  let x16 := [-5; 32767] in
  let z32 := [0; 0; 7] in
  let x32 := [-2147483648; 9] in
  let o16 := fst (__ext_v_shift_right_int16 z16 0 x16 2 1) in
  let o32 := fst (__ext_v_shift_right_int32 z32 0 x32 2 1) in
  length o16 = length z16 /\ length o32 = length z32
  /\ forall i,
      rdZ o16 i = (if (0 <=? i) && (i <? 2) then rdZ x16 i / 2 ^ 1 else rdZ z16 i)
      /\ rdZ o32 i = (if (0 <=? i) && (i <? 2) then rdZ x32 i / 2 ^ 1 else rdZ z32 i).
Proof.
  intros z16 x16 z32 x32.
  apply (shift_right_int_elementwise z16 x16 z32 x32 2 1 0);
    try (simpl; lia); repeat constructor; unfold is_int16, is_int32; lia.
Defined.








Lemma Forall_rd {A : Type} (P : A -> Prop) (d : A) (p : list A) :
  (forall i, 0 <= i < Z.of_nat (length p) -> P (rd d p i)) -> Forall P p.
Proof.
  intros H. apply Forall_forall. intros v Hin.
  destruct (In_nth p v d Hin) as [n [Hn E]]. rewrite <- E.
  specialize (H (Z.of_nat n) ltac:(lia)). unfold rd in H.
  destruct (Z.ltb_spec (Z.of_nat n) 0); [lia|]. now rewrite Nat2Z.id in H.
Qed.

Lemma rd_Forall {A : Type} (P : A -> Prop) (d : A) (p : list A) i :
  Forall P p -> P d -> P (rd d p i).
Proof.
  intros H Hd. unfold rd. destruct (i <? 0); [exact Hd|].
  destruct (nth_in_or_default (Z.to_nat i) p d) as [Hin|E].
  - rewrite Forall_forall in H. now apply H.
  - now rewrite E.
Qed.

(** X10: shifting left and then right by the same count gives back the
    input in the elements below [len] whenever the shifted values still fit
    the element type. *)
Theorem shift_left_then_right_restores :
  forall (y z x y' z' x' : list Z) (len shift u3 : Z),
    0 <= shift < 32 ->
    len <= Z.of_nat (length z) -> len <= Z.of_nat (length y) ->
    len <= Z.of_nat (length z') -> len <= Z.of_nat (length y') ->
    Forall is_int16 z -> Forall is_int32 z' ->
    (forall i, 0 <= i < len -> is_int16 (rdZ x i * 2 ^ shift)) ->
    (forall i, 0 <= i < len -> is_int32 (rdZ x' i * 2 ^ shift)) ->
    forall i, 0 <= i < len ->
      rdZ (fst (__ext_v_shift_right_int16 y u3
                  (fst (__ext_v_shift_left_int16 z u3 x len shift)) len shift)) i
        = rdZ x i
      /\ rdZ (fst (__ext_v_shift_right_int32 y' u3
                  (fst (__ext_v_shift_left_int32 z' u3 x' len shift)) len shift)) i
        = rdZ x' i.
Proof.
  intros y z x y' z' x' len shift u3 Hs Hz Hy Hz' Hy' Wz Wz' Fx Fx' i Hi.
  rewrite shift_left_int16_is_scalar, shift_left_int32_is_scalar by assumption.
  cbn [fst]. unfold scalar_shift_int16 at 1, scalar_shift_int32 at 1.
  destruct (for_loop_pointwise 0 (fun i => int16_of (shl_int (rdZ x i) shift))
              0 len z (Z.le_refl 0) Hz) as [L1 R1].
  destruct (for_loop_pointwise 0 (fun i => shl_int (rdZ x' i) shift)
              0 len z' (Z.le_refl 0) Hz') as [L2 R2].
  cbv zeta in *.
  set (m := for_loop 0 len (fun i z => wr z i (int16_of (shl_int (rdZ x i) shift))) z) in *.
  set (m' := for_loop 0 len (fun i z => wr z i (shl_int (rdZ x' i) shift)) z') in *.
  assert (Wm : Forall is_int16 m).
  { apply (Forall_rd _ 0). intros j Hj. rewrite R1.
    destruct ((0 <=? j) && (j <? len)); [apply int16_of_range|].
    apply rd_Forall; [exact Wz|unfold is_int16; lia]. }
  assert (Wm' : Forall is_int32 m').
  { apply (Forall_rd _ 0). intros j Hj. rewrite R2.
    destruct ((0 <=? j) && (j <? len)); [apply int32_of_range|].
    apply rd_Forall; [exact Wz'|unfold is_int32; lia]. }
  rewrite shift_right_int16_is_scalar, shift_right_int32_is_scalar by assumption.
  cbn [fst]. unfold scalar_shift_int16, scalar_shift_int32.
  destruct (for_loop_pointwise 0 (fun i => int16_of (shr_int (rdZ m i) shift))
              0 len y (Z.le_refl 0) Hy) as [_ R3].
  destruct (for_loop_pointwise 0 (fun i => shr_int (rdZ m' i) shift)
              0 len y' (Z.le_refl 0) Hy') as [_ R4].
  cbv zeta in *. unfold rdZ at 1 4. rewrite R3, R4, (in_range_true 0 len i Hi).
  unfold rdZ at 1 3. rewrite R1, R2, (in_range_true 0 len i Hi).
  rewrite shl_elem16 by lia. unfold shl_int, shr_int.
  rewrite Z.shiftl_mul_pow2 by lia.
  rewrite (int16_of_id _ (Fx i Hi)), (int32_of_id _ (Fx' i Hi)).
  assert (0 < 2 ^ shift) by (apply Z.pow_pos_nonneg; lia).
  rewrite !Z.shiftr_div_pow2, !Z.div_mul by lia.
  split; [|reflexivity]. apply int16_of_id.
  pose proof (Fx i Hi) as F. unfold is_int16 in *. nia.
Qed.

Lemma shift_left_then_right_restores_witness :
  rdZ (fst (__ext_v_shift_right_int16 [0; 0] 0
              (fst (__ext_v_shift_left_int16 [0; 0] 0 [-5; 100] 2 3)) 2 3)) 0
    = rdZ [-5; 100] 0
  /\ rdZ (fst (__ext_v_shift_right_int32 [0; 0] 0
              (fst (__ext_v_shift_left_int32 [0; 0] 0 [-70000; 100] 2 3)) 2 3)) 0
    = rdZ [-70000; 100] 0.
Proof.
  apply (shift_left_then_right_restores [0; 0] [0; 0] [-5; 100]
           [0; 0] [0; 0] [-70000; 100] 2 3 0);
    try (simpl; lia);
    try (repeat constructor; unfold is_int16, is_int32; lia).
  - intros i Hi. assert (E : i = 0 \/ i = 1) by lia.
    destruct E as [-> | ->]; unfold is_int16, is_int32; simpl; lia.
  - intros i Hi. assert (E : i = 0 \/ i = 1) by lia.
    destruct E as [-> | ->]; unfold is_int16, is_int32; simpl; lia.
Defined.

(** ** Multiplication, element by element, on every input *)

Lemma mul_word_general x y shift :
  wf_complex16 x -> wf_complex16 y -> 0 <= shift < 32 ->
  let k := if in_count shift 31 then shift else 31 in
  let ms1 := unum32_of (Z.lxor (pack_complex16 x) (unum32_of 0xFFFF0000)
                        + unum32_of 0x00010000) in
  let ms2 := mk32 (hi16 (pack_complex16 x)) (lo16 (pack_complex16 x)) in
  let my := pack_complex16 y in
  let mre := unum32_of (Z.shiftr (int32_of (unum32_of
               (slo16 ms1 * slo16 my + shi16 ms1 * shi16 my))) k) in
  let mim := unum32_of (Z.shiftr (int32_of (unum32_of
               (slo16 ms2 * slo16 my + shi16 ms2 * shi16 my))) k) in
  unpack_complex16
    (Z.lor (Z.land mre (unum32_of 0x0000FFFF))
           (unum32_of (Z.shiftl (Z.land mim (unum32_of 0x0000FFFF)) 16)))
  = Cplx (int16_of (Z.shiftr (int32_of (re x * re y + int16_of (- im x) * im y)) shift))
         (int16_of (Z.shiftr (int32_of (re x * im y + im x * re y)) shift)).
Proof.
  intros [Hxr Hxi] [Hyr Hyi] Hs. cbv zeta.
  rewrite in_count_31 by assumption.
  unfold pack_complex16. rewrite negate_high_lane.
  rewrite merge_lanes. unfold unpack_complex16.
  rewrite !slo16_mk32, !shi16_mk32, !lo16_mk32, !hi16_mk32, !int16_of_unum16_of.
  rewrite !int32_of_unum32_of.
  rewrite (int16_of_id (re x)), (int16_of_id (im x)), (int16_of_id (re y)),
    (int16_of_id (im y)) by assumption.
  f_equal; do 3 f_equal; ring.
Qed.

Lemma conj_mul_word_general x y shift :
  wf_complex16 x -> wf_complex16 y -> 0 <= shift < 32 ->
  let k := if in_count shift 31 then shift else 31 in
  let mx := pack_complex16 x in
  let my := pack_complex16 y in
  let neg := unum32_of (Z.lxor my (unum32_of 0xFFFF0000) + unum32_of 0x00010000) in
  let ms2 := mk32 (hi16 neg) (lo16 neg) in
  let mre := unum32_of (Z.shiftr (int32_of (unum32_of
               (slo16 my * slo16 mx + shi16 my * shi16 mx))) k) in
  let mim := unum32_of (Z.shiftr (int32_of (unum32_of
               (slo16 ms2 * slo16 mx + shi16 ms2 * shi16 mx))) k) in
  unpack_complex16
    (Z.lor (Z.land mre (unum32_of 0x0000FFFF))
           (unum32_of (Z.shiftl (Z.land mim (unum32_of 0x0000FFFF)) 16)))
  = Cplx (int16_of (Z.shiftr (int32_of (re x * re y + im x * im y)) shift))
         (int16_of (Z.shiftr (int32_of (im x * re y + re x * int16_of (- im y))) shift)).
Proof.
  intros [Hxr Hxi] [Hyr Hyi] Hs. cbv zeta.
  rewrite in_count_31 by assumption.
  unfold pack_complex16. rewrite negate_high_lane.
  rewrite merge_lanes. unfold unpack_complex16.
  rewrite !slo16_mk32, !shi16_mk32, !lo16_mk32, !hi16_mk32, !int16_of_unum16_of.
  rewrite !int32_of_unum32_of.
  rewrite (int16_of_id (re x)), (int16_of_id (im x)), (int16_of_id (re y)),
    (int16_of_id (im y)) by assumption.
  f_equal; do 3 f_equal; ring.
Qed.

Lemma conj_mul_words_int32_general x y :
  wf_complex16 x -> wf_complex16 y ->
  let mx := pack_complex16 x in
  let my := pack_complex16 y in
  let neg := unum32_of (Z.lxor my (unum32_of 0xFFFF0000) + unum32_of 0x00010000) in
  let ms2 := mk32 (hi16 neg) (lo16 neg) in
  int32_of (unum32_of (slo16 my * slo16 mx + shi16 my * shi16 mx))
    = int32_of (re x * re y + im x * im y)
  /\ int32_of (unum32_of (slo16 ms2 * slo16 mx + shi16 ms2 * shi16 mx))
    = int32_of (im x * re y + re x * int16_of (- im y)).
Proof.
  intros [Hxr Hxi] [Hyr Hyi]. cbv zeta.
  unfold pack_complex16. rewrite negate_high_lane.
  rewrite !slo16_mk32, !shi16_mk32, !lo16_mk32, !hi16_mk32, !int16_of_unum16_of.
  rewrite !int32_of_unum32_of.
  rewrite (int16_of_id (re x)), (int16_of_id (im x)), (int16_of_id (re y)),
    (int16_of_id (im y)) by assumption.
  split; f_equal; ring.
Qed.

Lemma mul_complex16_loops out lenout x len1 y len2 shift :
  Forall wf_complex16 x -> Forall wf_complex16 y -> 0 <= shift < 32 ->
  __ext_v_mul_complex16 out lenout x len1 y len2 shift
  = (for_loop (vector_end len1 4) len1 (fun i out =>
       wr out i (Cplx (int16_of (Z.shiftr (ref_mul_re (rdC x i) (rdC y i)) shift))
                      (int16_of (Z.shiftr (ref_mul_im (rdC x i) (rdC y i)) shift))))
       (for_loop 0 (vector_end len1 4) (fun i out =>
          wr out i (Cplx (int16_of (Z.shiftr (vec_mul_re (rdC x i) (rdC y i)) shift))
                         (int16_of (Z.shiftr (ref_mul_im (rdC x i) (rdC y i)) shift))))
          out), 0).
Proof.
  intros Hx Hy Hs. unfold __ext_v_mul_complex16. f_equal.
  change (div_int len1 4 * 4) with (vector_end len1 4).
  rewrite (for_loop_ext _ (fun i out =>
       wr out i (Cplx (int16_of (Z.shiftr (ref_mul_re (rdC x i) (rdC y i)) shift))
                      (int16_of (Z.shiftr (ref_mul_im (rdC x i) (rdC y i)) shift)))))
    by (intros j t Hj; cbv beta zeta; rewrite set_im_set_re, sub_int_mul, add_int_mul;
        reflexivity).
  f_equal.
  apply (vector_loop_alone 4); [lia|]. intros i s _.
  rewrite for_iter_4. change (Z.of_nat 4) with 4.
  unfold_mul_lanes.
  pose proof (fun j => mul_word_general (rdC x j) (rdC y j) shift
                         (rdC_wf16 x j Hx) (rdC_wf16 y j Hy) Hs) as E.
  cbv zeta in E. rewrite !E. reflexivity.
Qed.

Lemma conj_mul_complex16_loops out lenout x len1 y len2 shift :
  Forall wf_complex16 x -> Forall wf_complex16 y -> 0 <= shift < 32 ->
  __ext_v_conj_mul_complex16 out lenout x len1 y len2 shift
  = (for_loop (vector_end len1 4) len1 (fun i out =>
       wr out i (Cplx (int16_of (Z.shiftr (ref_conj_mul_re (rdC x i) (rdC y i)) shift))
                      (int16_of (Z.shiftr (ref_conj_mul_im (rdC x i) (rdC y i)) shift))))
       (for_loop 0 (vector_end len1 4) (fun i out =>
          wr out i (Cplx (int16_of (Z.shiftr (ref_conj_mul_re (rdC x i) (rdC y i)) shift))
                         (int16_of (Z.shiftr (vec_conj_mul_im (rdC x i) (rdC y i)) shift))))
          out), 0).
Proof.
  intros Hx Hy Hs. unfold __ext_v_conj_mul_complex16. f_equal.
  change (div_int len1 4 * 4) with (vector_end len1 4).
  rewrite (for_loop_ext _ (fun i out =>
       wr out i (Cplx (int16_of (Z.shiftr (ref_conj_mul_re (rdC x i) (rdC y i)) shift))
                      (int16_of (Z.shiftr (ref_conj_mul_im (rdC x i) (rdC y i)) shift)))))
    by (intros j t Hj; cbv beta zeta; rewrite set_im_set_re, sub_int_mul, add_int_mul;
        reflexivity).
  f_equal.
  apply (vector_loop_alone 4); [lia|]. intros i s _.
  rewrite for_iter_4. change (Z.of_nat 4) with 4.
  unfold_mul_lanes.
  pose proof (fun j => conj_mul_word_general (rdC x j) (rdC y j) shift
                         (rdC_wf16 x j Hx) (rdC_wf16 y j Hy) Hs) as E.
  cbv zeta in E. rewrite !E. reflexivity.
Qed.

Lemma conj_mul_complex16_int32_loops re_ lenout1 im_ lenout2 x len1 y len2 :
  Forall wf_complex16 x -> Forall wf_complex16 y ->
  __ext_v_conj_mul_complex16_int32 re_ lenout1 im_ lenout2 x len1 y len2
  = (for_loop (vector_end len1 4) len1 (fun i r =>
       wr r i (ref_conj_mul_re (rdC x i) (rdC y i)))
       (for_loop 0 (vector_end len1 4) (fun i r =>
          wr r i (ref_conj_mul_re (rdC x i) (rdC y i))) re_),
     for_loop (vector_end len1 4) len1 (fun i m =>
       wr m i (ref_conj_mul_im (rdC x i) (rdC y i)))
       (for_loop 0 (vector_end len1 4) (fun i m =>
          wr m i (vec_conj_mul_im (rdC x i) (rdC y i))) im_), 0).
Proof.
  intros Hx Hy. unfold __ext_v_conj_mul_complex16_int32.
  change (div_int len1 4 * 4) with (vector_end len1 4).
  match goal with
  | |- (let '(_, _) := for_loop 0 _ ?vb ?s in _) = _ =>
      assert (V : for_loop 0 (div_int len1 4) vb s
                  = for_loop 0 (vector_end len1 4) (fun i '(r, m) =>
                      (wr r i (ref_conj_mul_re (rdC x i) (rdC y i)),
                       wr m i (vec_conj_mul_im (rdC x i) (rdC y i)))) s)
  end.
  { apply (vector_loop_alone 4); [lia|]. intros i [r m] _.
    rewrite for_iter_4. change (Z.of_nat 4) with 4.
    unfold_mul_lanes.
    pose proof (fun j => conj_mul_words_int32_general (rdC x j) (rdC y j)
                           (rdC_wf16 x j Hx) (rdC_wf16 y j Hy)) as W.
    cbv zeta in W.
    rewrite !(proj1 (W _)), !(proj2 (W _)). reflexivity. }
  rewrite V. unfold for_loop at 1.
  rewrite (pair_loop_split (fun i => ref_conj_mul_re (rdC x i) (rdC y i))
                           (fun i => vec_conj_mul_im (rdC x i) (rdC y i))).
  cbv beta iota.
  rewrite (for_loop_ext _ (fun i '(r, m) =>
             (wr r i (ref_conj_mul_re (rdC x i) (rdC y i)),
              wr m i (ref_conj_mul_im (rdC x i) (rdC y i)))))
    by (intros j [r m] Hj; cbv zeta; rewrite add_int_mul, sub_int_mul; reflexivity).
  unfold for_loop at 1.
  rewrite (pair_loop_split (fun i => ref_conj_mul_re (rdC x i) (rdC y i))
                           (fun i => ref_conj_mul_im (rdC x i) (rdC y i))).
  reflexivity.
Qed.

(** X11: what [multiply] stores for inputs of 16-bit components, a count
    in [0, 32) and [0 <= len1] elements with room in the output.  The
    elements of the remainder loop get the products of the formula, kept
    to 32 bits, shifted and narrowed; in the elements of the vector loop
    the imaginary part is the same and the real part is computed with the
    16-bit opposite of [x.im].  The length and the elements from [len1]
    on are kept, and the kernel returns zero. *)
Theorem mul_complex16_stores :
  forall (out x y : list complex) (lenout len1 len2 shift : Z),
    Forall wf_complex16 x -> Forall wf_complex16 y -> 0 <= shift < 32 ->
    0 <= len1 -> len1 <= Z.of_nat (length out) ->
    let r := __ext_v_mul_complex16 out lenout x len1 y len2 shift in
    snd r = 0 /\ length (fst r) = length out
    /\ forall i,
        rdC (fst r) i
        = (if (0 <=? i) && (i <? vector_end len1 4)
           then Cplx (int16_of (Z.shiftr (vec_mul_re (rdC x i) (rdC y i)) shift))
                     (int16_of (Z.shiftr (ref_mul_im (rdC x i) (rdC y i)) shift))
           else if (vector_end len1 4 <=? i) && (i <? len1)
           then Cplx (int16_of (Z.shiftr (ref_mul_re (rdC x i) (rdC y i)) shift))
                     (int16_of (Z.shiftr (ref_mul_im (rdC x i) (rdC y i)) shift))
           else rdC out i).
Proof.
  intros out x y lenout len1 len2 shift Hx Hy Hs Hlen Hout. cbv zeta.
  rewrite mul_complex16_loops by assumption. cbn [fst snd].
  split; [reflexivity|].
  destruct (vector_end_bounds len1 4 ltac:(lia)) as [B _]. specialize (B Hlen).
  exact (two_loops_pointwise czero _ _ (vector_end len1 4) len1 out B Hout).
Qed.

Lemma mul_complex16_stores_witness :
  let out := repeat czero 6 in
  let x := repeat (Cplx 3 (-32768)) 5 in
  let y := repeat (Cplx 2 1) 5 in
  let r := __ext_v_mul_complex16 out 6 x 5 y 5 1 in
  snd r = 0 /\ length (fst r) = length out
  /\ forall i,
      rdC (fst r) i
      = (if (0 <=? i) && (i <? vector_end 5 4)
         then Cplx (int16_of (Z.shiftr (vec_mul_re (rdC x i) (rdC y i)) 1))
                   (int16_of (Z.shiftr (ref_mul_im (rdC x i) (rdC y i)) 1))
         else if (vector_end 5 4 <=? i) && (i <? 5)
         then Cplx (int16_of (Z.shiftr (ref_mul_re (rdC x i) (rdC y i)) 1))
                   (int16_of (Z.shiftr (ref_mul_im (rdC x i) (rdC y i)) 1))
         else rdC out i).
Proof.
  intros out x y.
  apply (mul_complex16_stores out x y 6 5 5 1);
    try (simpl; lia); repeat constructor; unfold is_int16; simpl; lia.
Defined.

(** X12: what [conjugateMultiply] stores, under the same conditions: the
    real part is that of the formula everywhere; the imaginary part is
    that of the formula in the remainder loop and is computed with the
    16-bit opposite of [y.im] in the vector loop. *)
Theorem conj_mul_complex16_stores :
  forall (out x y : list complex) (lenout len1 len2 shift : Z),
    Forall wf_complex16 x -> Forall wf_complex16 y -> 0 <= shift < 32 ->
    0 <= len1 -> len1 <= Z.of_nat (length out) ->
    let r := __ext_v_conj_mul_complex16 out lenout x len1 y len2 shift in
    snd r = 0 /\ length (fst r) = length out
    /\ forall i,
        rdC (fst r) i
        = (if (0 <=? i) && (i <? vector_end len1 4)
           then Cplx (int16_of (Z.shiftr (ref_conj_mul_re (rdC x i) (rdC y i)) shift))
                     (int16_of (Z.shiftr (vec_conj_mul_im (rdC x i) (rdC y i)) shift))
           else if (vector_end len1 4 <=? i) && (i <? len1)
           then Cplx (int16_of (Z.shiftr (ref_conj_mul_re (rdC x i) (rdC y i)) shift))
                     (int16_of (Z.shiftr (ref_conj_mul_im (rdC x i) (rdC y i)) shift))
           else rdC out i).
Proof.
  intros out x y lenout len1 len2 shift Hx Hy Hs Hlen Hout. cbv zeta.
  rewrite conj_mul_complex16_loops by assumption. cbn [fst snd].
  split; [reflexivity|].
  destruct (vector_end_bounds len1 4 ltac:(lia)) as [B _]. specialize (B Hlen).
  exact (two_loops_pointwise czero _ _ (vector_end len1 4) len1 out B Hout).
Qed.

Lemma conj_mul_complex16_stores_witness :
  let out := repeat czero 6 in
  let x := repeat (Cplx 2 1) 5 in
  let y := repeat (Cplx 3 (-32768)) 5 in
  let r := __ext_v_conj_mul_complex16 out 6 x 5 y 5 1 in
  snd r = 0 /\ length (fst r) = length out
  /\ forall i,
      rdC (fst r) i
      = (if (0 <=? i) && (i <? vector_end 5 4)
         then Cplx (int16_of (Z.shiftr (ref_conj_mul_re (rdC x i) (rdC y i)) 1))
                   (int16_of (Z.shiftr (vec_conj_mul_im (rdC x i) (rdC y i)) 1))
         else if (vector_end 5 4 <=? i) && (i <? 5)
         then Cplx (int16_of (Z.shiftr (ref_conj_mul_re (rdC x i) (rdC y i)) 1))
                   (int16_of (Z.shiftr (ref_conj_mul_im (rdC x i) (rdC y i)) 1))
         else rdC out i).
Proof.
  intros out x y.
  apply (conj_mul_complex16_stores out x y 6 5 5 1);
    try (simpl; lia); repeat constructor; unfold is_int16; simpl; lia.
Defined.

(** X13: what the 32-bit conjugate multiplication stores in its two
    output buffers, under the same conditions and without a shift. *)
Theorem conj_mul_complex16_int32_stores :
  forall (re_ im_ : list Z) (x y : list complex) (lenout1 lenout2 len1 len2 : Z),
    Forall wf_complex16 x -> Forall wf_complex16 y ->
    0 <= len1 -> len1 <= Z.of_nat (length re_) -> len1 <= Z.of_nat (length im_) ->
    let r := __ext_v_conj_mul_complex16_int32 re_ lenout1 im_ lenout2 x len1 y len2 in
    snd r = 0
    /\ length (fst (fst r)) = length re_ /\ length (snd (fst r)) = length im_
    /\ forall i,
        rdZ (fst (fst r)) i
        = (if (0 <=? i) && (i <? len1)
           then ref_conj_mul_re (rdC x i) (rdC y i) else rdZ re_ i)
        /\ rdZ (snd (fst r)) i
        = (if (0 <=? i) && (i <? vector_end len1 4)
           then vec_conj_mul_im (rdC x i) (rdC y i)
           else if (vector_end len1 4 <=? i) && (i <? len1)
           then ref_conj_mul_im (rdC x i) (rdC y i)
           else rdZ im_ i).
Proof.
  intros re_ im_ x y lenout1 lenout2 len1 len2 Hx Hy Hlen Hre Him. cbv zeta.
  rewrite conj_mul_complex16_int32_loops by assumption. cbn [fst snd].
  split; [reflexivity|].
  destruct (vector_end_bounds len1 4 ltac:(lia)) as [B _]. specialize (B Hlen).
  destruct (two_loops_pointwise 0
              (fun i => ref_conj_mul_re (rdC x i) (rdC y i))
              (fun i => ref_conj_mul_re (rdC x i) (rdC y i))
              (vector_end len1 4) len1 re_ B Hre) as [L1 R1].
  destruct (two_loops_pointwise 0
              (fun i => vec_conj_mul_im (rdC x i) (rdC y i))
              (fun i => ref_conj_mul_im (rdC x i) (rdC y i))
              (vector_end len1 4) len1 im_ B Him) as [L2 R2].
  cbv zeta in *. split; [exact L1|]. split; [exact L2|].
  intros i. split; [|apply R2]. unfold rdZ at 1. rewrite R1.
  destruct (Z.leb_spec 0 i), (Z.ltb_spec i (vector_end len1 4)),
    (Z.leb_spec (vector_end len1 4) i), (Z.ltb_spec i len1); simpl; auto; lia.
Qed.

Lemma conj_mul_complex16_int32_stores_witness :
  let re_ := repeat 0 6 in
  let im_ := repeat 0 6 in
  let x := repeat (Cplx 2 1) 5 in
  let y := repeat (Cplx 3 (-32768)) 5 in
  let r := __ext_v_conj_mul_complex16_int32 re_ 6 im_ 6 x 5 y 5 in
  snd r = 0
  /\ length (fst (fst r)) = length re_ /\ length (snd (fst r)) = length im_
  /\ forall i,
      rdZ (fst (fst r)) i
      = (if (0 <=? i) && (i <? 5)
         then ref_conj_mul_re (rdC x i) (rdC y i) else rdZ re_ i)
      /\ rdZ (snd (fst r)) i
      = (if (0 <=? i) && (i <? vector_end 5 4)
         then vec_conj_mul_im (rdC x i) (rdC y i)
         else if (vector_end 5 4 <=? i) && (i <? 5)
         then ref_conj_mul_im (rdC x i) (rdC y i)
         else rdZ im_ i).
Proof.
  intros re_ im_ x y.
  apply (conj_mul_complex16_int32_stores re_ im_ x y 6 6 5 5);
    try (simpl; lia); repeat constructor; unfold is_int16; simpl; lia.
Defined.

(** X14: without a shift, [conjugateMultiply] stores the 16-bit
    truncation of what the 32-bit conjugate multiplication stores, in the
    vector loop and in the remainder loop alike and for every input of
    16-bit components. *)
Theorem conj_mul_complex16_narrows_int32 :
  forall (out x y : list complex) (re_ im_ : list Z)
         (lenout lenout1 lenout2 len1 len2 : Z),
    Forall wf_complex16 x -> Forall wf_complex16 y ->
    len1 <= Z.of_nat (length out) ->
    len1 <= Z.of_nat (length re_) -> len1 <= Z.of_nat (length im_) ->
    let wide := fst (__ext_v_conj_mul_complex16_int32 re_ lenout1 im_ lenout2
                       x len1 y len2) in
    forall i, 0 <= i < len1 ->
      rdC (fst (__ext_v_conj_mul_complex16 out lenout x len1 y len2 0)) i
      = Cplx (int16_of (rdZ (fst wide) i)) (int16_of (rdZ (snd wide) i)).
Proof.
  intros out x y re_ im_ lenout lenout1 lenout2 len1 len2 Hx Hy Hout Hre Him wide i Hi.
  subst wide.
  rewrite conj_mul_complex16_loops by (auto; lia).
  rewrite conj_mul_complex16_int32_loops by assumption. cbn [fst snd].
  destruct (vector_end_bounds len1 4 ltac:(lia)) as [B _]. specialize (B ltac:(lia)).
  destruct (two_loops_pointwise czero
    (fun i => Cplx (int16_of (Z.shiftr (ref_conj_mul_re (rdC x i) (rdC y i)) 0))
                   (int16_of (Z.shiftr (vec_conj_mul_im (rdC x i) (rdC y i)) 0)))
    (fun i => Cplx (int16_of (Z.shiftr (ref_conj_mul_re (rdC x i) (rdC y i)) 0))
                   (int16_of (Z.shiftr (ref_conj_mul_im (rdC x i) (rdC y i)) 0)))
    (vector_end len1 4) len1 out B Hout) as [_ R0].
  destruct (two_loops_pointwise 0
              (fun i => ref_conj_mul_re (rdC x i) (rdC y i))
              (fun i => ref_conj_mul_re (rdC x i) (rdC y i))
              (vector_end len1 4) len1 re_ B Hre) as [_ R1].
  destruct (two_loops_pointwise 0
              (fun i => vec_conj_mul_im (rdC x i) (rdC y i))
              (fun i => ref_conj_mul_im (rdC x i) (rdC y i))
              (vector_end len1 4) len1 im_ B Him) as [_ R2].
  cbv zeta in *. unfold rdC at 1, rdZ at 1 2. rewrite R0, R1, R2.
  rewrite !Z.shiftr_0_r.
  destruct (Z.leb_spec 0 i), (Z.ltb_spec i (vector_end len1 4)),
    (Z.leb_spec (vector_end len1 4) i), (Z.ltb_spec i len1); simpl; auto; lia.
Qed.

Lemma conj_mul_complex16_narrows_int32_witness :
  let x := repeat (Cplx 300 200) 5 in
  let y := repeat (Cplx 300 (-32768)) 5 in
  let wide := fst (__ext_v_conj_mul_complex16_int32 (repeat 0 5) 5 (repeat 0 5) 5
                     x 5 y 5) in
  rdC (fst (__ext_v_conj_mul_complex16 (repeat czero 5) 5 x 5 y 5 0)) 1
  = Cplx (int16_of (rdZ (fst wide) 1)) (int16_of (rdZ (snd wide) 1)).
Proof.
  intros x y.
  apply (conj_mul_complex16_narrows_int32 (repeat czero 5) x y (repeat 0 5) (repeat 0 5)
           5 5 5 5 5);
    try (simpl; lia); repeat constructor; unfold is_int16; simpl; lia.
Defined.

(** X15: [multiply] does not depend on the order of its two inputs as
    long as no imaginary part is [-32768]: the whole output buffer is the
    same. *)
Theorem mul_complex16_commutes :
  forall (out x y : list complex) (lenout len len1 len2 shift : Z),
    Forall wf_complex16 x -> Forall wf_complex16 y ->
    Forall (fun c => negatable (im c)) x -> Forall (fun c => negatable (im c)) y ->
    0 <= shift < 32 ->
    __ext_v_mul_complex16 out lenout x len y len2 shift
    = __ext_v_mul_complex16 out lenout y len x len1 shift.
Proof.
  intros out x y lenout len len1 len2 shift Hx Hy Nx Ny Hs.
  rewrite !mul_complex16_is_scalar by assumption. f_equal.
  unfold scalar_mul_complex16. apply for_loop_ext. intros j t Hj. cbv zeta.
  rewrite !set_im_set_re, !sub_int_mul, !add_int_mul.
  replace (re (rdC y j) * re (rdC x j) - im (rdC y j) * im (rdC x j))
    with (re (rdC x j) * re (rdC y j) - im (rdC x j) * im (rdC y j)) by ring.
  replace (re (rdC y j) * im (rdC x j) + im (rdC y j) * re (rdC x j))
    with (re (rdC x j) * im (rdC y j) + im (rdC x j) * re (rdC y j)) by ring.
  reflexivity.
Qed.

Lemma mul_complex16_commutes_witness :
  __ext_v_mul_complex16 (repeat czero 5) 5 (repeat (Cplx 3 (-4)) 5) 5
      (repeat (Cplx 5 6) 5) 5 1
  = __ext_v_mul_complex16 (repeat czero 5) 5 (repeat (Cplx 5 6) 5) 5
      (repeat (Cplx 3 (-4)) 5) 5 1.
Proof.
  apply (mul_complex16_commutes (repeat czero 5) (repeat (Cplx 3 (-4)) 5)
           (repeat (Cplx 5 6) 5) 5 5 5 5 1);
    try lia; repeat constructor; unfold is_int16, negatable; simpl; lia.
Defined.

(** X16: the conjugate product of a buffer with itself has no imaginary
    part, and its real part is the squared magnitude, kept to 32 bits,
    shifted and narrowed, as long as no imaginary part is [-32768]. *)
Theorem conj_mul_complex16_self :
  forall (out x : list complex) (lenout len1 len2 shift i : Z),
    Forall wf_complex16 x -> Forall (fun c => negatable (im c)) x ->
    0 <= shift < 32 -> len1 <= Z.of_nat (length out) -> 0 <= i < len1 ->
    rdC (fst (__ext_v_conj_mul_complex16 out lenout x len1 x len2 shift)) i
    = Cplx (int16_of (Z.shiftr
              (int32_of (re (rdC x i) * re (rdC x i) + im (rdC x i) * im (rdC x i)))
              shift)) 0.
Proof.
  intros out x lenout len1 len2 shift i Hx Nx Hs Hout Hi.
  rewrite conj_mul_complex16_formula by assumption.
  unfold ref_conj_mul_re, ref_conj_mul_im.
  replace (im (rdC x i) * re (rdC x i) - re (rdC x i) * im (rdC x i)) with 0 by ring.
  change (int32_of 0) with 0. rewrite Z.shiftr_0_l. reflexivity.
Qed.

Lemma conj_mul_complex16_self_witness :
  rdC (fst (__ext_v_conj_mul_complex16 (repeat czero 5) 5
              (repeat (Cplx 3 (-4)) 5) 5 (repeat (Cplx 3 (-4)) 5) 5 1)) 4
  = Cplx (int16_of (Z.shiftr
            (int32_of (re (rdC (repeat (Cplx 3 (-4)) 5) 4)
                       * re (rdC (repeat (Cplx 3 (-4)) 5) 4)
                       + im (rdC (repeat (Cplx 3 (-4)) 5) 4)
                         * im (rdC (repeat (Cplx 3 (-4)) 5) 4)))
            1)) 0.
Proof.
  apply (conj_mul_complex16_self (repeat czero 5) (repeat (Cplx 3 (-4)) 5) 5 5 5 1 4);
    try (simpl; lia); repeat constructor; unfold is_int16, negatable; simpl; lia.
Defined.

(** ** Narrowing of components that fit *)

Lemma pack_loops output lenout input lenin :
  Forall wf_complex16 input -> 0 <= lenin ->
  __ext_v_pack_complex16_complex8 output lenout input lenin
  = for_loop (vector_end lenin 8) lenin
      (fun j p => wr p j (narrow_complex8 (rdC input j)))
      (for_loop 0 (vector_end lenin 8)
         (fun j p => wr p j (sat_complex8 (rdC input j))) output).
Proof.
  intros Hwf Hlen. unfold __ext_v_pack_complex16_complex8, vector_end, div_int.
  rewrite (Z.quot_div_nonneg lenin 4) by lia.
  rewrite (Z.quot_div_nonneg (lenin / 4) 2) by (try apply Z.div_pos; lia).
  rewrite (Z.quot_div_nonneg lenin 8) by lia.
  rewrite Z.div_div by lia. change (4 * 2) with 8.
  assert (Hq : 0 <= lenin / 8) by (apply Z.div_pos; lia).
  rewrite Z.max_r by assumption.
  rewrite (for_loop_ext _ (fun j p => wr p j (narrow_complex8 (rdC input j))))
    by (intros; apply set_im_set_re).
  replace (lenin / 8 * 2 * 4) with (lenin / 8 * 8) by lia.
  f_equal.
  unfold for_loop. rewrite !Z.sub_0_r.
  rewrite (vector_iterations 8 _ (fun j s => wr s j (sat_complex8 (rdC input j)))).
  - f_equal. lia.
  - lia.
  - intros k s _. change (Z.of_nat 8) with 8. now apply pack_chunk.
Qed.

Lemma sat8_small v : -128 <= v <= 127 -> sat8 v = v.
Proof.
  intros H. unfold sat8.
  destruct (Z.ltb_spec v (-128)); [lia|]. destruct (Z.ltb_spec 127 v); [lia|]. reflexivity.
Qed.

Lemma int8_of_small v : -128 <= v <= 127 -> int8_of v = v.
Proof. intros H. unfold int8_of. rewrite Z.mod_small; lia. Qed.

(** X17: on an input whose components all fit eight bits, [pack] copies
    the first [lenin] elements unchanged, through the saturating vector
    loop and the truncating remainder loop alike, and keeps the length
    and the rest of the output. *)
Theorem pack_copies_small_components :
  forall (output input : list complex) (lenout lenin : Z),
    Forall (fun c => (-128 <= re c <= 127) /\ (-128 <= im c <= 127)) input ->
    0 <= lenin <= Z.of_nat (length output) ->
    let out := __ext_v_pack_complex16_complex8 output lenout input lenin in
    length out = length output
    /\ forall i, rdC out i = if (0 <=? i) && (i <? lenin) then rdC input i
                             else rdC output i.
Proof.
  intros output input lenout lenin Hsmall Hlen. cbv zeta.
  assert (Hwf : Forall wf_complex16 input).
  { eapply Forall_impl; [|exact Hsmall]. intros c [H1 H2].
    unfold wf_complex16, is_int16. lia. }
  rewrite pack_loops by (auto; lia).
  destruct (vector_end_bounds lenin 8 ltac:(lia)) as [B _]. specialize (B ltac:(lia)).
  destruct (two_loops_pointwise czero
              (fun j => sat_complex8 (rdC input j))
              (fun j => narrow_complex8 (rdC input j))
              (vector_end lenin 8) lenin output B ltac:(lia)) as [L R].
  cbv zeta in *. split; [exact L|]. intros i. unfold rdC at 1. rewrite R.
  assert (S : (-128 <= re (rdC input i) <= 127) /\ (-128 <= im (rdC input i) <= 127)).
  { apply (rd_Forall (fun c => (-128 <= re c <= 127) /\ (-128 <= im c <= 127)));
      [exact Hsmall|simpl; lia]. }
  destruct S as [S1 S2].
  unfold sat_complex8, narrow_complex8.
  rewrite !sat8_small, !int8_of_small by assumption.
  fold (rdC input i). fold (rdC output i).
  destruct (rdC input i) as [a b]. cbn [re im].
  destruct (Z.leb_spec 0 i), (Z.ltb_spec i (vector_end lenin 8)),
    (Z.leb_spec (vector_end lenin 8) i), (Z.ltb_spec i lenin); simpl; auto; lia.
Qed.

Lemma pack_copies_small_components_witness :
  let output := repeat czero 10 in
  let input := repeat (Cplx (-128) 127) 9 in
  let out := __ext_v_pack_complex16_complex8 output 10 input 9 in
  length out = length output
  /\ forall i, rdC out i = if (0 <=? i) && (i <? 9) then rdC input i else rdC output i.
Proof.
  intros output input.
  apply (pack_copies_small_components output input 10 9);
    try (simpl; lia); repeat constructor; simpl; lia.
Defined.

(** ** Sums: agreement and composition with addition *)

Lemma sum_from_ext_bounded f g n :
  forall i, (forall j, i <= j < i + Z.of_nat n -> f j = g j) ->
            sum_from f i n = sum_from g i n.
Proof.
  induction n as [|n IH]; intros i H; cbn [sum_from]; [reflexivity|].
  rewrite H by lia. f_equal. apply IH. intros j Hj. apply H. lia.
Qed.

Lemma sum_from_add f g n :
  forall i, sum_from (fun j => f j + g j) i n = sum_from f i n + sum_from g i n.
Proof.
  induction n as [|n IH]; intros i; cbn [sum_from]; [reflexivity|].
  rewrite IH. ring.
Qed.

Lemma sum_from_int32_of f n :
  forall i, exists k, sum_from (fun j => int32_of (f j)) i n = sum_from f i n + 4294967296 * k.
Proof.
  induction n as [|n IH]; intros i; cbn [sum_from].
  - exists 0. reflexivity.
  - destruct (IH (i + 1)) as [k E]. destruct (int32_of_decomp (f i)) as [k' E'].
    exists (k + k'). rewrite E, E'. ring.
Qed.

Lemma sum_from_int16_of f n :
  forall i, exists k, sum_from (fun j => int16_of (f j)) i n = sum_from f i n + 65536 * k.
Proof.
  induction n as [|n IH]; intros i; cbn [sum_from].
  - exists 0. reflexivity.
  - destruct (IH (i + 1)) as [k E]. destruct (int16_of_decomp (f i)) as [k' E'].
    exists (k + k'). rewrite E, E'. ring.
Qed.

Lemma sum_int32_sum_from x len :
  __ext_v_sum_int32 x len = int32_of (sum_from (rdZ x) 0 (Z.to_nat (unum32_of len))).
Proof.
  unfold __ext_v_sum_int32, for_loop. rewrite Z.sub_0_r.
  rewrite (for_iter_ext _ (fun i s => int32_of (s + rdZ x i))) by reflexivity.
  now rewrite (accumulate_wrapped int32_of int32_of_idem int32_of_add_wrapped) by reflexivity.
Qed.

Lemma sum_int16_sum_from x len :
  __ext_v_sum_int16 x len = int16_of (sum_from (rdZ x) 0 (Z.to_nat (unum32_of len))).
Proof.
  unfold __ext_v_sum_int16, for_loop. rewrite Z.sub_0_r.
  rewrite (for_iter_ext _ (fun i s => int16_of (s + rdZ x i)))
    by (intros; unfold add_int; apply int16_of_int32_of).
  now rewrite (accumulate_wrapped int16_of int16_of_idem int16_of_add_wrapped) by reflexivity.
Qed.

(** X18: on four elements the generic sums and the four-element sums
    agree, except that [__ext_sumi32] returns the 16-bit truncation of
    what [__ext_v_sum_int32] returns. *)
Theorem four_element_sums_agree :
  forall (x : list complex) (xi : list Z) (u : Z),
    __ext_v_sum_complex16 x 4 = __ext_sumc16 x u
    /\ __ext_v_sum_complex32 x 4 = __ext_sumc32 x u
    /\ __ext_v_sum_int16 xi 4 = __ext_sumi16 xi u
    /\ __ext_sumi32 xi u = int16_of (__ext_v_sum_int32 xi 4).
Proof.
  intros x xi u.
  rewrite sum_complex16_is_wrapped_sum, sum_complex32_is_wrapped_sum,
    sumc16_is_wrapped_sum, sumc32_is_wrapped_sum, sumi16_is_wrapped_sum,
    sumi32_is_16_bit_sum, sum_int16_sum_from, sum_int32_sum_from.
  change (Z.to_nat (unum32_of 4)) with 4%nat. change (Z.to_nat 4) with 4%nat.
  cbn [sum_from]. change (0 + 1) with 1. change (1 + 1) with 2. change (2 + 1) with 3.
  rewrite int16_of_int32_of, !Z.add_0_r, !Z.add_assoc.
  repeat split.
Qed.

(** X19: [__ext_sumi32] returns the 32-bit sum of its four elements
    exactly when that sum fits 16 bits. *)
Theorem sumi32_exact_iff_sum_fits_int16 :
  forall (x : list Z) (u : Z),
    __ext_sumi32 x u = int32_of (rdZ x 0 + rdZ x 1 + rdZ x 2 + rdZ x 3)
    <-> is_int16 (int32_of (rdZ x 0 + rdZ x 1 + rdZ x 2 + rdZ x 3)).
Proof.
  intros x u. rewrite sumi32_is_16_bit_sum, <- int16_of_int32_of.
  split.
  - intros E. rewrite <- E. apply int16_of_range.
  - apply int16_of_id.
Qed.

(** X20: summing the output of the addition kernel gives the wrapped sum
    of the two sums, for [int32] and for [int16] buffers. *)
Theorem sum_of_add_is_add_of_sums :
  forall (c a b c' a' b' : list Z) (len u2 u1 : Z),
    0 <= len < 4294967296 ->
    len <= Z.of_nat (length c) -> len <= Z.of_nat (length c') ->
    __ext_v_sum_int32 (fst (__ext_v_add_int32 c len a u2 b u1)) len
      = add_int (__ext_v_sum_int32 a len) (__ext_v_sum_int32 b len)
    /\ __ext_v_sum_int16 (fst (__ext_v_add_int16 c' len a' u2 b' u1)) len
      = int16_of (__ext_v_sum_int16 a' len + __ext_v_sum_int16 b' len).
Proof.
  intros c a b c' a' b' len u2 u1 Hlen Hc Hc'.
  rewrite add_int32_is_scalar, add_int16_is_scalar. cbn [fst].
  rewrite !sum_int32_sum_from, !sum_int16_sum_from.
  unfold unum32_of. rewrite Z.mod_small by assumption.
  destruct (scalar_int32_spec add_int c len a b Hc) as [_ R].
  destruct (scalar_int16_spec add_int c' len a' b' Hc') as [_ R'].
  rewrite (sum_from_ext_bounded (rdZ (scalar_int32 add_int c len a b))
             (fun j => int32_of (rdZ a j + rdZ b j)))
    by (intros j Hj; rewrite R, in_range_true by lia; reflexivity).
  rewrite (sum_from_ext_bounded (rdZ (scalar_int16 add_int c' len a' b'))
             (fun j => int16_of (rdZ a' j + rdZ b' j)))
    by (intros j Hj; rewrite R', in_range_true, int16_of_add_int by lia; reflexivity).
  destruct (sum_from_int32_of (fun j => rdZ a j + rdZ b j) (Z.to_nat len) 0) as [k E].
  destruct (sum_from_int16_of (fun j => rdZ a' j + rdZ b' j) (Z.to_nat len) 0) as [k' E'].
  rewrite E, E', !sum_from_add. unfold add_int.
  destruct (int32_of_decomp (sum_from (rdZ a) 0 (Z.to_nat len))) as [k1 E1].
  destruct (int32_of_decomp (sum_from (rdZ b) 0 (Z.to_nat len))) as [k2 E2].
  destruct (int16_of_decomp (sum_from (rdZ a') 0 (Z.to_nat len))) as [k3 E3].
  destruct (int16_of_decomp (sum_from (rdZ b') 0 (Z.to_nat len))) as [k4 E4].
  rewrite E1, E2, E3, E4. split.
  - apply int32_of_eqm with (k := k - k1 - k2). lia.
  - apply int16_of_eqm with (k := k' - k3 - k4). lia.
Qed.

Lemma sum_of_add_is_add_of_sums_witness :
  __ext_v_sum_int32 (fst (__ext_v_add_int32 [0; 0; 0] 3 [2147483647; 1; 2] 0
                            [1; 5; 6] 0)) 3
    = add_int (__ext_v_sum_int32 [2147483647; 1; 2] 3) (__ext_v_sum_int32 [1; 5; 6] 3)
  /\ __ext_v_sum_int16 (fst (__ext_v_add_int16 [0; 0; 0] 3 [32767; 1; 2] 0
                              [1; 5; 6] 0)) 3
    = int16_of (__ext_v_sum_int16 [32767; 1; 2] 3 + __ext_v_sum_int16 [1; 5; 6] 3).
Proof.
  apply (sum_of_add_is_add_of_sums [0; 0; 0] [2147483647; 1; 2] [1; 5; 6]
           [0; 0; 0] [32767; 1; 2] [1; 5; 6] 3 0 0); simpl; lia.
Defined.

(** ** The generic bitwise kernels, byte by byte *)

Lemma unum8_bit_high b n : is_unum8 b -> 8 <= n -> Z.testbit b n = false.
Proof.
  intros Hb Hn. apply is_unum8_land_ones in Hb. rewrite <- Hb, Z.land_spec.
  rewrite Z.ones_spec_high by lia. apply andb_false_r.
Qed.

Lemma bits_is_unum8 b :
  0 <= b -> (forall n, 8 <= n -> Z.testbit b n = false) -> is_unum8 b.
Proof.
  intros H0 H. apply is_unum8_land_ones. apply Z.bits_inj'. intros n Hn.
  rewrite Z.land_spec. destruct (Z_lt_ge_dec n 8).
  - rewrite Z.ones_spec_low by lia. apply andb_true_r.
  - rewrite Z.ones_spec_high, H by lia. apply andb_false_r.
Qed.

Lemma is_unum8_land a b : is_unum8 a -> is_unum8 b -> is_unum8 (Z.land a b).
Proof.
  intros Ha Hb. apply bits_is_unum8.
  - apply Z.land_nonneg. unfold is_unum8 in Ha. lia.
  - intros n Hn. now rewrite Z.land_spec, (unum8_bit_high a) by assumption.
Qed.

Lemma is_unum8_lxor a b : is_unum8 a -> is_unum8 b -> is_unum8 (Z.lxor a b).
Proof.
  intros Ha Hb. apply bits_is_unum8.
  - apply Z.lxor_nonneg. unfold is_unum8 in *. lia.
  - intros n Hn. now rewrite Z.lxor_spec, (unum8_bit_high a), (unum8_bit_high b).
Qed.

Lemma is_unum8_andnot a b : is_unum8 b -> is_unum8 (Z.land (Z.lnot a) b).
Proof.
  intros Hb. apply bits_is_unum8.
  - apply Z.land_nonneg. unfold is_unum8 in Hb. lia.
  - intros n Hn. rewrite Z.land_spec, (unum8_bit_high b) by assumption.
    apply andb_false_r.
Qed.

Lemma land_bytes a b v w :
  is_unum8 a -> is_unum8 b ->
  Z.land (Z.lor a (Z.shiftl v 8)) (Z.lor b (Z.shiftl w 8))
  = Z.lor (Z.land a b) (Z.shiftl (Z.land v w) 8).
Proof.
  intros Ha Hb. apply Z.bits_inj'. intros n Hn.
  rewrite !Z.land_spec, !Z.lor_spec, Z.land_spec.
  destruct (Z_lt_ge_dec n 8).
  - rewrite !Z.shiftl_spec_low by lia. now rewrite !orb_false_r.
  - rewrite !Z.shiftl_spec, Z.land_spec by lia.
    now rewrite (unum8_bit_high a), (unum8_bit_high b) by (auto; lia).
Qed.

Lemma lxor_bytes a b v w :
  is_unum8 a -> is_unum8 b ->
  Z.lxor (Z.lor a (Z.shiftl v 8)) (Z.lor b (Z.shiftl w 8))
  = Z.lor (Z.lxor a b) (Z.shiftl (Z.lxor v w) 8).
Proof.
  intros Ha Hb. apply Z.bits_inj'. intros n Hn.
  rewrite !Z.lxor_spec, !Z.lor_spec, Z.lxor_spec.
  destruct (Z_lt_ge_dec n 8).
  - rewrite !Z.shiftl_spec_low by lia. now rewrite !orb_false_r.
  - rewrite !Z.shiftl_spec, Z.lxor_spec by lia.
    now rewrite (unum8_bit_high a), (unum8_bit_high b) by (auto; lia).
Qed.

Lemma andnot_bytes a b v w :
  is_unum8 a -> is_unum8 b ->
  Z.land (Z.lnot (Z.lor a (Z.shiftl v 8))) (Z.lor b (Z.shiftl w 8))
  = Z.lor (Z.land (Z.lnot a) b) (Z.shiftl (Z.land (Z.lnot v) w) 8).
Proof.
  intros Ha Hb. apply Z.bits_inj'. intros n Hn.
  rewrite !Z.land_spec, !Z.lor_spec, Z.lnot_spec, Z.lor_spec, Z.land_spec, Z.lnot_spec
    by assumption.
  destruct (Z_lt_ge_dec n 8).
  - rewrite !Z.shiftl_spec_low by lia. now rewrite !orb_false_r.
  - rewrite !Z.shiftl_spec, Z.land_spec, Z.lnot_spec by lia.
    now rewrite (unum8_bit_high a), (unum8_bit_high b) by (auto; lia).
Qed.

Section BytewiseOps.
Variables (wop sop : Z -> Z -> Z).
Hypothesis sop_unum8 : forall a b, is_unum8 a -> is_unum8 b -> is_unum8 (sop a b).
Hypothesis wop_bytes : forall a b v w,
  is_unum8 a -> is_unum8 b ->
  wop (Z.lor a (Z.shiftl v 8)) (Z.lor b (Z.shiftl w 8))
  = Z.lor (sop a b) (Z.shiftl (wop v w) 8).
Variables input1 input2 : list Z.
Hypothesis wf1 : Forall is_unum8 input1.
Hypothesis wf2 : Forall is_unum8 input2.

(** The bytes of the operation on two wide loads are the operation on
    the bytes. *)
Lemma bytes_of_uint_op (l1 : list Z) :
  forall l2, length l1 = length l2 ->
    Forall is_unum8 l1 -> Forall is_unum8 l2 ->
    bytes_of_uint (length l1) (wop (uint_of_bytes l1) (uint_of_bytes l2))
      = map (fun ab => sop (fst ab) (snd ab)) (combine l1 l2).
Proof.
  induction l1 as [|a l1 IH]; intros [|b l2] Hlen H1 H2; simpl in Hlen; try lia.
  - reflexivity.
  - inversion H1; inversion H2; subst.
    cbn [length bytes_of_uint uint_of_bytes combine map fst snd].
    rewrite wop_bytes by assumption.
    rewrite lor_byte_shiftl by now apply sop_unum8.
    rewrite byte_split_low, byte_split_high by now apply sop_unum8.
    f_equal. apply IH; auto.
Qed.

Lemma store_bytes_op base n :
  forall s output,
    store_bytes output (base + Z.of_nat s)
      (map (fun ab => sop (fst ab) (snd ab))
         (combine (map (fun k => rdZ input1 (base + Z.of_nat k)) (seq s n))
                  (map (fun k => rdZ input2 (base + Z.of_nat k)) (seq s n))))
    = for_iter n (base + Z.of_nat s)
        (fun j p => wr p j (sop (rdZ input1 j) (rdZ input2 j))) output.
Proof.
  induction n as [|n IH]; intros s output; [reflexivity|].
  cbn [seq map combine store_bytes for_iter fst snd].
  replace (base + Z.of_nat s + 1) with (base + Z.of_nat (S s)) by lia.
  apply IH.
Qed.

Lemma store_op_load n output off :
  store_uint n output off (wop (load_uint n input1 off) (load_uint n input2 off))
    = for_iter n off (fun j p => wr p j (sop (rdZ input1 j) (rdZ input2 j))) output.
Proof.
  unfold store_uint, load_uint.
  set (l1 := map (fun k => rdZ input1 (off + Z.of_nat k)) (seq 0 n)).
  set (l2 := map (fun k => rdZ input2 (off + Z.of_nat k)) (seq 0 n)).
  assert (H1 : length l1 = n) by (subst l1; now rewrite length_map, length_seq).
  assert (H2 : length l2 = n) by (subst l2; now rewrite length_map, length_seq).
  rewrite <- H1 at 1. rewrite bytes_of_uint_op.
  - subst l1 l2. pose proof (store_bytes_op off n 0 output) as H.
    now rewrite Z.add_0_r in H.
  - congruence.
  - subst l1. apply Forall_map, Forall_forall. intros k _. now apply rdZ_unum8.
  - subst l2. apply Forall_map, Forall_forall. intros k _. now apply rdZ_unum8.
Qed.

(** One 16-byte block. *)
Lemma block_op output cnt :
  storeu_bytes output cnt
    (lanes2 wop (loadu_bytes input1 cnt) (loadu_bytes input2 cnt))
  = for_iter 16 cnt (fun j p => wr p j (sop (rdZ input1 j) (rdZ input2 j))) output.
Proof.
  unfold storeu_bytes, loadu_bytes, lanes2. cbn [w0 w1 w2 w3].
  rewrite !store_op_load.
  change 16%nat with (4 + (4 + (4 + 4)))%nat.
  rewrite !for_iter_app. change (Z.of_nat 4) with 4.
  replace (cnt + 4 + 4) with (cnt + 8) by lia.
  replace (cnt + 8 + 4) with (cnt + 12) by lia.
  reflexivity.
Qed.

(** The two loops of a generic kernel together are one loop over the
    [bytelen inlen1] bytes. *)
Lemma bitwise_kernel_is_byte_loop output inlen1 :
  bitwise_kernel (lanes2 wop) sop output input1 inlen1 input2
  = (Z.max 0 (bytelen inlen1),
     for_loop 0 (bytelen inlen1)
       (fun j p => wr p j (sop (rdZ input1 j) (rdZ input2 j))) output).
Proof.
  unfold bitwise_kernel.
  set (n := bytelen inlen1).
  set (body := fun j p => wr p j (sop (rdZ input1 j) (rdZ input2 j))).
  set (c1 := fun s : Z * list Z => let '(cnt, _) := s in cnt + 16 <=? n).
  set (b1 := fun s : Z * list Z => let '(cnt, output) := s in
               (cnt + 16, storeu_bytes output cnt
                  (lanes2 wop (loadu_bytes input1 cnt) (loadu_bytes input2 cnt)))).
  set (c2 := fun s : Z * list Z => let '(cnt, _) := s in cnt <? n).
  set (b2 := fun s : Z * list Z => let '(cnt, output) := s in
               (cnt + 1, wr output cnt (sop (rdZ input1 cnt) (rdZ input2 cnt)))).
  set (P := fun s : Z * list Z =>
              0 <= fst s <= Z.max 0 n
              /\ snd s = for_iter (Z.to_nat (fst s)) 0 body output).
  set (s1 := while_loop (Z.to_nat (n + 1)) c1 b1 (0, output)).
  assert (P1 : P s1).
  { apply (while_loop_invariant c1 b1 P).
    - intros [cnt o] [Hc Ho] Hcond. unfold c1 in Hcond. apply Z.leb_le in Hcond.
      cbn [fst snd] in *. unfold b1, P. cbn [fst snd]. split; [lia|].
      rewrite block_op, Ho.
      replace (Z.to_nat (cnt + 16)) with (Z.to_nat cnt + 16)%nat by lia.
      rewrite for_iter_app. f_equal. lia.
    - unfold P. cbn [fst snd]. split; [lia|reflexivity]. }
  set (s2 := while_loop (Z.to_nat (n + 1)) c2 b2 s1).
  assert (P2 : P s2).
  { apply (while_loop_invariant c2 b2 P); [|exact P1].
    intros [cnt o] [Hc Ho] Hcond. unfold c2 in Hcond. apply Z.ltb_lt in Hcond.
    cbn [fst snd] in *. unfold b2, P. cbn [fst snd]. split; [lia|].
    rewrite Ho.
    replace (Z.to_nat (cnt + 1)) with (Z.to_nat cnt + 1)%nat by lia.
    rewrite for_iter_app. cbn [for_iter].
    replace (0 + Z.of_nat (Z.to_nat cnt)) with cnt by lia. reflexivity. }
  assert (E2 : c2 s2 = false).
  { apply (while_loop_exits c2 b2 (fun s => n - fst s)).
    - intros [cnt o] H. unfold c2 in H. apply Z.ltb_lt in H. simpl. lia.
    - destruct P1 as [H1 _]. cbv beta. lia. }
  destruct s2 as [cnt o]. destruct P2 as [Hc Ho]. cbn [fst snd] in *.
  unfold c2 in E2. apply Z.ltb_ge in E2.
  assert (cnt = Z.max 0 n) by lia. subst cnt. f_equal.
  rewrite Ho. unfold for_loop. f_equal. lia.
Qed.

Lemma bitwise_kernel_pointwise output inlen1 :
  bytelen inlen1 <= Z.of_nat (length output) ->
  let out := snd (bitwise_kernel (lanes2 wop) sop output input1 inlen1 input2) in
  length out = length output
  /\ forall i, rdZ out i = if (0 <=? i) && (i <? bytelen inlen1)
                           then sop (rdZ input1 i) (rdZ input2 i) else rdZ output i.
Proof.
  intros Hlen. cbv zeta. rewrite bitwise_kernel_is_byte_loop. cbn [snd].
  exact (for_loop_pointwise 0 _ 0 (bytelen inlen1) output (Z.le_refl 0) Hlen).
Qed.

End BytewiseOps.
Lemma while_loop_ext {St : Type} (cond : St -> bool) (body body' : St -> St) fuel :
  (forall s, body s = body' s) ->
  forall s, while_loop fuel cond body s = while_loop fuel cond body' s.
Proof.
  intros H. induction fuel as [|fuel IH]; intros s; cbn [while_loop]; [reflexivity|].
  destruct (cond s); [|reflexivity]. rewrite H. apply IH.
Qed.

Lemma bitwise_kernel_ext vop vop' sop sop' output input1 inlen1 input2 :
  (forall cnt, vop (loadu_bytes input1 cnt) (loadu_bytes input2 cnt)
               = vop' (loadu_bytes input1 cnt) (loadu_bytes input2 cnt)) ->
  (forall cnt, sop (rdZ input1 cnt) (rdZ input2 cnt)
               = sop' (rdZ input1 cnt) (rdZ input2 cnt)) ->
  bitwise_kernel vop sop output input1 inlen1 input2
  = bitwise_kernel vop' sop' output input1 inlen1 input2.
Proof.
  intros Hv Hs. unfold bitwise_kernel. cbv zeta.
  rewrite (while_loop_ext _ _
             (fun '(cnt, output) =>
                (cnt + 1, wr output cnt (sop' (rdZ input1 cnt) (rdZ input2 cnt)))))
    by (intros [cnt o]; now rewrite Hs).
  f_equal. apply while_loop_ext. intros [cnt o]. now rewrite Hv.
Qed.

Lemma uint_of_bytes_range l :
  Forall is_unum8 l -> 0 <= uint_of_bytes l < 256 ^ Z.of_nat (length l).
Proof.
  induction 1 as [|b l Hb Hl IH]; [simpl; lia|].
  cbn [uint_of_bytes length]. rewrite lor_byte_shiftl by assumption.
  rewrite Nat2Z.inj_succ, Z.pow_succ_r by lia. unfold is_unum8 in Hb. lia.
Qed.

Lemma load_uint4_range p off : Forall is_unum8 p -> 0 <= load_uint 4 p off < 4294967296.
Proof.
  intros H. unfold load_uint.
  pose proof (uint_of_bytes_range (map (fun k => rdZ p (off + Z.of_nat k)) (seq 0 4))) as R.
  rewrite length_map, length_seq in R. apply R.
  apply Forall_map, Forall_forall. intros k _. now apply rdZ_unum8.
Qed.

Lemma andnot_word x y :
  0 <= y < 4294967296 -> Z.land (Z.lxor x 4294967295) y = Z.land (Z.lnot x) y.
Proof.
  intros Hy. replace y with (Z.land y (Z.ones 32))
    by (rewrite Z.land_ones by lia; apply Z.mod_small; exact Hy).
  change 4294967295 with (Z.ones 32).
  apply Z.bits_inj'. intros n Hn.
  rewrite !Z.land_spec, Z.lxor_spec, Z.lnot_spec by assumption.
  destruct (Z_lt_ge_dec n 32).
  - rewrite Z.ones_spec_low by lia. now rewrite xorb_true_r.
  - rewrite Z.ones_spec_high by lia. now rewrite !andb_false_r.
Qed.

Lemma andnot_kernel output input1 inlen1 input2 :
  Forall is_unum8 input1 -> Forall is_unum8 input2 ->
  bitwise_kernel _mm_andnot_si128 (fun a b => unum8_of (Z.land (Z.lnot a) b))
    output input1 inlen1 input2
  = bitwise_kernel (lanes2 (fun v w => Z.land (Z.lnot v) w))
      (fun a b => Z.land (Z.lnot a) b) output input1 inlen1 input2.
Proof.
  intros H1 H2. apply bitwise_kernel_ext.
  - intros cnt. unfold _mm_andnot_si128, lanes2, loadu_bytes. cbn [w0 w1 w2 w3].
    now rewrite !andnot_word by now apply load_uint4_range.
  - intros cnt. unfold unum8_of. apply Z.mod_small.
    apply is_unum8_andnot. now apply rdZ_unum8.
Qed.

Lemma and_bytewise output outlen input1 inlen1 input2 inlen2 :
  Forall is_unum8 input1 -> Forall is_unum8 input2 ->
  __ext_v_and output outlen input1 inlen1 input2 inlen2
  = for_loop 0 (bytelen inlen1)
      (fun j p => wr p j (Z.land (rdZ input1 j) (rdZ input2 j))) output.
Proof.
  intros H1 H2. unfold __ext_v_and, _mm_and_si128.
  now rewrite (bitwise_kernel_is_byte_loop Z.land Z.land is_unum8_land land_bytes
                 input1 input2 H1 H2).
Qed.

Lemma xor_bytewise output outlen input1 inlen1 input2 inlen2 :
  Forall is_unum8 input1 -> Forall is_unum8 input2 ->
  __ext_v_xor output outlen input1 inlen1 input2 inlen2
  = for_loop 0 (bytelen inlen1)
      (fun j p => wr p j (Z.lxor (rdZ input1 j) (rdZ input2 j))) output.
Proof.
  intros H1 H2. unfold __ext_v_xor, _mm_xor_si128.
  now rewrite (bitwise_kernel_is_byte_loop Z.lxor Z.lxor is_unum8_lxor lxor_bytes
                 input1 input2 H1 H2).
Qed.

Lemma andnot_bytewise output outlen input1 inlen1 input2 inlen2 :
  Forall is_unum8 input1 -> Forall is_unum8 input2 ->
  __ext_v_andnot output outlen input1 inlen1 input2 inlen2
  = for_loop 0 (bytelen inlen1)
      (fun j p => wr p j (Z.land (Z.lnot (rdZ input1 j)) (rdZ input2 j))) output.
Proof.
  intros H1 H2. unfold __ext_v_andnot. rewrite andnot_kernel by assumption.
  now rewrite (bitwise_kernel_is_byte_loop
                 (fun v w => Z.land (Z.lnot v) w) (fun a b => Z.land (Z.lnot a) b)
                 (fun a b _ Hb => is_unum8_andnot a b Hb) andnot_bytes
                 input1 input2 H1 H2).
Qed.

(** X21: on byte buffers and with room for [bytelen inlen1] bytes in the
    output, the generic AND, XOR and AND-NOT kernels store the operation
    on the two input bytes at every byte below [bytelen inlen1], through
    the 16-byte block loop and the byte loop alike, and keep the length
    and the other bytes. *)
Theorem bitwise_kernels_bytewise :
  forall (output input1 input2 : list Z) (outlen inlen1 inlen2 : Z),
    Forall is_unum8 input1 -> Forall is_unum8 input2 ->
    bytelen inlen1 <= Z.of_nat (length output) ->
    let oand := __ext_v_and output outlen input1 inlen1 input2 inlen2 in
    let oxor := __ext_v_xor output outlen input1 inlen1 input2 inlen2 in
    let oandnot := __ext_v_andnot output outlen input1 inlen1 input2 inlen2 in
    (length oand = length output /\ length oxor = length output
     /\ length oandnot = length output)
    /\ forall i,
        rdZ oand i = (if (0 <=? i) && (i <? bytelen inlen1)
                      then Z.land (rdZ input1 i) (rdZ input2 i) else rdZ output i)
        /\ rdZ oxor i = (if (0 <=? i) && (i <? bytelen inlen1)
                         then Z.lxor (rdZ input1 i) (rdZ input2 i) else rdZ output i)
        /\ rdZ oandnot i = (if (0 <=? i) && (i <? bytelen inlen1)
                            then Z.land (Z.lnot (rdZ input1 i)) (rdZ input2 i)
                            else rdZ output i).
Proof.
  intros output input1 input2 outlen inlen1 inlen2 H1 H2 Hlen. cbv zeta.
  rewrite and_bytewise, xor_bytewise, andnot_bytewise by assumption.
  destruct (for_loop_pointwise 0 (fun j => Z.land (rdZ input1 j) (rdZ input2 j))
              0 (bytelen inlen1) output (Z.le_refl 0) Hlen) as [L1 R1].
  destruct (for_loop_pointwise 0 (fun j => Z.lxor (rdZ input1 j) (rdZ input2 j))
              0 (bytelen inlen1) output (Z.le_refl 0) Hlen) as [L2 R2].
  destruct (for_loop_pointwise 0 (fun j => Z.land (Z.lnot (rdZ input1 j)) (rdZ input2 j))
              0 (bytelen inlen1) output (Z.le_refl 0) Hlen) as [L3 R3].
  cbv zeta in *. split; [auto|]. intros i. unfold rdZ at 1 5 9.
  rewrite R1, R2, R3. repeat split.
Qed.

Lemma bitwise_kernels_bytewise_witness :
  let output := repeat 0 18 in
  let input1 := repeat 204 17 in
  let input2 := repeat 170 17 in
  let oand := __ext_v_and output 0 input1 130 input2 0 in
  let oxor := __ext_v_xor output 0 input1 130 input2 0 in
  let oandnot := __ext_v_andnot output 0 input1 130 input2 0 in
  (length oand = length output /\ length oxor = length output
   /\ length oandnot = length output)
  /\ forall i,
      rdZ oand i = (if (0 <=? i) && (i <? bytelen 130)
                    then Z.land (rdZ input1 i) (rdZ input2 i) else rdZ output i)
      /\ rdZ oxor i = (if (0 <=? i) && (i <? bytelen 130)
                       then Z.lxor (rdZ input1 i) (rdZ input2 i) else rdZ output i)
      /\ rdZ oandnot i = (if (0 <=? i) && (i <? bytelen 130)
                          then Z.land (Z.lnot (rdZ input1 i)) (rdZ input2 i)
                          else rdZ output i).
Proof.
  intros output input1 input2.
  apply (bitwise_kernels_bytewise output input1 input2 0 130 0).
  - repeat constructor; unfold is_unum8; lia.
  - repeat constructor; unfold is_unum8; lia.
  - vm_compute; discriminate.
Defined.

Lemma lxor_twice a b : Z.lxor (Z.lxor a b) b = a.
Proof. now rewrite Z.lxor_assoc, Z.lxor_nilpotent, Z.lxor_0_r. Qed.

(** X22: XOR with the same mask twice gives back the first input at every
    byte below [bytelen inlen1]. *)
Theorem xor_twice_restores :
  forall (out1 out2 input1 input2 : list Z) (outlen inlen1 inlen2 : Z),
    Forall is_unum8 input1 -> Forall is_unum8 input2 -> Forall is_unum8 out1 ->
    bytelen inlen1 <= Z.of_nat (length out1) ->
    bytelen inlen1 <= Z.of_nat (length out2) ->
    forall i, 0 <= i < bytelen inlen1 ->
      rdZ (__ext_v_xor out2 outlen
             (__ext_v_xor out1 outlen input1 inlen1 input2 inlen2) inlen1
             input2 inlen2) i
      = rdZ input1 i.
Proof.
  intros out1 out2 input1 input2 outlen inlen1 inlen2 H1 H2 Ho L1 L2 i Hi.
  destruct (for_loop_pointwise 0 (fun j => Z.lxor (rdZ input1 j) (rdZ input2 j))
              0 (bytelen inlen1) out1 (Z.le_refl 0) L1) as [_ R1].
  cbv zeta in R1.
  assert (Hm : Forall is_unum8 (__ext_v_xor out1 outlen input1 inlen1 input2 inlen2)).
  { rewrite xor_bytewise by assumption. apply (Forall_rd _ 0). intros j Hj.
    rewrite R1. destruct ((0 <=? j) && (j <? bytelen inlen1)).
    - apply is_unum8_lxor; now apply rdZ_unum8.
    - now apply rdZ_unum8. }
  rewrite (xor_bytewise out2) by assumption.
  rewrite (xor_bytewise out1) in * by assumption.
  destruct (for_loop_pointwise 0
              (fun j => Z.lxor (rdZ (for_loop 0 (bytelen inlen1)
                          (fun j p => wr p j (Z.lxor (rdZ input1 j) (rdZ input2 j))) out1) j)
                          (rdZ input2 j))
              0 (bytelen inlen1) out2 (Z.le_refl 0) L2) as [_ R2].
  cbv zeta in R2. unfold rdZ at 1. rewrite R2, (in_range_true 0 _ i Hi).
  unfold rdZ at 1. rewrite R1, (in_range_true 0 _ i Hi).
  apply lxor_twice.
Qed.

Lemma xor_twice_restores_witness :
  rdZ (__ext_v_xor (repeat 0 17) 0
         (__ext_v_xor (repeat 0 17) 0 (repeat 204 17) 130 (repeat 170 17) 0) 130
         (repeat 170 17) 0) 16
  = rdZ (repeat 204 17) 16.
Proof.
  apply (xor_twice_restores (repeat 0 17) (repeat 0 17) (repeat 204 17) (repeat 170 17)
           0 130 0);
    try (repeat constructor; unfold is_unum8; lia);
    vm_compute; discriminate.
Defined.

Lemma bytelen_one inlen1 : 1 <= inlen1 <= 8 -> bytelen inlen1 = 1.
Proof.
  intros H.
  assert (E : inlen1 = 1 \/ inlen1 = 2 \/ inlen1 = 3 \/ inlen1 = 4 \/ inlen1 = 5
              \/ inlen1 = 6 \/ inlen1 = 7 \/ inlen1 = 8) by lia.
  repeat (destruct E as [-> | E]; [reflexivity|]). now subst.
Qed.

(** X23: on a bit array of one to eight bits the generic kernels and the
    OR dispatcher do what the one-byte versions do: they store one byte
    and touch nothing else. *)
Theorem one_byte_versions_agree :
  forall (output input1 input2 : list Z) (outlen inlen1 inlen2 outlen' inlen1' inlen2' : Z),
    Forall is_unum8 input1 -> Forall is_unum8 input2 ->
    1 <= inlen1 <= 8 ->
    __ext_v_and output outlen input1 inlen1 input2 inlen2
      = __ext_v_and8 output outlen' input1 inlen1' input2 inlen2'
    /\ __ext_v_xor output outlen input1 inlen1 input2 inlen2
      = __ext_v_xor8 output outlen' input1 inlen1' input2 inlen2'
    /\ __ext_v_andnot output outlen input1 inlen1 input2 inlen2
      = __ext_v_andnot8 output outlen' input1 inlen1' input2 inlen2'
    /\ __ext_v_or output outlen input1 inlen1 input2 inlen2
      = __ext_v_or8 output outlen' input1 inlen1' input2 inlen2'.
Proof.
  intros output input1 input2 outlen inlen1 inlen2 outlen' inlen1' inlen2' H1 H2 Hlen.
  rewrite and_bytewise, xor_bytewise, andnot_bytewise by assumption.
  rewrite (bytelen_one inlen1 Hlen).
  rewrite (or_dispatch_eq_byte_loop input1 input2 H1 H2).
  unfold __ext_v_and8, __ext_v_xor8, __ext_v_andnot8, __ext_v_or8, or_byte_loop.
  assert (E : div_int (add_int inlen1 7) 8 = 1).
  { assert (E : inlen1 = 1 \/ inlen1 = 2 \/ inlen1 = 3 \/ inlen1 = 4 \/ inlen1 = 5
                \/ inlen1 = 6 \/ inlen1 = 7 \/ inlen1 = 8) by lia.
    repeat (destruct E as [-> | E]; [reflexivity|]). now subst. }
  rewrite E. unfold for_loop. change (Z.to_nat (1 - 0)) with 1%nat. cbn [for_iter].
  repeat split.
  unfold unum8_of. rewrite Z.mod_small; [reflexivity|].
  apply is_unum8_andnot. now apply rdZ_unum8.
Qed.

Lemma one_byte_versions_agree_witness :
  __ext_v_and [0; 9] 0 [204] 5 [170] 0 = __ext_v_and8 [0; 9] 1 [204] 8 [170] 8
  /\ __ext_v_xor [0; 9] 0 [204] 5 [170] 0 = __ext_v_xor8 [0; 9] 1 [204] 8 [170] 8
  /\ __ext_v_andnot [0; 9] 0 [204] 5 [170] 0 = __ext_v_andnot8 [0; 9] 1 [204] 8 [170] 8
  /\ __ext_v_or [0; 9] 0 [204] 5 [170] 0 = __ext_v_or8 [0; 9] 1 [204] 8 [170] 8.
Proof.
  apply (one_byte_versions_agree [0; 9] [204] [170] 0 5 0 1 8 8);
    try lia; repeat constructor; unfold is_unum8; lia.
Defined.

(** For a bit length that leaves room for the rounding, the byte count of
    the generic kernels is the byte count of the OR loop. *)
Lemma bytelen_ceil inlen1 :
  0 <= inlen1 < 2147483641 -> bytelen inlen1 = div_int (add_int inlen1 7) 8.
Proof.
  intros H. unfold bytelen, add_int, div_int, rem_int.
  rewrite (int32_of_id (inlen1 + 7)) by (unfold is_int32; lia).
  rewrite !Z.quot_div_nonneg, Z.rem_mod_nonneg by lia.
  pose proof (Z_div_mod_eq_full inlen1 8). pose proof (Z.mod_pos_bound inlen1 8 ltac:(lia)).
  assert (0 <= inlen1 / 8 <= inlen1) by (split; [apply Z.div_pos; lia|apply Z.div_le_upper_bound; lia]).
  destruct (Z.ltb_spec 0 (inlen1 mod 8)).
  - rewrite int32_of_id by (unfold is_int32; lia).
    apply Z.div_unique with (r := inlen1 mod 8 - 1); lia.
  - rewrite int32_of_id by (unfold is_int32; lia).
    apply Z.div_unique with (r := 7); lia.
Qed.

Lemma lor_land_andnot a b : Z.lor (Z.land a b) (Z.land (Z.lnot a) b) = b.
Proof.
  apply Z.bits_inj'. intros n Hn.
  rewrite Z.lor_spec, !Z.land_spec, Z.lnot_spec by assumption.
  now destruct (Z.testbit a n), (Z.testbit b n).
Qed.

(** X24: the bits of [input2] that AND keeps and the bits that AND-NOT
    keeps are all its bits: the OR of the two outputs gives back [input2]
    at every byte below [bytelen inlen1]. *)
Theorem or_of_and_and_andnot :
  forall (out1 out2 out3 input1 input2 : list Z) (outlen inlen1 inlen2 : Z),
    Forall is_unum8 input1 -> Forall is_unum8 input2 ->
    Forall is_unum8 out1 -> Forall is_unum8 out2 ->
    0 <= inlen1 < 2147483641 ->
    bytelen inlen1 <= Z.of_nat (length out1) ->
    bytelen inlen1 <= Z.of_nat (length out2) ->
    bytelen inlen1 <= Z.of_nat (length out3) ->
    forall i, 0 <= i < bytelen inlen1 ->
      rdZ (__ext_v_or out3 outlen
             (__ext_v_and out1 outlen input1 inlen1 input2 inlen2) inlen1
             (__ext_v_andnot out2 outlen input1 inlen1 input2 inlen2) inlen1) i
      = rdZ input2 i.
Proof.
  intros out1 out2 out3 input1 input2 outlen inlen1 inlen2 H1 H2 Ho1 Ho2 Hn L1 L2 L3 i Hi.
  destruct (for_loop_pointwise 0 (fun j => Z.land (rdZ input1 j) (rdZ input2 j))
              0 (bytelen inlen1) out1 (Z.le_refl 0) L1) as [_ R1].
  destruct (for_loop_pointwise 0 (fun j => Z.land (Z.lnot (rdZ input1 j)) (rdZ input2 j))
              0 (bytelen inlen1) out2 (Z.le_refl 0) L2) as [_ R2].
  cbv zeta in R1, R2.
  rewrite and_bytewise, andnot_bytewise by assumption.
  set (m1 := for_loop 0 (bytelen inlen1)
               (fun j p => wr p j (Z.land (rdZ input1 j) (rdZ input2 j))) out1) in *.
  set (m2 := for_loop 0 (bytelen inlen1)
               (fun j p => wr p j (Z.land (Z.lnot (rdZ input1 j)) (rdZ input2 j))) out2) in *.
  assert (W1 : Forall is_unum8 m1).
  { apply (Forall_rd _ 0). intros j Hj. rewrite R1.
    destruct ((0 <=? j) && (j <? bytelen inlen1)).
    - apply is_unum8_land; now apply rdZ_unum8.
    - now apply rdZ_unum8. }
  assert (W2 : Forall is_unum8 m2).
  { apply (Forall_rd _ 0). intros j Hj. rewrite R2.
    destruct ((0 <=? j) && (j <? bytelen inlen1)).
    - apply is_unum8_andnot; now apply rdZ_unum8.
    - now apply rdZ_unum8. }
  rewrite (or_dispatch_eq_byte_loop m1 m2 W1 W2). unfold or_byte_loop.
  rewrite <- (bytelen_ceil inlen1 Hn).
  destruct (for_loop_pointwise 0 (fun j => Z.lor (rdZ m1 j) (rdZ m2 j))
              0 (bytelen inlen1) out3 (Z.le_refl 0) L3) as [_ R3].
  cbv zeta in R3. unfold rdZ at 1. rewrite R3, (in_range_true 0 _ i Hi).
  unfold rdZ at 1 2. rewrite R1, R2, (in_range_true 0 _ i Hi).
  apply lor_land_andnot.
Qed.

Lemma or_of_and_and_andnot_witness :
  rdZ (__ext_v_or (repeat 0 17) 0
         (__ext_v_and (repeat 0 17) 0 (repeat 204 17) 130 (repeat 170 17) 0) 130
         (__ext_v_andnot (repeat 0 17) 0 (repeat 204 17) 130 (repeat 170 17) 0) 130) 16
  = rdZ (repeat 170 17) 16.
Proof.
  apply (or_of_and_and_andnot (repeat 0 17) (repeat 0 17) (repeat 0 17)
           (repeat 204 17) (repeat 170 17) 0 130 0);
    try (repeat constructor; unfold is_unum8; lia);
    try lia; vm_compute; discriminate.
Defined.

(** ** Casts and sign changes of 8-bit samples *)

(** X25: for [0 <= lenin] and room for [2 * lenin] bytes in the output,
    the cast copies the components in order: byte [2 * j] of the output is
    [input[j].re] and byte [2 * j + 1] is [input[j].im] for every
    [j < lenin]; the bytes from [2 * lenin] on and the length are kept,
    and the function returns zero. *)
Theorem cast_complex8_int8_copies_components :
  forall (output : list Z) (input : list complex) (lenout lenin : Z),
    0 <= lenin -> is_int32 lenin -> 2 * lenin <= Z.of_nat (length output) ->
    let r := __ext_v_cast_complex8_int8 output lenout input lenin in
    snd r = 0 /\ length (fst r) = length output
    /\ (forall j, 0 <= j < lenin ->
          rdZ (fst r) (2 * j) = re (rdC input j)
          /\ rdZ (fst r) (2 * j + 1) = im (rdC input j))
    /\ (forall k, 2 * lenin <= k -> rdZ (fst r) k = rdZ output k).
Proof.
  intros output input lenout lenin Hlen Hint Hout. cbv zeta.
  unfold __ext_v_cast_complex8_int8, memcpy_complex8, size_t_of. cbn [fst snd].
  unfold is_int32 in Hint.
  rewrite (Z.mod_small lenin), (Z.mod_small (lenin * 2)) by lia.
  destruct (for_loop_pointwise 0 (fun k => rd_comp input k) 0 (lenin * 2) output
              (Z.le_refl 0) ltac:(lia)) as [L R].
  cbv zeta in *. split; [reflexivity|]. split; [exact L|]. split.
  - intros j Hj. unfold rdZ. rewrite !R, !in_range_true by lia.
    now rewrite rd_comp_even, rd_comp_odd by lia.
  - intros k Hk. unfold rdZ. rewrite R, in_range_false by lia. reflexivity.
Qed.

Lemma cast_complex8_int8_copies_components_witness :
  let output := [0; 0; 0; 0; 9] in
  let input := [Cplx 1 (-2); Cplx (-128) 127] in
  let r := __ext_v_cast_complex8_int8 output 5 input 2 in
  snd r = 0 /\ length (fst r) = length output
  /\ (forall j, 0 <= j < 2 ->
        rdZ (fst r) (2 * j) = re (rdC input j)
        /\ rdZ (fst r) (2 * j + 1) = im (rdC input j))
  /\ (forall k, 2 * 2 <= k -> rdZ (fst r) k = rdZ output k).
Proof.
  intros output input.
  apply (cast_complex8_int8_copies_components output input 5 2);
    unfold is_int32; simpl; lia.
Defined.

Lemma int8_of_range v : is_int8 (int8_of v).
Proof.
  unfold is_int8, int8_of. pose proof (Z.mod_pos_bound (v + 128) 256). lia.
Qed.

Lemma int8_of_id v : is_int8 v -> int8_of v = v.
Proof. unfold is_int8, int8_of. intros H. rewrite Z.mod_small; lia. Qed.

Lemma int8_of_decomp v : exists k, int8_of v = v + 256 * k.
Proof.
  exists (- ((v + 128) / 256)). unfold int8_of.
  pose proof (Z_div_mod_eq_full (v + 128) 256). lia.
Qed.

Lemma int8_of_eqm a b k : a = b + 256 * k -> int8_of a = int8_of b.
Proof.
  intros ->. unfold int8_of.
  replace (b + 256 * k + 128) with (b + 128 + k * 256) by lia.
  now rewrite Z_mod_plus_full.
Qed.

Lemma int8_of_opp_wrapped v : int8_of (- int8_of v) = int8_of (- v).
Proof.
  destruct (int8_of_decomp v) as [k E]. rewrite E.
  apply int8_of_eqm with (k := - k). lia.
Qed.

Lemma int8_of_int32_of v : int8_of (int32_of v) = int8_of v.
Proof.
  destruct (int32_of_decomp v) as [k E]. rewrite E.
  apply int8_of_eqm with (k := 16777216 * k). lia.
Qed.

Lemma sbyte_mk_bytes b0 b1 b2 b3 :
  sbyte (mk_bytes b0 b1 b2 b3) 0 = int8_of b0
  /\ sbyte (mk_bytes b0 b1 b2 b3) 1 = int8_of b1
  /\ sbyte (mk_bytes b0 b1 b2 b3) 2 = int8_of b2
  /\ sbyte (mk_bytes b0 b1 b2 b3) 3 = int8_of b3.
Proof.
  unfold sbyte. destruct (byte_of_mk_bytes b0 b1 b2 b3) as [-> [-> [-> ->]]].
  now rewrite !int8_of_unum8_of.
Qed.

Ltac sbytes :=
  repeat match goal with
  | |- context [sbyte (mk_bytes ?a ?b ?c ?d) _] =>
      let H := fresh in
      pose proof (sbyte_mk_bytes a b c d) as H;
      destruct H as [-> [-> [-> ->]]]
  end.

Lemma sbyte_ones :
  sbyte (unum32_of 4294967295) 0 = -1 /\ sbyte (unum32_of 4294967295) 1 = -1
  /\ sbyte (unum32_of 4294967295) 2 = -1 /\ sbyte (unum32_of 4294967295) 3 = -1.
Proof. repeat split. Qed.

Lemma sign8_minus_one a : sign8 a (-1) = - a.
Proof. reflexivity. Qed.

Lemma sbyte_eq w k : int8_of (byte_of w k) = sbyte w k.
Proof. reflexivity. Qed.

(** One iteration of the vector loop of [__ext_v_negate_complex8]. *)
Lemma negate_chunk input i s :
  store_vcb s i (_mm_sign_epi8 (load_vcb input i) (_mm_set1_epi32 0xFFFFFFFF))
  = for_iter 8 (8 * i) (fun j s =>
      wr s j (Cplx (int8_of (- re (rdC input j))) (int8_of (- im (rdC input j))))) s.
Proof.
  rewrite for_iter_8.
  unfold store_vcb, _mm_sign_epi8, load_vcb, _mm_set1_epi32, lanes2.
  cbn [w0 w1 w2 w3].
  destruct sbyte_ones as [-> [-> [-> ->]]].
  rewrite !sign8_minus_one, !sbyte_eq.
  sbytes. rewrite !int8_of_opp_wrapped.
  replace (8 * i + 2 + 1) with (8 * i + 3) by lia.
  replace (8 * i + 4 + 1) with (8 * i + 5) by lia.
  replace (8 * i + 6 + 1) with (8 * i + 7) by lia.
  reflexivity.
Qed.

Lemma negate_complex8_loops output lenout input lenin :
  0 <= lenin ->
  __ext_v_negate_complex8 output lenout input lenin
  = for_loop 0 lenin (fun j p =>
      wr p j (Cplx (int8_of (- re (rdC input j))) (int8_of (- im (rdC input j))))) output.
Proof.
  intros Hlen. unfold __ext_v_negate_complex8.
  destruct (vector_end_bounds lenin 8 ltac:(lia)) as [B _]. specialize (B Hlen).
  unfold vector_end in B.
  assert (Hq : 0 <= div_int lenin 8) by lia.
  rewrite Z.max_r by assumption.
  rewrite (for_loop_ext _ (fun j p =>
      wr p j (Cplx (int8_of (- re (rdC input j))) (int8_of (- im (rdC input j))))))
    by (intros j t Hj; cbv beta zeta; unfold neg_int;
        rewrite set_im_set_re, !int8_of_int32_of; reflexivity).
  apply (vector_then_remainder 8); [lia|]. intros i s _.
  change (Z.of_nat 8) with 8. apply negate_chunk.
Qed.

(** X26: [__ext_v_negate_complex8] stores the opposite of both components,
    wrapped to eight bits, in every element below [lenin], in the vector
    loop and in the remainder loop alike: a component [-128] stays [-128],
    any other [int8] component [v] becomes [- v].  The length and the
    other elements are kept. *)
Theorem negate_complex8_elementwise :
  forall (output input : list complex) (lenout lenin : Z),
    0 <= lenin <= Z.of_nat (length output) ->
    let out := __ext_v_negate_complex8 output lenout input lenin in
    length out = length output
    /\ (forall i, rdC out i = if (0 <=? i) && (i <? lenin)
                              then Cplx (int8_of (- re (rdC input i)))
                                        (int8_of (- im (rdC input i)))
                              else rdC output i)
    /\ (forall v, is_int8 v -> int8_of (- v) = if v =? -128 then -128 else - v).
Proof.
  intros output input lenout lenin Hlen. cbv zeta.
  rewrite negate_complex8_loops by lia.
  destruct (for_loop_pointwise czero
              (fun j => Cplx (int8_of (- re (rdC input j))) (int8_of (- im (rdC input j))))
              0 lenin output (Z.le_refl 0) ltac:(lia)) as [L R].
  cbv zeta in *. split; [exact L|]. split; [exact R|].
  intros v Hv. unfold is_int8 in Hv. destruct (Z.eqb_spec v (-128)) as [->|Hne].
  - reflexivity.
  - apply int8_of_id. unfold is_int8. lia.
Qed.

Lemma negate_complex8_elementwise_witness :
  let output := repeat czero 10 in
  let input := repeat (Cplx (-128) 5) 9 in
  let out := __ext_v_negate_complex8 output 10 input 9 in
  length out = length output
  /\ (forall i, rdC out i = if (0 <=? i) && (i <? 9)
                            then Cplx (int8_of (- re (rdC input i)))
                                      (int8_of (- im (rdC input i)))
                            else rdC output i)
  /\ (forall v, is_int8 v -> int8_of (- v) = if v =? -128 then -128 else - v).
Proof.
  intros output input.
  apply (negate_complex8_elementwise output input 10 9). simpl. lia.
Defined.

Lemma int8_of_opp_opp v : is_int8 v -> int8_of (- int8_of (- v)) = v.
Proof.
  intros H. rewrite int8_of_opp_wrapped, Z.opp_involutive. now apply int8_of_id.
Qed.

Lemma rdC_wf8 p i : Forall wf_complex8 p -> wf_complex8 (rdC p i).
Proof.
  intros H. apply (rd_Forall wf_complex8); [exact H|].
  unfold wf_complex8, is_int8. simpl. lia.
Qed.

(** X27: negating twice gives back every [complex8] element below [lenin],
    [-128] included. *)
Theorem negate_complex8_twice_restores :
  forall (out1 out2 input : list complex) (lenout lenin i : Z),
    Forall wf_complex8 input ->
    0 <= lenin -> lenin <= Z.of_nat (length out1) -> lenin <= Z.of_nat (length out2) ->
    0 <= i < lenin ->
    rdC (__ext_v_negate_complex8 out2 lenout
           (__ext_v_negate_complex8 out1 lenout input lenin) lenin) i
    = rdC input i.
Proof.
  intros out1 out2 input lenout lenin i Hwf Hlen L1 L2 Hi.
  rewrite !negate_complex8_loops by assumption.
  destruct (for_loop_pointwise czero
              (fun j => Cplx (int8_of (- re (rdC input j))) (int8_of (- im (rdC input j))))
              0 lenin out1 (Z.le_refl 0) L1) as [_ R1].
  cbv zeta in R1.
  set (m := for_loop 0 lenin (fun j p =>
              wr p j (Cplx (int8_of (- re (rdC input j))) (int8_of (- im (rdC input j)))))
              out1) in *.
  destruct (for_loop_pointwise czero
              (fun j => Cplx (int8_of (- re (rdC m j))) (int8_of (- im (rdC m j))))
              0 lenin out2 (Z.le_refl 0) L2) as [_ R2].
  cbv zeta in R2. unfold rdC at 1. rewrite R2, (in_range_true 0 lenin i Hi).
  unfold rdC at 1 2. rewrite R1, (in_range_true 0 lenin i Hi). cbn [re im].
  destruct (rdC_wf8 input i Hwf) as [Wr Wi].
  fold (rdC input i).
  rewrite !int8_of_opp_opp by assumption. now destruct (rdC input i).
Qed.

Lemma negate_complex8_twice_restores_witness :
  rdC (__ext_v_negate_complex8 (repeat czero 9) 9
         (__ext_v_negate_complex8 (repeat czero 9) 9 (repeat (Cplx (-128) 5) 9) 9) 9) 8
  = rdC (repeat (Cplx (-128) 5) 9) 8.
Proof.
  apply (negate_complex8_twice_restores (repeat czero 9) (repeat czero 9)
           (repeat (Cplx (-128) 5) 9) 9 9 8);
    try (simpl; lia); repeat constructor; unfold is_int8; simpl; lia.
Defined.





(** ** Permutations of four samples and their composition *)

Lemma unpack_pack_complex16 c : wf_complex16 c -> unpack_complex16 (pack_complex16 c) = c.
Proof.
  intros [Hr Hi]. unfold unpack_complex16, pack_complex16.
  rewrite slo16_mk32, shi16_mk32, !int16_of_id by assumption. now destruct c.
Qed.

Lemma four_writes (p : list complex) a b c d :
  (4 <= length p)%nat ->
  let q := wr (wr (wr (wr p 0 a) 1 b) 2 c) 3 d in
  length q = length p
  /\ rdC q 0 = a /\ rdC q 1 = b /\ rdC q 2 = c /\ rdC q 3 = d
  /\ forall i, 4 <= i -> rdC q i = rdC p i.
Proof.
  intros Hp. cbv zeta. unfold rdC.
  split; [now rewrite !length_wr|].
  repeat match goal with |- _ /\ _ => split end.
  - rewrite !rd_wr_ne by lia. apply rd_wr_eq. lia.
  - rewrite !rd_wr_ne by lia. apply rd_wr_eq. rewrite !length_wr. lia.
  - rewrite !rd_wr_ne by lia. apply rd_wr_eq. rewrite !length_wr. lia.
  - apply rd_wr_eq. rewrite !length_wr. lia.
  - intros i Hi. now rewrite !rd_wr_ne by lia.
Qed.

Lemma permutatew1313_runs x y :
  __ext_permutatew1313 x 4 y 4
  = Some (wr (wr (wr (wr y 0 (unpack_complex16 (pack_complex16 (rdC x 1))))
                     1 (unpack_complex16 (pack_complex16 (rdC x 3))))
                 2 (unpack_complex16 (pack_complex16 (rdC x 1))))
             3 (unpack_complex16 (pack_complex16 (rdC x 3))), 0).
Proof. reflexivity. Qed.

Lemma interleave_loww_runs x y z :
  __ext_interleave_loww x 4 y 4 z 4
  = Some (wr (wr (wr (wr z 0 (unpack_complex16 (pack_complex16 (rdC x 0))))
                     1 (unpack_complex16 (pack_complex16 (rdC x 1))))
                 2 (unpack_complex16 (pack_complex16 (rdC y 0))))
             3 (unpack_complex16 (pack_complex16 (rdC y 1))), 0).
Proof. reflexivity. Qed.

(** X29: called with all length arguments equal to four, on inputs of
    16-bit components and a destination of at least four elements,
    [__ext_permutatew1313] stores [x[1], x[3], x[1], x[3]] and
    [__ext_interleave_loww] stores [x[0], x[1], y[0], y[1]] in the first
    four elements of the destination, keep the rest and return zero; with
    any length argument different from four the assertion, when compiled
    in, stops the call. *)
Theorem permutatew1313_interleave_loww_results :
  forall (x y z : list complex) (u5 u4 u3 : Z),
    Forall wf_complex16 x -> Forall wf_complex16 y -> (4 <= length z)%nat ->
    (exists p, __ext_permutatew1313 x 4 z 4 = Some (p, 0)
       /\ length p = length z
       /\ rdC p 0 = rdC x 1 /\ rdC p 1 = rdC x 3 /\ rdC p 2 = rdC x 1 /\ rdC p 3 = rdC x 3
       /\ forall i, 4 <= i -> rdC p i = rdC z i)
    /\ (exists q, __ext_interleave_loww x 4 y 4 z 4 = Some (q, 0)
       /\ length q = length z
       /\ rdC q 0 = rdC x 0 /\ rdC q 1 = rdC x 1 /\ rdC q 2 = rdC y 0 /\ rdC q 3 = rdC y 1
       /\ forall i, 4 <= i -> rdC q i = rdC z i)
    /\ (u5 <> 4 \/ u4 <> 4 -> __ext_permutatew1313 x u5 z u4 = None)
    /\ (u5 <> 4 \/ u4 <> 4 \/ u3 <> 4 -> __ext_interleave_loww x u5 y u4 z u3 = None).
Proof.
  intros x y z u5 u4 u3 Hx Hy Hz.
  repeat match goal with |- _ /\ _ => split end.
  - rewrite permutatew1313_runs.
    rewrite !unpack_pack_complex16 by now apply rdC_wf16.
    eexists. split; [reflexivity|]. now apply four_writes.
  - rewrite interleave_loww_runs.
    rewrite !unpack_pack_complex16 by now apply rdC_wf16.
    eexists. split; [reflexivity|]. now apply four_writes.
  - intros H. unfold __ext_permutatew1313, c_assert.
    destruct (Z.eqb_spec u5 4); [|reflexivity].
    destruct (Z.eqb_spec u4 4); [|reflexivity]. lia.
  - intros H. unfold __ext_interleave_loww, c_assert.
    destruct (Z.eqb_spec u4 4); [|reflexivity].
    destruct (Z.eqb_spec u3 4); [|reflexivity].
    destruct (Z.eqb_spec u5 4); [|reflexivity]. lia.
Qed.

Lemma permutatew1313_interleave_loww_results_witness :
  let x := [Cplx 1 2; Cplx 3 4; Cplx 5 6; Cplx 7 8] in
  let y := [Cplx 11 12; Cplx 13 14; Cplx 15 16; Cplx 17 18] in
  let z := repeat czero 4 in
  (exists p, __ext_permutatew1313 x 4 z 4 = Some (p, 0)
     /\ length p = length z
     /\ rdC p 0 = rdC x 1 /\ rdC p 1 = rdC x 3 /\ rdC p 2 = rdC x 1 /\ rdC p 3 = rdC x 3
     /\ forall i, 4 <= i -> rdC p i = rdC z i)
  /\ (exists q, __ext_interleave_loww x 4 y 4 z 4 = Some (q, 0)
     /\ length q = length z
     /\ rdC q 0 = rdC x 0 /\ rdC q 1 = rdC x 1 /\ rdC q 2 = rdC y 0 /\ rdC q 3 = rdC y 1
     /\ forall i, 4 <= i -> rdC q i = rdC z i)
  /\ (4 <> 4 \/ 3 <> 4 -> __ext_permutatew1313 x 4 z 3 = None)
  /\ (4 <> 4 \/ 3 <> 4 \/ 4 <> 4 -> __ext_interleave_loww x 4 y 3 z 4 = None).
Proof.
  intros x y z.
  apply (permutatew1313_interleave_loww_results x y z 4 3 4);
    try (simpl; lia); repeat constructor; unfold is_int16; simpl; lia.
Defined.

(** X30: interleaving the permutations of two blocks of four samples
    keeps the samples of odd index of both, in order: [a[1], a[3], b[1],
    b[3]], the eight samples decimated by two. *)
Theorem interleave_of_permutations_decimates :
  forall (a b t1 t2 z p q : list complex),
    Forall wf_complex16 a -> Forall wf_complex16 b ->
    (4 <= length t1)%nat -> (4 <= length t2)%nat -> (4 <= length z)%nat ->
    __ext_permutatew1313 a 4 t1 4 = Some (p, 0) ->
    __ext_permutatew1313 b 4 t2 4 = Some (q, 0) ->
    exists r, __ext_interleave_loww p 4 q 4 z 4 = Some (r, 0)
      /\ length r = length z
      /\ rdC r 0 = rdC a 1 /\ rdC r 1 = rdC a 3 /\ rdC r 2 = rdC b 1 /\ rdC r 3 = rdC b 3
      /\ forall i, 4 <= i -> rdC r i = rdC z i.
Proof.
  intros a b t1 t2 z p q Ha Hb H1 H2 Hz Ep Eq.
  rewrite permutatew1313_runs in Ep, Eq.
  rewrite !unpack_pack_complex16 in Ep, Eq by now apply rdC_wf16.
  injection Ep as Ep. injection Eq as Eq.
  destruct (four_writes t1 (rdC a 1) (rdC a 3) (rdC a 1) (rdC a 3) H1)
    as [_ [P0 [P1 _]]].
  destruct (four_writes t2 (rdC b 1) (rdC b 3) (rdC b 1) (rdC b 3) H2)
    as [_ [Q0 [Q1 _]]].
  cbv zeta in *. rewrite Ep in P0, P1. rewrite Eq in Q0, Q1.
  rewrite interleave_loww_runs, P0, P1, Q0, Q1.
  rewrite !unpack_pack_complex16 by now apply rdC_wf16.
  eexists. split; [reflexivity|]. now apply four_writes.
Qed.

Lemma interleave_of_permutations_decimates_witness :
  let a := [Cplx 1 2; Cplx 3 4; Cplx 5 6; Cplx 7 8] in
  let b := [Cplx 11 12; Cplx 13 14; Cplx 15 16; Cplx 17 18] in
  let z := repeat czero 4 in
  exists r, __ext_interleave_loww [Cplx 3 4; Cplx 7 8; Cplx 3 4; Cplx 7 8] 4
              [Cplx 13 14; Cplx 17 18; Cplx 13 14; Cplx 17 18] 4 z 4 = Some (r, 0)
    /\ length r = length z
    /\ rdC r 0 = rdC a 1 /\ rdC r 1 = rdC a 3 /\ rdC r 2 = rdC b 1 /\ rdC r 3 = rdC b 3
    /\ forall i, 4 <= i -> rdC r i = rdC z i.
Proof.
  intros a b z.
  apply (interleave_of_permutations_decimates a b (repeat czero 4) (repeat czero 4) z
           [Cplx 3 4; Cplx 7 8; Cplx 3 4; Cplx 7 8]
           [Cplx 13 14; Cplx 17 18; Cplx 13 14; Cplx 17 18]);
    try (simpl; lia);
    try (repeat constructor; unfold is_int16; simpl; lia);
    vm_compute; reflexivity.
Defined.
